(** * advbet/rng: unbiased integers, floats, permutations and samples
      drawn from a byte-oriented entropy source.

    A shallow embedding of [util.go] (minBytes) and of the reader-based
    core (ReadUint64Bits, ReadIntn, ReadFloat64, ReadPerm, ReadSample),
    followed by the properties the specification states about them.

    Conventions
    - Go's [uint], [uint64] are integers in [0, 2^64) with wrap-around
      written out ([wrap64]); Go's [int] is the 64-bit two's complement
      integer ([to_int]), as on the platforms the tests are written for
      (TestInt64Overflow takes 0x7fffffffffffffff for the largest int).
    - Slices are lists; an index or a slice bound out of range is a
      runtime panic, and so is a size given to [make] that the runtime's
      makeslice refuses: a negative one, or one whose elements take more
      than [maxAlloc] bytes.  A size that makeslice accepts is taken to
      be allocated: running out of memory below that limit is a fatal
      error of the process, not a panic, and is not modelled.
    - An [io.Reader] is a type class over the reader's state; every
      [Read] call is logged in a trace so that statements about how many
      bytes were taken from the source can be made.
    - A Go [panic] is an explicit outcome; loops without a bound take
      fuel and report [OutOfFuel] when it is exhausted.
    - Go's [float64] is IEEE 754 binary64, taken from the Standard
      Library's executable specification [SpecFloat] (precision 53,
      emax 1024, round to nearest even). *)

From Stdlib Require Import ZArith Lia List String QArith Qpower.
From Stdlib Require Import Strings.Byte.
From Stdlib Require Import SpecFloat.
From stdpp Require Import base numbers list gmap.

Local Open Scope Z_scope.

(** ** Machine integers *)

Module Word.

Definition wrap64 (z : Z) : Z := z mod 2 ^ 64.

(** [int(x)] for a [uint64] x: reinterpretation in two's complement. *)
Definition to_int (z : Z) : Z :=
  let w := wrap64 z in if w <? 2 ^ 63 then w else w - 2 ^ 64.

(** [x << n] on [uint64]; a shift count of 64 or more gives 0 in Go. *)
Definition shl64 (x n : Z) : Z := wrap64 (Z.shiftl x n).

Definition sub64 (x y : Z) : Z := wrap64 (x - y).
Definition add64 (x y : Z) : Z := wrap64 (x + y).
Definition mul64 (x y : Z) : Z := wrap64 (x * y).

(** [uint64(b)] for a byte b. *)
Definition byte_to_Z (b : byte) : Z := Z.of_N (Byte.to_N b).

Definition is_uint64 (z : Z) : Prop := 0 <= z < 2 ^ 64.
Definition is_int (z : Z) : Prop := - 2 ^ 63 <= z < 2 ^ 63.

End Word.
Import Word.

(** ** float64 *)

Module Float64.

Definition prec : Z := 53.
Definition emax : Z := 1024.

(** [float64(x)] for an unsigned integer x *)
Definition of_uint64 (x : Z) : spec_float :=
  binary_normalize prec emax x 0 false.

(** [x / y] *)
Definition div (x y : spec_float) : spec_float := SFdiv prec emax x y.

(** [x < y] and [x <= y] *)
Definition ltb (x y : spec_float) : bool := SFltb x y.
Definition leb (x y : spec_float) : bool := SFleb x y.

(** the constants [0.0] and [1.0] *)
Definition zero : spec_float := of_uint64 0.
Definition one : spec_float := of_uint64 1.

(** the rational a finite float stands for *)
Definition to_Q (f : spec_float) : option Q :=
  match f with
  | S754_zero _ => Some 0%Q
  | S754_finite s m e =>
      Some (inject_Z (if s then Z.neg m else Z.pos m) * Qpower 2 e)%Q
  | S754_infinity _ | S754_nan => None
  end.

End Float64.

(** ** util.go *)

Definition minBytes (n : Z) : Z :=
  if n =? 0 then 0
  else if n <=? 0xff then 1
  else if n <=? 0xffff then 2
  else if n <=? 0xffffff then 3
  else if n <=? 0xffffffff then 4
  else if n <=? 0xffffffffff then 5
  else if n <=? 0xffffffffffff then 6
  else if n <=? 0xffffffffffffff then 7
  else 8.

(** ** Errors, panics and outcomes *)

Inductive error : Type :=
  | EOF
  | ErrUnexpectedEOF
  | ErrShortBuffer
  | ErrSource (msg : string).

Inductive panic : Type :=
  | PanicString (msg : string)      (* panic("...") *)
  | PanicError (e : error)          (* panic(e) *)
  | PanicRuntime (msg : string).    (* raised by the Go runtime *)

(** [err == nil] and [err == EOF] *)
Definition is_nil (err : option error) : bool :=
  match err with None => true | Some _ => false end.
Definition is_EOF (err : option error) : bool :=
  match err with Some EOF => true | _ => false end.

Inductive result (W A : Type) : Type :=
  | Ok (a : A) (w : W)
  | Panic (p : panic) (w : W)
  | OutOfFuel.
Arguments Ok {W A} a w.
Arguments Panic {W A} p w.
Arguments OutOfFuel {W A}.

(** ** The io.Reader interface *)

(** [Read s len] is [r.Read(p)] with [len(p) = len] on a reader in
    state [s]: the bytes stored at the front of [p], the error returned,
    and the reader's next state.  [Read_le] is the interface's contract
    [0 <= n <= len(p)]. *)
Class Reader (R : Type) : Type := {
  Read : R -> nat -> list byte * option error * R;
  Read_le : forall s len, (length (Read s len).1.1 <= len)%nat
}.

(** One logged [Read] call. *)
Record read_event : Type := ReadEvent {
  ev_len : nat;
  ev_bytes : list byte;
  ev_err : option error
}.

Record world (R : Type) : Type := World {
  src : R;
  trace : list read_event
}.
Arguments World {R} src trace.
Arguments src {R} w.
Arguments trace {R} w.

(** All bytes a trace delivered, oldest first. *)
Definition bytes_read (t : list read_event) : list byte :=
  concat (map ev_bytes t).

(** ** The computation monad: state, panics, fuel *)

Definition M (R A : Type) : Type := world R -> result (world R) A.

Definition ret {R A} (a : A) : M R A := fun w => Ok a w.
Definition throw {R A} (p : panic) : M R A := fun w => Panic p w.
Definition timeout {R A} : M R A := fun _ => OutOfFuel.
Definition bind {R A B} (m : M R A) (k : A -> M R B) : M R B :=
  fun w => match m w with
           | Ok a w' => k a w'
           | Panic p w' => Panic p w'
           | OutOfFuel => OutOfFuel
           end.

Notation "'let*' x ':=' m 'in' k" := (bind m (fun x => k))
  (at level 10, x pattern, m at level 100, k at level 200).

(** [src.Read(p)], logged. *)
Definition do_read {R} `{Reader R} (len : nat)
  : M R (list byte * option error) :=
  fun w =>
    let '(bs, e, s') := Read (src w) len in
    Ok (bs, e) (World s' (trace w ++ [ReadEvent len bs e])).

(** ** io.ReadAtLeast and io.ReadFull (Go standard library)

    [
      if len(buf) < min { return 0, ErrShortBuffer }
      for n < min && err == nil {
        var nn int
        nn, err = r.Read(buf[n:])
        n += nn
      }
      if n >= min { err = nil }
      else if n > 0 && err == EOF { err = ErrUnexpectedEOF }
      return
    ]
    The buffer is passed by reference in Go; here its new contents are
    returned next to [n] and [err]. *)

Section IO.
Context {R : Type} `{Reader R}.

(** the bytes [chunk] stored at [buf[n:]] *)
Definition store (buf : list byte) (n : nat) (chunk : list byte)
  : list byte :=
  take n buf ++ take (length buf - n) chunk
    ++ drop (n + length chunk) buf.

Fixpoint ReadAtLeast_loop (fuel : nat) (buf : list byte) (n min : nat)
    (err : option error) : M R (list byte * nat * option error) :=
  if (n <? min)%nat && is_nil err then
    match fuel with
    | O => timeout
    | S fuel' =>
        let* (chunk, e) := do_read (length buf - n) in
        ReadAtLeast_loop fuel' (store buf n chunk)
          (n + length chunk) min e
    end
  else ret (buf, n, err).

Definition ReadAtLeast (fuel : nat) (buf : list byte) (min : nat)
  : M R (list byte * nat * option error) :=
  if (length buf <? min)%nat then ret (buf, 0%nat, Some ErrShortBuffer)
  else
    let* (buf', n, err) := ReadAtLeast_loop fuel buf 0 min None in
    if (min <=? n)%nat then ret (buf', n, None)
    else if (0 <? n)%nat && is_EOF err
         then ret (buf', n, Some ErrUnexpectedEOF)
         else ret (buf', n, err).

Definition ReadFull (fuel : nat) (buf : list byte)
  : M R (list byte * nat * option error) :=
  ReadAtLeast fuel buf (length buf).

End IO.

(** ** The reader-based core *)

#[global] Instance byte_inhabited : Inhabited byte := populate x00.

(** [b] read as a little endian value:
    [uint64(b[0]) | uint64(b[1])<<8 | ... | uint64(b[7])<<56] *)
Definition le_uint64 (b : list byte) : Z :=
  let at_ (i : nat) := byte_to_Z (b !!! i) in
  Z.lor (Z.lor (Z.lor (Z.lor (Z.lor (Z.lor (Z.lor
    (at_ 0%nat)
    (shl64 (at_ 1%nat) 8))
    (shl64 (at_ 2%nat) 16))
    (shl64 (at_ 3%nat) 24))
    (shl64 (at_ 4%nat) 32))
    (shl64 (at_ 5%nat) 40))
    (shl64 (at_ 6%nat) 48))
    (shl64 (at_ 7%nat) 56).

(** [bytes := (n + 7) / 8] of ReadUint64Bits *)
Definition bytes_needed (n : Z) : nat := Z.to_nat (add64 n 7 / 8).

(** [(1 << n) - 1] on [uint64] *)
Definition low_mask (n : Z) : Z := sub64 (shl64 1 n) 1.

(** [m[i]] and [m[i] = v] on a slice of ints, with Go's bounds check *)
Definition index {R} (m : list Z) (i : Z) : M R Z :=
  if (i <? 0) || (Z.of_nat (length m) <=? i)
  then throw (PanicRuntime "index out of range")
  else ret (m !!! Z.to_nat i).

Definition assign {R} (m : list Z) (i v : Z) : M R (list Z) :=
  if (i <? 0) || (Z.of_nat (length m) <=? i)
  then throw (PanicRuntime "index out of range")
  else ret (<[Z.to_nat i := v]> m).

(** [m[0:k]] *)
Definition slice_to {R} (m : list Z) (k : Z) : M R (list Z) :=
  if (k <? 0) || (Z.of_nat (length m) <? k)
  then throw (PanicRuntime "slice bounds out of range")
  else ret (take (Z.to_nat k) m).

(** The most bytes one allocation may take: [maxAlloc] of Go's runtime
    (malloc.go), [1 << 48] on the 64-bit platforms with 48 address bits
    for the heap (linux/amd64 among them). *)
Definition maxAlloc : Z := 2 ^ 48.

(** the size of an [int] in bytes *)
Definition int_size : Z := 8.

(** The check of the runtime's makeslice (slice.go) for a slice of
    [int]s whose length and capacity are at most [n]:
    [mem, overflow := math.MulUintptr(size, uintptr(n))] and then
    [overflow || mem > maxAlloc || n < 0].  A negative [n] is a [uintptr]
    of 2^63 or more, whose product with 8 overflows; for the others the
    product overflows only when it is above [maxAlloc] anyway. *)
Definition makeslice_refuses (n : Z) : bool :=
  (n <? 0) || (maxAlloc <? int_size * n).

(** [i + 1] on [int] *)
Definition int_succ (i : Z) : Z := to_int (i + 1).

(** [bits := minBytes(N-1) * 8] of ReadIntn *)
Definition intn_bits (N : Z) : Z := mul64 (minBytes (sub64 N 1)) 8.

(** [M := uint64(1 << bits); limit := M - (M-N)%N] of ReadIntn *)
Definition intn_limit (N bits : Z) : Z :=
  let M := shl64 1 bits in
  sub64 M (sub64 M N mod N).

Section Core.
Context {R : Type} `{Reader R}.

Definition ReadUint64Bits (fuel : nat) (n : Z) : M R Z :=
  if 64 <? n then
    throw (PanicString
             "abr.Uint64Bits can not return more than 64 random bits")
  else
    let bytes := bytes_needed n in
    let b := replicate 8 x00 in
    let* (buf, _, e) := ReadFull fuel (take bytes b) in
    match e with
    | Some e => throw (PanicError e)
    | None =>
        let b := buf ++ drop bytes b in
        let r := le_uint64 b in
        ret (Z.land r (low_mask n))
    end.

(** the rejection loop of ReadIntn *)
Fixpoint ReadIntn_loop (fuel : nat) (bits N limit : Z) : M R Z :=
  match fuel with
  | O => timeout
  | S fuel' =>
      let* r := ReadUint64Bits fuel' bits in
      if r <? limit then ret (to_int (r mod N))
      else ReadIntn_loop fuel' bits N limit
  end.

Definition ReadIntn (fuel : nat) (n : Z) : M R Z :=
  if n <=? 0 then throw (PanicString "invalid argument to Intn")
  else
    let N := wrap64 n in
    let bits := intn_bits N in
    if Z.land N (sub64 N 1) =? 0 then
      let* r := ReadUint64Bits fuel bits in
      ret (to_int (Z.land r (sub64 N 1)))
    else
      let limit := intn_limit N bits in
      ReadIntn_loop fuel bits N limit.

Definition ReadFloat64 (fuel : nat) : M R spec_float :=
  let* r := ReadUint64Bits fuel 53 in
  ret (Float64.div (Float64.of_uint64 r)
                   (Float64.of_uint64 (Z.shiftl 1 53))).

(** [for i := 0; i < n; i++ { ... }] of ReadPerm, entered with [i] and
    the slice [m]; [todo] bounds the iterations left. *)
Fixpoint ReadPerm_loop (fuel todo : nat) (i n : Z) (m : list Z)
  : M R (list Z) :=
  if i <? n then
    match todo with
    | O => timeout
    | S todo' =>
        let* j := ReadIntn fuel (int_succ i) in
        let* mj := index m j in
        let* m1 := assign m i mj in
        let* m2 := assign m1 j i in
        ReadPerm_loop fuel todo' (int_succ i) n m2
    end
  else ret m.

Definition ReadPerm (fuel : nat) (n : Z) : M R (list Z) :=
  if makeslice_refuses n
  then throw (PanicRuntime "makeslice: len out of range")
  else ReadPerm_loop fuel (Z.to_nat n) 0 n (replicate (Z.to_nat n) 0).

(** [for len(sample) < k { ... }] of ReadSample *)
Fixpoint ReadSample_loop (fuel : nat) (n k : Z) (sample : list Z)
    (cache : gset Z) : M R (list Z) :=
  if Z.of_nat (length sample) <? k then
    match fuel with
    | O => timeout
    | S fuel' =>
        let* r := ReadIntn fuel' n in
        if bool_decide (r ∈ cache)
        then ReadSample_loop fuel' n k sample cache
        else ReadSample_loop fuel' n k (sample ++ [r]) ({[r]} ∪ cache)
    end
  else ret sample.

Definition ReadSample (fuel : nat) (n k : Z) : M R (list Z) :=
  let k := if n <? k then n else k in
  if Z.quot n 2 <? k then
    let* m := ReadPerm fuel n in
    slice_to m k
  else if makeslice_refuses k
  then throw (PanicRuntime "makeslice: cap out of range")
  else ReadSample_loop fuel n k [] ∅.

End Core.

(** ** Readers *)

(** [bytes.Buffer]: the unread bytes are the state. *)
Definition buffer_Read (s : list byte) (len : nat)
  : list byte * option error * list byte :=
  match s with
  | [] => if (len =? 0)%nat then ([], None, s) else ([], Some EOF, s)
  | _ => (take len s, None, drop len s)
  end.

Lemma buffer_Read_le s len : (length (buffer_Read s len).1.1 <= len)%nat.
Proof.
  unfold buffer_Read. destruct s as [|b s].
  - destruct (len =? 0)%nat; simpl; lia.
  - cbn [fst]. rewrite length_take. lia.
Qed.

#[global] Instance buffer_reader : Reader (list byte) :=
  {| Read := buffer_Read; Read_le := buffer_Read_le |}.

(** A reader whose every [Read] fails. *)
Inductive broken : Type := Broken.

Definition broken_Read (s : broken) (len : nat)
  : list byte * option error * broken :=
  ([], Some (ErrSource "broken"), s).

Lemma broken_Read_le s len : (length (broken_Read s len).1.1 <= len)%nat.
Proof. simpl. lia. Qed.

#[global] Instance broken_reader : Reader broken :=
  {| Read := broken_Read; Read_le := broken_Read_le |}.

(** A fresh world around a reader. *)
Definition start {R} (s : R) : world R := World s [].

(** the value of a run, when there is one *)
Definition value {W A} (r : result W A) : option A :=
  match r with Ok a _ => Some a | _ => None end.

(** A source that never runs dry and delivers one and the same byte. *)
Record constant : Type := Constant { const_byte : byte }.

Definition constant_Read (s : constant) (len : nat)
  : list byte * option error * constant :=
  (replicate len (const_byte s), None, s).

Lemma constant_Read_le s len :
  (length (constant_Read s len).1.1 <= len)%nat.
Proof. simpl. rewrite length_replicate. lia. Qed.

#[global] Instance constant_reader : Reader constant :=
  {| Read := constant_Read; Read_le := constant_Read_le |}.

(** * Vocabulary of the statements *)

(** the [value] read from a [bytes.Buffer] holding [source] *)
Definition bits_of (source : list byte) (bits : Z) : option Z :=
  value (ReadUint64Bits 1 bits (start source)).

(** a run that did not run out of fuel *)
Definition finished {W A} (r : result W A) : Prop := r <> OutOfFuel.

Definition is_pow2 (n : Z) : Prop := exists k, 0 <= k /\ n = 2 ^ k.

(** number of binary digits of [n] *)
Definition bitlength (n : Z) : Z := if n =? 0 then 0 else Z.log2 n + 1.

(** [ceil(a / b)] *)
Definition ceil_div (a b : Z) : Z := (a + b - 1) / b.

Definition invalid_bits : panic :=
  PanicString "abr.Uint64Bits can not return more than 64 random bits".
Definition invalid_intn : panic :=
  PanicString "invalid argument to Intn".

(** [w'] is [w] after some more [Read] calls, logged as [evs] *)
Definition extends {R} (w w' : world R) (evs : list read_event) : Prop :=
  trace w' = trace w ++ evs.

(** the error the loop leaves with: that of the last [Read], if any *)
Definition last_err (err : option error) (evs : list read_event)
  : option error :=
  from_option ev_err err (last evs).

(** An error [e] reported by ReadFull stems from the last [Read]: it is
    that call's error, or ErrUnexpectedEOF standing for its EOF. *)
Definition source_error (e : error) (evs : list read_event) : Prop :=
  exists ev, last evs = Some ev
    /\ (ev_err ev = Some e \/ (ev_err ev = Some EOF /\ e = ErrUnexpectedEOF)).

(** [m[i] = m[j]; m[j] = i] for indices within the slice *)
Definition fy_step (m : list Z) (i j : Z) : list Z :=
  <[Z.to_nat j := i]> (<[Z.to_nat i := m !!! Z.to_nat j]> m).

(** the steps for [i, i+1, ...] with the draws [js] *)
Fixpoint fisher_yates (i : Z) (js : list Z) (m : list Z) : list Z :=
  match js with
  | [] => m
  | j :: js' => fisher_yates (i + 1) js' (fy_step m i j)
  end.

(** every draw of step [i] lies in [0, i] *)
Fixpoint draws_ok (i : Z) (js : list Z) : Prop :=
  match js with
  | [] => True
  | j :: js' => 0 <= j <= i /\ draws_ok (i + 1) js'
  end.

(** The draws of the loop from step [i] on: [js] are the values of the
    successive calls ReadIntn(src, i+1), ReadIntn(src, i+2), ... *)
Inductive draws {R : Type} `{Reader R} (fuel : nat)
  : world R -> Z -> list Z -> world R -> Prop :=
  | draws_nil w i : draws fuel w i [] w
  | draws_cons w i j w1 js w' :
      ReadIntn fuel (i + 1) w = Ok j w1 ->
      draws fuel w1 (i + 1) js w' ->
      draws fuel w i (j :: js) w'.

(** what the loop keeps true of [sample] and [cache] *)
Definition sample_inv (n k : Z) (sample : list Z) (cache : gset Z) : Prop :=
  NoDup sample
  /\ (forall x, x ∈ sample <-> x ∈ cache)
  /\ (forall x, x ∈ sample -> 0 <= x < n)
  /\ Z.of_nat (length sample) <= k.

(** the number a byte string holds in little endian order *)
Fixpoint le_value (bs : list byte) : Z :=
  match bs with
  | [] => 0
  | b :: bs' => byte_to_Z b + 256 * le_value bs'
  end.

(** the byte of value [z mod 256] *)
Definition byte_of_Z (z : Z) : byte :=
  default x00 (Byte.of_N (Z.to_N (z mod 256))).

(** the [k] low bytes of [v], least significant first *)
Fixpoint le_bytes (k : nat) (v : Z) : list byte :=
  match k with
  | O => []
  | S k' => byte_of_Z v :: le_bytes k' (v / 256)
  end.

(** What ReadIntn makes of one draw [r] of ReadUint64Bits: the value it
    returns, or [None] when it discards the draw and draws again. *)
Definition intn_decide (n r : Z) : option Z :=
  let N := wrap64 n in
  if Z.land N (sub64 N 1) =? 0 then Some (to_int (Z.land r (sub64 N 1)))
  else if r <? intn_limit N (intn_bits N) then Some (to_int (r mod N))
  else None.

(** how many of the draws ReadIntn does not discard *)
Definition intn_accepted (n : Z) : Z :=
  let N := wrap64 n in
  if Z.land N (sub64 N 1) =? 0 then 2 ^ intn_bits N
  else intn_limit N (intn_bits N).

(** [rs] are the values of successive calls ReadUint64Bits(src, bits)
    that lead from [w] to [w'] *)
Inductive extractions {R : Type} `{Reader R} (bits : Z)
  : world R -> list Z -> world R -> Prop :=
  | extractions_nil w : extractions bits w [] w
  | extractions_cons fuel w r w1 rs w' :
      ReadUint64Bits fuel bits w = Ok r w1 ->
      extractions bits w1 rs w' ->
      extractions bits w (r :: rs) w'.

(** a panic that carries the error of the source's last [Read] *)
Definition source_panic {R} (w w' : world R) (p : panic) : Prop :=
  exists e evs, p = PanicError e /\ extends w w' evs /\ source_error e evs.

(** what a run on a buffer of [len] unread bytes can end in: a value
    with the buffer no longer ([strict]: shorter), a panic, or a timeout
    only if the fuel was below [len + margin] *)
Definition buffer_outcome {A} (strict : bool) (margin fuel len : nat)
    (res : result (world (list byte)) A) : Prop :=
  match res with
  | Ok _ w' =>
      if strict then (length (src w') < len)%nat
      else (length (src w') <= len)%nat
  | Panic _ _ => True
  | OutOfFuel => (fuel < len + margin)%nat
  end.

(** the float ReadFloat64 makes of a draw [r]:
    [float64(r) / float64(1<<53)] *)
Definition float_of_draw (r : Z) : spec_float :=
  Float64.div (Float64.of_uint64 r) (Float64.of_uint64 (Z.shiftl 1 53)).

(** one pass of the loop of ReadSample over a draw [d] *)
Definition keep_new (sample : list Z) (d : Z) : list Z :=
  if decide (d ∈ sample) then sample else sample ++ [d].

(** the values of [ds] in the order in which they first occur *)
Definition first_occurrences (ds : list Z) : list Z :=
  foldl keep_new [] ds.

(** [ds] are the values of successive calls ReadIntn(src, n) that lead
    from [w] to [w'] *)
Inductive intn_calls {R : Type} `{Reader R} (n : Z)
  : world R -> list Z -> world R -> Prop :=
  | intn_calls_nil w : intn_calls n w [] w
  | intn_calls_cons fuel w d w1 ds w' :
      ReadIntn fuel n w = Ok d w1 ->
      intn_calls n w1 ds w' ->
      intn_calls n w (d :: ds) w'.

(** * Properties *)

(** ** Arithmetic of the machine words *)

Lemma wrap64_small z : 0 <= z < 2 ^ 64 -> wrap64 z = z.
Proof. intros Hz. unfold wrap64. apply Z.mod_small. exact Hz. Qed.

Lemma wrap64_range z : 0 <= wrap64 z < 2 ^ 64.
Proof. unfold wrap64. apply Z.mod_pos_bound. lia. Qed.

Lemma to_int_small z : 0 <= z < 2 ^ 63 -> to_int z = z.
Proof.
  intros Hz. unfold to_int. rewrite wrap64_small by lia.
  destruct (Z.ltb_spec z (2 ^ 63)); lia.
Qed.

Lemma shl64_one n : 0 <= n < 64 -> shl64 1 n = 2 ^ n.
Proof.
  intros Hn. unfold shl64. rewrite Z.shiftl_1_l.
  apply wrap64_small. split; [lia|].
  apply Z.pow_lt_mono_r; lia.
Qed.

Lemma shl64_one_64 : shl64 1 64 = 0.
Proof. reflexivity. Qed.

Lemma low_mask_ones n : 0 <= n <= 64 -> low_mask n = Z.ones n.
Proof.
  intros Hn. unfold low_mask. rewrite Z.ones_equiv.
  destruct (Z.eq_dec n 64) as [->|Hne]; [reflexivity|].
  rewrite shl64_one by lia. unfold sub64.
  assert (0 < 2 ^ n < 2 ^ 64).
  { split; [lia|]. apply Z.pow_lt_mono_r; lia. }
  rewrite wrap64_small; lia.
Qed.

Lemma byte_to_Z_range b : 0 <= byte_to_Z b < 256.
Proof.
  unfold byte_to_Z. pose proof (Byte.to_N_bounded b) as Hb. lia.
Qed.

(** ** Powers of two *)

Lemma land_pred_pow2 k : 0 <= k -> Z.land (2 ^ k) (2 ^ k - 1) = 0.
Proof.
  intros Hk. apply Z.bits_inj'. intros i Hi.
  replace (2 ^ k - 1) with (Z.ones k) by (rewrite Z.ones_equiv; lia).
  rewrite Z.land_spec, Z.bits_0.
  destruct (Z.eq_dec i k) as [->|Hne].
  - rewrite Z.ones_spec_high by lia. apply andb_false_r.
  - rewrite Z.pow2_bits_false by lia. reflexivity.
Qed.

Lemma land_pred_zero_pow2 n : 0 < n -> Z.land n (n - 1) = 0 -> is_pow2 n.
Proof.
  intros Hn Hland. exists (Z.log2 n).
  pose proof (Z.log2_nonneg n) as Hk. split; [exact Hk|].
  destruct (Z.log2_spec n Hn) as [Hlo Hhi].
  destruct (Z.eq_dec n (2 ^ Z.log2 n)) as [|Hne]; [assumption|exfalso].
  assert (Hbit : Z.testbit (Z.land n (n - 1)) (Z.log2 n) = true).
  { assert (Hl : Z.log2 (n - 1) = Z.log2 n).
    { apply Z.log2_unique; [exact Hk|].
      rewrite Z.pow_succ_r in Hhi by lia. rewrite Z.pow_succ_r by lia. lia. }
    rewrite Z.land_spec, Z.bit_log2 by lia.
    rewrite <- Hl, Z.bit_log2 by lia. reflexivity. }
  rewrite Hland, Z.bits_0 in Hbit. discriminate.
Qed.

(** The test [N&(N-1) == 0] of ReadIntn is exact on positive values. *)
Lemma pow2_test n : 0 < n -> (Z.land n (n - 1) = 0 <-> is_pow2 n).
Proof.
  intros Hn. split.
  - apply land_pred_zero_pow2. exact Hn.
  - intros (k & Hk & ->). apply land_pred_pow2. exact Hk.
Qed.

(** A positive divisor of a power of two is a power of two. *)
Lemma divide_pow2 k : 0 <= k -> forall n, 0 < n -> (n | 2 ^ k) -> is_pow2 n.
Proof.
  intros Hk. pattern k. apply natlike_ind; [| |exact Hk]; clear k Hk.
  - intros n Hn Hdiv. exists 0. split; [lia|].
    apply Z.divide_1_r_nonneg in Hdiv; lia.
  - intros k Hk IH n Hn Hdiv.
    destruct (Z.even n) eqn:Hev.
    + apply Z.even_spec in Hev. destruct Hev as [h ->].
      destruct (IH h) as (j & Hj & ->); [lia| |].
      * rewrite Z.pow_succ_r in Hdiv by lia.
        apply Z.mul_divide_cancel_l in Hdiv; [exact Hdiv|lia].
      * exists (Z.succ j). split; [lia|]. rewrite Z.pow_succ_r by lia. lia.
    + apply IH; [exact Hn|].
      rewrite Z.pow_succ_r in Hdiv by lia.
      apply Z.gauss with (m := 2); [exact Hdiv|].
      assert (Hodd : Z.odd n = true) by (rewrite <- Z.negb_even, Hev; reflexivity).
      apply Z.odd_spec in Hodd. destruct Hodd as [h ->].
      replace (2 * h + 1) with (1 + h * 2) by lia.
      rewrite Z.gcd_comm, Z.gcd_add_mult_diag_r. apply Z.gcd_1_r.
Qed.

(** ** minBytes *)

Lemma ceil_div_least a b :
  0 < b -> b * (ceil_div a b - 1) < a <= b * ceil_div a b.
Proof.
  intros Hb. unfold ceil_div.
  pose proof (Z.div_mod (a + b - 1) b) as Hdm.
  pose proof (Z.mod_pos_bound (a + b - 1) b Hb). lia.
Qed.

Ltac minBytes_cases :=
  unfold minBytes;
  repeat match goal with
         | |- context [ ?a =? ?b ] => destruct (Z.eqb_spec a b)
         | |- context [ ?a <=? ?b ] => destruct (Z.leb_spec a b)
         end.

Lemma minBytes_range n : 0 <= minBytes n <= 8.
Proof. minBytes_cases; lia. Qed.

Lemma minBytes_fits x : 0 <= x < 2 ^ 64 -> x < 2 ^ (8 * minBytes x).
Proof.
  intros Hx. minBytes_cases;
    match goal with |- _ < ?p => let v := eval vm_compute in p in change p with v end;
    lia.
Qed.

Lemma bitlength_bytes k lo hi n :
  1 <= k -> lo = 2 ^ (8 * (k - 1)) -> hi = 2 ^ (8 * k) ->
  lo <= n < hi -> ceil_div (bitlength n) 8 = k.
Proof.
  intros Hk -> -> [Hlo Hhi].
  assert (0 < n) by lia.
  unfold bitlength. destruct (Z.eqb_spec n 0); [lia|].
  assert (8 * (k - 1) <= Z.log2 n) by (apply Z.log2_le_pow2; lia).
  assert (Z.log2 n < 8 * k) by (apply Z.log2_lt_pow2; lia).
  unfold ceil_div. symmetry.
  apply Z.div_unique with (r := Z.log2 n + 1 + 8 - 1 - 8 * k); lia.
Qed.

(** C5. minBytes(n) is ceil(bitlength(n)/8) for every uint64 n, it is 0
    for 0 (and only then), it lies in 0..8, and minBytes(0x100) = 2,
    minBytes(0xff) = 1. *)
Theorem minBytes_ceil_bitlength (n : Z) :
  is_uint64 n ->
  minBytes n = ceil_div (bitlength n) 8
  /\ 0 <= minBytes n <= 8
  /\ (minBytes n = 0 <-> n = 0)
  /\ minBytes 0 = 0 /\ minBytes 0x100 = 2 /\ minBytes 0xff = 1.
Proof.
  intros [Hlo Hhi].
  split; [|split; [apply minBytes_range|split; [|repeat split]]].
  - minBytes_cases; [subst; reflexivity|symmetry..].
    + apply (bitlength_bytes 1 1 (2 ^ 8)); [lia|reflexivity..|lia].
    + apply (bitlength_bytes 2 (2 ^ 8) (2 ^ 16)); [lia|reflexivity..|lia].
    + apply (bitlength_bytes 3 (2 ^ 16) (2 ^ 24)); [lia|reflexivity..|lia].
    + apply (bitlength_bytes 4 (2 ^ 24) (2 ^ 32)); [lia|reflexivity..|lia].
    + apply (bitlength_bytes 5 (2 ^ 32) (2 ^ 40)); [lia|reflexivity..|lia].
    + apply (bitlength_bytes 6 (2 ^ 40) (2 ^ 48)); [lia|reflexivity..|lia].
    + apply (bitlength_bytes 7 (2 ^ 48) (2 ^ 56)); [lia|reflexivity..|lia].
    + apply (bitlength_bytes 8 (2 ^ 56) (2 ^ 64)); [lia|reflexivity..|lia].
  - minBytes_cases; lia.
Qed.

Lemma minBytes_ceil_bitlength_witness :
  is_uint64 0x1ff /\ minBytes 0x1ff = ceil_div (bitlength 0x1ff) 8.
Proof.
  assert (Hr : is_uint64 0x1ff) by (unfold is_uint64; lia).
  split; [exact Hr|].
  exact (proj1 (minBytes_ceil_bitlength 0x1ff Hr)).
Defined.

(** ** The rejection limit *)

Lemma wrap64_sub_l a b : wrap64 (wrap64 a - b) = wrap64 (a - b).
Proof. unfold wrap64. apply Zminus_mod_idemp_l. Qed.

(** The rearranged formula on wrapped words computes [T - T mod N] for
    the true bound [T], also when [T = 2^64] is held as 0. *)
Lemma limit_wrapped T N :
  0 < N -> N <= T <= 2 ^ 64 -> (T = 2 ^ 64 -> T mod N <> 0) ->
  sub64 (wrap64 T) (sub64 (wrap64 T) N mod N) = T - T mod N.
Proof.
  intros HN HT Hfull.
  pose proof (Z.mod_pos_bound T N HN) as Hr.
  assert (Hsub : sub64 (wrap64 T) N = T - N).
  { unfold sub64. rewrite wrap64_sub_l. apply wrap64_small. lia. }
  rewrite Hsub.
  replace ((T - N) mod N) with (T mod N).
  - unfold sub64. rewrite wrap64_sub_l. apply wrap64_small.
    destruct (Z.eq_dec T (2 ^ 64)) as [HT64|]; [specialize (Hfull HT64)|]; lia.
  - replace (T - N) with (T + (-1) * N) by lia.
    symmetry. apply Z_mod_plus_full.
Qed.

Lemma largest_multiple T N :
  0 < N -> N <= T ->
  (N | T - T mod N)
  /\ T - T mod N <= T
  /\ (forall m, (N | m) -> m <= T -> m <= T - T mod N)
  /\ T < 2 * (T - T mod N).
Proof.
  intros HN HT.
  pose proof (Z.mod_pos_bound T N HN) as Hr.
  pose proof (Z.div_mod T N ltac:(lia)) as Hdm.
  assert (Heq : T - T mod N = N * (T / N)) by lia.
  assert (1 <= T / N) by (apply Z.div_le_lower_bound; lia).
  repeat split.
  - rewrite Heq. apply Z.divide_factor_l.
  - lia.
  - intros m [q ->] Hm. rewrite Heq.
    assert (q <= T / N) by (apply Z.div_le_lower_bound; lia).
    nia.
  - nia.
Qed.

Lemma intn_bits_eq n :
  0 < n < 2 ^ 63 -> intn_bits (wrap64 n) = minBytes (n - 1) * 8.
Proof.
  intros Hn. unfold intn_bits, sub64, mul64.
  rewrite (wrap64_small n) by lia.
  rewrite (wrap64_small (n - 1)) by lia.
  pose proof (minBytes_range (n - 1)).
  apply wrap64_small. lia.
Qed.

(** C1. In the general case of ReadIntn the wrapping computation
    [limit = M - (M-N)%N], with [M = 1 << bits] held as 0 when
    bits = 64, yields the largest multiple of N not exceeding the true
    2^bits, and that limit is at least half of 2^bits: fewer than half
    of the 2^bits draws are rejected. *)
Theorem intn_limit_largest_multiple (n : Z) :
  0 < n < 2 ^ 63 -> ~ is_pow2 n ->
  let N := wrap64 n in
  let bits := intn_bits N in
  let limit := intn_limit N bits in
  N = n
  /\ bits = minBytes (n - 1) * 8
  /\ (bits = 64 -> shl64 1 bits = 0)
  /\ limit = 2 ^ bits - 2 ^ bits mod N
  /\ (N | limit)
  /\ limit <= 2 ^ bits
  /\ (forall m, (N | m) -> m <= 2 ^ bits -> m <= limit)
  /\ 2 ^ bits / 2 <= limit
  /\ 2 * (2 ^ bits - limit) < 2 ^ bits.
Proof.
  intros Hn Hnp N bits limit.
  assert (HN : N = n) by (apply wrap64_small; lia).
  assert (Hbits : bits = minBytes (n - 1) * 8) by (apply intn_bits_eq; exact Hn).
  pose proof (minBytes_range (n - 1)) as Hk.
  assert (Hfit : N <= 2 ^ bits).
  { pose proof (minBytes_fits (n - 1) ltac:(lia)) as Hf.
    rewrite Hbits, HN, Z.mul_comm. lia. }
  assert (Hle : 2 ^ bits <= 2 ^ 64) by (apply Z.pow_le_mono_r; lia).
  assert (Hfull : 2 ^ bits = 2 ^ 64 -> 2 ^ bits mod N <> 0).
  { intros -> Hz. apply Hnp. rewrite <- HN.
    apply (divide_pow2 64); [lia|lia|].
    apply Z.mod_divide; [lia|exact Hz]. }
  assert (Hlim : limit = 2 ^ bits - 2 ^ bits mod N).
  { unfold limit, intn_limit. fold bits. unfold shl64.
    rewrite Z.shiftl_1_l. apply limit_wrapped; lia. }
  destruct (largest_multiple (2 ^ bits) N ltac:(lia) Hfit)
    as (Hdiv & Hub & Hmax & Hhalf).
  rewrite <- Hlim in Hdiv, Hub, Hmax, Hhalf.
  repeat split; try assumption; try lia.
  - intros ->. apply shl64_one_64.
  - apply Z.div_le_upper_bound; lia.
Qed.

(** the bound of the test TestInt64Overflow: N = 0x7fffffffffffffff *)
Lemma intn_limit_largest_multiple_witness :
  intn_limit 0x7fffffffffffffff 64 = 2 * 0x7fffffffffffffff
  /\ (0x7fffffffffffffff | intn_limit 0x7fffffffffffffff 64).
Proof.
  assert (Hr : 0 < 0x7fffffffffffffff < 2 ^ 63) by lia.
  assert (Hnp : ~ is_pow2 0x7fffffffffffffff).
  { intros (k & Hk & Heq).
    assert (Hodd : Z.odd (2 ^ k) = true) by (rewrite <- Heq; reflexivity).
    destruct (Z.eq_dec k 0) as [->|]; [discriminate Heq|].
    replace k with (Z.succ (k - 1)) in Hodd by lia.
    rewrite Z.pow_succ_r, Z.odd_mul in Hodd by lia. discriminate Hodd. }
  pose proof (intn_limit_largest_multiple _ Hr Hnp) as HC.
  cbv zeta in HC.
  split; [reflexivity|].
  exact (proj1 (proj2 (proj2 (proj2 (proj2 HC))))).
Defined.

(** ** Runs of the monad *)

Lemma bind_Ok {R A B} (m : M R A) (k : A -> M R B) w b w' :
  bind m k w = Ok b w' ->
  exists a w1, m w = Ok a w1 /\ k a w1 = Ok b w'.
Proof.
  unfold bind. destruct (m w) as [a w1| |]; [|discriminate..].
  intros Hk. exists a, w1. split; [reflexivity|exact Hk].
Qed.

Lemma bind_Panic {R A B} (m : M R A) (k : A -> M R B) w p w' :
  bind m k w = Panic p w' ->
  m w = Panic p w' \/ exists a w1, m w = Ok a w1 /\ k a w1 = Panic p w'.
Proof.
  unfold bind. destruct (m w) as [a w1|q w1|]; [| |discriminate].
  - intros Hk. right. exists a, w1. split; [reflexivity|exact Hk].
  - intros [= -> ->]. left. reflexivity.
Qed.

Lemma extends_refl {R} (w : world R) : extends w w [].
Proof. unfold extends. rewrite app_nil_r. reflexivity. Qed.

Lemma extends_trans {R} (w1 w2 w3 : world R) e1 e2 :
  extends w1 w2 e1 -> extends w2 w3 e2 -> extends w1 w3 (e1 ++ e2).
Proof.
  unfold extends. intros H1 H2. rewrite H2, H1, app_assoc. reflexivity.
Qed.

Lemma bytes_read_app t1 t2 :
  bytes_read (t1 ++ t2) = bytes_read t1 ++ bytes_read t2.
Proof. unfold bytes_read. rewrite map_app, concat_app. reflexivity. Qed.

(** ** io.ReadFull *)

Section IOFacts.
Context {R : Type} `{Reader R}.

Lemma ReadAtLeast_loop_eq fuel buf n min err :
  ReadAtLeast_loop fuel buf n min err =
  if (n <? min)%nat && is_nil err then
    match fuel with
    | O => timeout
    | S fuel' =>
        let* (chunk, e) := do_read (length buf - n) in
        ReadAtLeast_loop fuel' (store buf n chunk) (n + length chunk) min e
    end
  else ret (buf, n, err).
Proof. destruct fuel; reflexivity. Qed.

Lemma length_store buf n chunk :
  (n + length chunk <= length buf)%nat ->
  length (store buf n chunk) = length buf.
Proof.
  intros Hle. unfold store.
  rewrite !length_app, !length_take, length_drop. lia.
Qed.

Lemma ReadAtLeast_loop_Ok fuel :
  forall buf n min err (w : world R) buf' n' err' w',
    (n <= length buf)%nat ->
    ReadAtLeast_loop fuel buf n min err w = Ok (buf', n', err') w' ->
    exists evs,
      extends w w' evs
      /\ n' = (n + length (bytes_read evs))%nat
      /\ (n' <= length buf)%nat
      /\ length buf' = length buf
      /\ (n' <? min)%nat && is_nil err' = false
      /\ err' = last_err err evs.
Proof.
  induction fuel as [|fuel IH]; intros buf n min err w buf' n' err' w' Hn;
    rewrite ReadAtLeast_loop_eq;
    destruct ((n <? min)%nat && is_nil err) eqn:Hc;
    try discriminate.
  - intros [= <- <- <- <-]. exists []. unfold bytes_read; simpl.
    repeat split; [apply extends_refl|lia|exact Hn|exact Hc].
  - unfold bind, do_read.
    destruct (Read (src w) (length buf - n)) as [[chunk e] s'] eqn:HR.
    pose proof (Read_le (src w) (length buf - n)) as Hlen.
    rewrite HR in Hlen. simpl in Hlen.
    intros Hrec. apply IH in Hrec;
      [|rewrite length_store by lia; lia].
    destruct Hrec as (evs & Hext & Hn' & Hle & Hlb & Hexit & Herr).
    rewrite length_store in Hle, Hlb by lia.
    exists (ReadEvent (length buf - n) chunk e :: evs).
    repeat split; try assumption.
    + unfold extends in *. simpl in Hext. rewrite Hext, <- app_assoc.
      reflexivity.
    + unfold bytes_read in *. simpl. rewrite length_app. lia.
    + rewrite Herr. unfold last_err. rewrite last_cons.
      destruct (last evs); reflexivity.
  - intros [= <- <- <- <-]. exists []. unfold bytes_read; simpl.
    repeat split; [apply extends_refl|lia|exact Hn|exact Hc].
Qed.

Lemma ReadAtLeast_loop_no_panic fuel :
  forall buf n min err (w : world R) p w',
    ReadAtLeast_loop fuel buf n min err w <> Panic p w'.
Proof.
  induction fuel as [|fuel IH]; intros buf n min err w p w';
    rewrite ReadAtLeast_loop_eq;
    destruct ((n <? min)%nat && is_nil err); try discriminate.
  unfold bind, do_read.
  destruct (Read (src w) (length buf - n)) as [[chunk e] s'].
  apply IH.
Qed.

Lemma ReadFull_Ok fuel buf (w : world R) buf' n err w' :
  ReadFull fuel buf w = Ok (buf', n, err) w' ->
  exists evs,
    extends w w' evs
    /\ length buf' = length buf
    /\ match err with
       | None => length (bytes_read evs) = length buf
       | Some e => source_error e evs
       end.
Proof.
  unfold ReadFull, ReadAtLeast. rewrite Nat.ltb_irrefl.
  intros Hb. apply bind_Ok in Hb.
  destruct Hb as ([[b1 n1] e1] & w1 & Hloop & Hret).
  apply ReadAtLeast_loop_Ok in Hloop; [|lia].
  destruct Hloop as (evs & Hext & Hn1 & Hle & Hlb & Hexit & Herr).
  exists evs. simpl in Hn1.
  destruct (Nat.leb_spec (length buf) n1) as [Hge|Hlt].
  - injection Hret as <- <- <- <-. repeat split; try assumption. lia.
  - assert (Hne : is_nil e1 = false).
    { destruct (Nat.ltb_spec n1 (length buf)); [exact Hexit|lia]. }
    assert (Hsrc : exists ev, last evs = Some ev /\ ev_err ev = e1).
    { unfold last_err in Herr. destruct (last evs) as [ev|].
      - exists ev. split; [reflexivity|]. symmetry. exact Herr.
      - simpl in Herr. subst e1. discriminate Hne. }
    destruct Hsrc as (ev & Hlast & Hev).
    destruct ((0 <? n1)%nat && is_EOF e1) eqn:Heof.
    + injection Hret as <- <- <- <-. repeat split; try assumption.
      exists ev. split; [exact Hlast|]. right. split; [|reflexivity].
      rewrite Hev. apply andb_true_iff in Heof. destruct Heof as [_ Heof].
      destruct e1 as [[]|]; try discriminate Heof. reflexivity.
    + injection Hret as <- <- <- <-. repeat split; try assumption.
      destruct e1 as [e1|]; [|discriminate Hne].
      exists ev. split; [exact Hlast|]. left. exact Hev.
Qed.

Lemma ReadFull_no_panic fuel buf (w : world R) p w' :
  ReadFull fuel buf w <> Panic p w'.
Proof.
  unfold ReadFull, ReadAtLeast. rewrite Nat.ltb_irrefl.
  intros Hb. apply bind_Panic in Hb.
  destruct Hb as [Hb|([[b1 n1] e1] & w1 & _ & Hret)].
  - exact (ReadAtLeast_loop_no_panic _ _ _ _ _ _ _ _ Hb).
  - destruct (length buf <=? n1)%nat; [discriminate|].
    destruct ((0 <? n1)%nat && is_EOF e1); discriminate.
Qed.

(** Filling an empty slice succeeds without a single [Read]. *)
Lemma ReadFull_nil fuel (w : world R) :
  ReadFull fuel [] w = Ok ([], 0%nat, None) w.
Proof. destruct fuel; reflexivity. Qed.

End IOFacts.

(** ** ReadUint64Bits *)

Lemma lor_range k a b :
  0 <= k -> 0 <= a < 2 ^ k -> 0 <= b < 2 ^ k -> 0 <= Z.lor a b < 2 ^ k.
Proof.
  intros Hk Ha Hb.
  assert (Heq : Z.lor a b = Z.lor a b mod 2 ^ k).
  { rewrite <- Z.land_ones, Z.land_lor_distr_l, !Z.land_ones by exact Hk.
    rewrite !Z.mod_small by assumption. reflexivity. }
  rewrite Heq. apply Z.mod_pos_bound. lia.
Qed.

Lemma le_uint64_range b : 0 <= le_uint64 b < 2 ^ 64.
Proof.
  unfold le_uint64.
  repeat (apply lor_range; [lia| |]);
    try (unfold shl64; apply wrap64_range).
  pose proof (byte_to_Z_range (b !!! 0%nat)). lia.
Qed.

Lemma masked_range r n :
  0 <= n <= 64 ->
  0 <= Z.land r (low_mask n) < 2 ^ n
  /\ forall i, n <= i -> Z.testbit (Z.land r (low_mask n)) i = false.
Proof.
  intros Hn. rewrite low_mask_ones by exact Hn. split.
  - rewrite Z.land_ones by lia. apply Z.mod_pos_bound. lia.
  - intros i Hi. rewrite Z.land_spec, Z.ones_spec_high by lia.
    apply andb_false_r.
Qed.

Section BitsFacts.
Context {R : Type} `{Reader R}.

Lemma ReadUint64Bits_invalid fuel n (w : world R) :
  64 < n -> ReadUint64Bits fuel n w = Panic invalid_bits w.
Proof.
  intros Hn. unfold ReadUint64Bits.
  destruct (Z.ltb_spec 64 n); [reflexivity|lia].
Qed.

Lemma ReadUint64Bits_Ok fuel n (w : world R) r w' :
  ReadUint64Bits fuel n w = Ok r w' ->
  n <= 64
  /\ exists buf k evs,
      ReadFull fuel (take (bytes_needed n) (replicate 8 x00)) w
        = Ok (buf, k, None) w'
      /\ r = Z.land
               (le_uint64 (buf ++ drop (bytes_needed n) (replicate 8 x00)))
               (low_mask n)
      /\ extends w w' evs
      /\ length (bytes_read evs)
         = length (take (bytes_needed n) (replicate 8 x00)).
Proof.
  unfold ReadUint64Bits.
  destruct (Z.ltb_spec 64 n) as [|Hle]; [discriminate|].
  intros Hb. split; [exact Hle|].
  apply bind_Ok in Hb. destruct Hb as ([[buf k] e] & w1 & Hfull & Hret).
  destruct e as [e|]; [discriminate|].
  injection Hret as <- <-.
  destruct (ReadFull_Ok _ _ _ _ _ _ _ Hfull) as (evs & Hext & _ & Hlen).
  exists buf, k, evs. repeat split; assumption.
Qed.

Lemma ReadUint64Bits_Panic fuel n (w : world R) p w' :
  ReadUint64Bits fuel n w = Panic p w' ->
  (64 < n /\ p = invalid_bits /\ w' = w)
  \/ (n <= 64 /\ exists e evs,
         p = PanicError e /\ extends w w' evs /\ source_error e evs).
Proof.
  unfold ReadUint64Bits.
  destruct (Z.ltb_spec 64 n) as [Hgt|Hle].
  - intros [= <- <-]. left. repeat split. exact Hgt.
  - intros Hb. right. split; [exact Hle|].
    apply bind_Panic in Hb.
    destruct Hb as [Hb|([[buf k] e] & w1 & Hfull & Hret)].
    + exfalso. exact (ReadFull_no_panic _ _ _ _ _ Hb).
    + destruct e as [e|]; [|discriminate].
      injection Hret as <- <-.
      destruct (ReadFull_Ok _ _ _ _ _ _ _ Hfull) as (evs & Hext & _ & Hsrc).
      exists e, evs. repeat split; assumption.
Qed.

Lemma bytes_needed_eq n :
  0 <= n <= 64 -> Z.of_nat (bytes_needed n) = (n + 7) / 8.
Proof.
  intros Hn. unfold bytes_needed, add64.
  rewrite wrap64_small by lia.
  rewrite Z2Nat.id; [reflexivity|]. apply Z.div_pos; lia.
Qed.

(** A successful extraction takes exactly [ceil(n/8)] bytes. *)
Lemma ReadUint64Bits_consumes fuel n (w : world R) r w' :
  0 <= n -> ReadUint64Bits fuel n w = Ok r w' ->
  exists evs, extends w w' evs
    /\ Z.of_nat (length (bytes_read evs)) = (n + 7) / 8.
Proof.
  intros Hn Hok. apply ReadUint64Bits_Ok in Hok.
  destruct Hok as (Hle & buf & k & evs & _ & _ & Hext & Hlen).
  exists evs. split; [exact Hext|].
  rewrite Hlen, length_take, length_replicate.
  rewrite <- bytes_needed_eq by lia.
  assert ((n + 7) / 8 < 9).
  { apply Z.div_lt_upper_bound; lia. }
  pose proof (bytes_needed_eq n ltac:(lia)). lia.
Qed.

End BitsFacts.

(** C3. For n in [0, 64] the value ReadUint64Bits returns has no bit set
    at a position >= n (it is below 2^n).  The mask computed for n = 64
    is all ones, so then the assembled 64-bit value comes back as it
    is. *)
Theorem ReadUint64Bits_high_bits_zero {R : Type} `{Reader R}
    (fuel : nat) (n : Z) (w w' : world R) (r : Z) :
  0 <= n <= 64 ->
  ReadUint64Bits fuel n w = Ok r w' ->
  (forall i, n <= i -> Z.testbit r i = false)
  /\ 0 <= r < 2 ^ n
  /\ low_mask 64 = 2 ^ 64 - 1
  /\ (n = 64 ->
      exists buf k,
        ReadFull fuel (replicate 8 x00) w = Ok (buf, k, None) w'
        /\ r = le_uint64 buf).
Proof.
  intros Hn Hok. apply ReadUint64Bits_Ok in Hok.
  destruct Hok as (_ & buf & k & evs & Hfull & -> & _ & _).
  destruct (masked_range
              (le_uint64 (buf ++ drop (bytes_needed n) (replicate 8 x00)))
              n Hn) as [Hrange Hbits].
  repeat split; try apply Hbits; try apply Hrange.
  intros ->. exists buf, k. split; [exact Hfull|].
  change (drop (bytes_needed 64) (replicate 8 x00)) with (@nil byte).
  rewrite app_nil_r, low_mask_ones, Z.land_ones by lia.
  apply Z.mod_small. apply le_uint64_range.
Qed.

(** TestUint64BitsMask: nine bits out of a source of 0xff bytes *)
Lemma ReadUint64Bits_high_bits_zero_witness :
  ReadUint64Bits 4 9 (start [xff; xff; xff]) = Ok 0x1ff (World [xff]
    [ReadEvent 2 [xff; xff] None])
  /\ forall i, 9 <= i -> Z.testbit 0x1ff i = false.
Proof.
  assert (Hrun : ReadUint64Bits 4 9 (start [xff; xff; xff])
                 = Ok 0x1ff (World [xff] [ReadEvent 2 [xff; xff] None]))
    by reflexivity.
  split; [exact Hrun|].
  exact (proj1 (ReadUint64Bits_high_bits_zero 4 9 _ _ _ ltac:(lia) Hrun)).
Defined.

(** ** ReadIntn *)

Lemma intn_bits_range N : 0 <= intn_bits N <= 64.
Proof.
  unfold intn_bits, mul64.
  pose proof (minBytes_range (sub64 N 1)).
  rewrite wrap64_small; lia.
Qed.

Lemma land_pred_range r n :
  0 < n -> Z.land n (n - 1) = 0 -> 0 <= Z.land r (n - 1) < n.
Proof.
  intros Hn Hland.
  destruct (land_pred_zero_pow2 n Hn Hland) as (k & Hk & ->).
  replace (2 ^ k - 1) with (Z.ones k) by (rewrite Z.ones_equiv; lia).
  rewrite Z.land_ones by exact Hk. apply Z.mod_pos_bound. lia.
Qed.

Section IntnFacts.
Context {R : Type} `{Reader R}.

Lemma ReadIntn_invalid fuel n (w : world R) :
  n <= 0 -> ReadIntn fuel n w = Panic invalid_intn w.
Proof.
  intros Hn. unfold ReadIntn.
  destruct (Z.leb_spec n 0); [reflexivity|lia].
Qed.

Lemma ReadIntn_eq fuel n (w : world R) :
  0 < n < 2 ^ 63 ->
  ReadIntn fuel n w =
  if Z.land n (n - 1) =? 0 then
    (let* r := ReadUint64Bits fuel (minBytes (n - 1) * 8) in
     ret (to_int (Z.land r (n - 1)))) w
  else
    ReadIntn_loop fuel (minBytes (n - 1) * 8) n
      (intn_limit n (minBytes (n - 1) * 8)) w.
Proof.
  intros Hn. unfold ReadIntn.
  destruct (Z.leb_spec n 0); [lia|].
  rewrite intn_bits_eq by exact Hn.
  rewrite (wrap64_small n) by lia.
  unfold sub64. rewrite (wrap64_small (n - 1)) by lia.
  destruct (Z.land n (n - 1) =? 0); reflexivity.
Qed.

Lemma ReadIntn_loop_Ok fuel :
  forall bits N limit (w : world R) v w',
    ReadIntn_loop fuel bits N limit w = Ok v w' ->
    exists r, v = to_int (r mod N) /\ r < limit.
Proof.
  induction fuel as [|fuel IH]; intros bits N limit w v w'; simpl;
    [discriminate|].
  intros Hb. apply bind_Ok in Hb. destruct Hb as (r & w1 & _ & Hk).
  destruct (Z.ltb_spec r limit) as [Hlt|].
  - injection Hk as <- <-. exists r. split; [reflexivity|exact Hlt].
  - apply IH in Hk. exact Hk.
Qed.

Lemma ReadIntn_loop_Panic fuel :
  forall bits N limit (w : world R) p w',
    0 <= bits <= 64 ->
    ReadIntn_loop fuel bits N limit w = Panic p w' ->
    exists e evs, p = PanicError e /\ extends w w' (evs)
                  /\ source_error e evs.
Proof.
  induction fuel as [|fuel IH]; intros bits N limit w p w' Hbits; simpl;
    [discriminate|].
  intros Hb. apply bind_Panic in Hb.
  destruct Hb as [Hb|(r & w1 & Hdraw & Hk)].
  - apply ReadUint64Bits_Panic in Hb.
    destruct Hb as [(Hgt & _)|(_ & Hsrc)]; [lia|exact Hsrc].
  - destruct (Z.ltb_spec r limit); [discriminate|].
    apply IH in Hk; [|exact Hbits].
    destruct Hk as (e & evs & -> & Hext & Hsrc).
    apply ReadUint64Bits_consumes in Hdraw; [|lia].
    destruct Hdraw as (evs0 & Hext0 & _).
    exists e, (evs0 ++ evs). repeat split.
    + exact (extends_trans _ _ _ _ _ Hext0 Hext).
    + destruct Hsrc as (ev & Hlast & Hev). exists ev.
      split; [|exact Hev].
      rewrite last_app, Hlast. reflexivity.
Qed.

(** Every value ReadIntn returns lies in [0, n). *)
Lemma ReadIntn_range fuel n (w : world R) v w' :
  0 < n < 2 ^ 63 -> ReadIntn fuel n w = Ok v w' -> 0 <= v < n.
Proof.
  intros Hn. rewrite ReadIntn_eq by exact Hn.
  destruct (Z.eqb_spec (Z.land n (n - 1)) 0) as [Hp|Hnp].
  - intros Hb. apply bind_Ok in Hb. destruct Hb as (r & w1 & _ & Hret).
    injection Hret as <- <-.
    pose proof (land_pred_range r n ltac:(lia) Hp).
    rewrite to_int_small; lia.
  - intros Hl. apply ReadIntn_loop_Ok in Hl. destruct Hl as (r & -> & _).
    pose proof (Z.mod_pos_bound r n ltac:(lia)).
    rewrite to_int_small; lia.
Qed.

Lemma ReadIntn_Panic fuel n (w : world R) p w' :
  ReadIntn fuel n w = Panic p w' ->
  (n <= 0 /\ p = invalid_intn /\ w' = w)
  \/ (0 < n /\ exists e evs,
         p = PanicError e /\ extends w w' evs /\ source_error e evs).
Proof.
  unfold ReadIntn. destruct (Z.leb_spec n 0) as [Hle|Hgt].
  - intros [= <- <-]. left. repeat split. exact Hle.
  - intros Hp. right. split; [exact Hgt|].
    pose proof (intn_bits_range (wrap64 n)) as Hbits.
    destruct (Z.land (wrap64 n) (sub64 (wrap64 n) 1) =? 0).
    + apply bind_Panic in Hp. destruct Hp as [Hp|(r & w1 & _ & Hret)];
        [|discriminate].
      apply ReadUint64Bits_Panic in Hp.
      destruct Hp as [(Hbad & _)|(_ & Hsrc)]; [lia|exact Hsrc].
    + apply ReadIntn_loop_Panic in Hp; assumption.
Qed.

End IntnFacts.

(** C2. Whatever the source, a value returned by ReadIntn(src, n) with
    n > 0 is in [0, n): not negative and below n, on the power-of-two
    path and on the rejection path. *)
Theorem ReadIntn_in_range {R : Type} `{Reader R}
    (fuel : nat) (n : Z) (w w' : world R) (v : Z) :
  is_int n -> 0 < n ->
  ReadIntn fuel n w = Ok v w' ->
  0 <= v < n.
Proof.
  intros [_ Hhi] Hpos. apply ReadIntn_range. lia.
Qed.

(** the example of the source comment: N = 65, limit = 195; the byte
    0xff is rejected, 0xc3 = 195 is rejected, 0xc2 = 194 gives 64 *)
Lemma ReadIntn_in_range_witness :
  ReadIntn 4 65 (start [xff; xc3; xc2; x05]) = Ok 64 (World [x05]
    [ReadEvent 1 [xff] None; ReadEvent 1 [xc3] None;
     ReadEvent 1 [xc2] None])
  /\ 0 <= 64 < 65.
Proof.
  assert (Hrun : ReadIntn 4 65 (start [xff; xc3; xc2; x05])
                 = Ok 64 (World [x05]
                     [ReadEvent 1 [xff] None; ReadEvent 1 [xc3] None;
                      ReadEvent 1 [xc2] None])) by reflexivity.
  split; [exact Hrun|].
  assert (Hint : is_int 65) by (unfold is_int; lia).
  exact (ReadIntn_in_range 4 65 _ _ 64 Hint ltac:(lia) Hrun).
Defined.

(** C4. For a power of two n > 0 the test [N&(N-1) == 0] holds and
    ReadIntn(src, n) is one ReadUint64Bits(src, minBytes(n-1)*8) whose
    value is masked with n-1: the rejection loop is not entered, and a
    run that returns has taken exactly minBytes(n-1) bytes from the
    source. *)
Theorem ReadIntn_pow2_single_extraction {R : Type} `{Reader R}
    (fuel : nat) (n : Z) (w : world R) :
  is_int n -> 0 < n -> is_pow2 n ->
  Z.land n (n - 1) = 0
  /\ ReadIntn fuel n w
     = (let* r := ReadUint64Bits fuel (minBytes (n - 1) * 8) in
        ret (Z.land r (n - 1))) w
  /\ (forall v w',
        ReadIntn fuel n w = Ok v w' ->
        exists evs,
          extends w w' evs
          /\ Z.of_nat (length (bytes_read evs)) = minBytes (n - 1)).
Proof.
  intros [_ Hhi] Hpos Hpow.
  assert (Hland : Z.land n (n - 1) = 0) by (apply pow2_test; assumption).
  assert (Heq : ReadIntn fuel n w
     = (let* r := ReadUint64Bits fuel (minBytes (n - 1) * 8) in
        ret (Z.land r (n - 1))) w).
  { rewrite ReadIntn_eq by lia. rewrite Hland. simpl. unfold bind.
    destruct (ReadUint64Bits fuel (minBytes (n - 1) * 8) w) as [r w1| |];
      try reflexivity.
    unfold ret. f_equal. apply to_int_small.
    pose proof (land_pred_range r n Hpos Hland). lia. }
  split; [exact Hland|]. split; [exact Heq|].
  intros v w'. rewrite Heq. intros Hb.
  apply bind_Ok in Hb. destruct Hb as (r & w1 & Hdraw & Hret).
  injection Hret as _ <-.
  pose proof (minBytes_range (n - 1)) as Hk.
  apply ReadUint64Bits_consumes in Hdraw; [|lia].
  destruct Hdraw as (evs & Hext & Hlen).
  exists evs. split; [exact Hext|]. rewrite Hlen.
  symmetry. apply Z.div_unique with (r := 7); lia.
Qed.

Lemma ReadIntn_pow2_single_extraction_witness :
  ReadIntn 2 4 (start [xff; x01])
  = Ok 3 (World [x01] [ReadEvent 1 [xff] None])
  /\ ReadIntn 2 4 (start [xff; x01])
     = (let* r := ReadUint64Bits 2 (minBytes (4 - 1) * 8) in
        ret (Z.land r (4 - 1))) (start [xff; x01]).
Proof.
  split; [reflexivity|].
  assert (Hint : is_int 4) by (unfold is_int; lia).
  assert (Hpow : is_pow2 4) by (exists 2; split; [lia|reflexivity]).
  exact (proj1 (proj2 (ReadIntn_pow2_single_extraction 2 4
                         (start [xff; x01]) Hint ltac:(lia) Hpow))).
Defined.

(** C8. ReadUint64Bits panics with its invalid-argument message exactly
    when n > 64, ReadIntn with its own exactly when n <= 0; in both the
    panic leaves the source and its trace as they were (no [Read] has
    been made); every other panic carries the error ReadFull got from
    the source's last [Read]. *)
Theorem invalid_argument_exactly {R : Type} `{Reader R}
    (fuel : nat) (w : world R) (n : Z) :
  ((exists w', ReadUint64Bits fuel n w = Panic invalid_bits w') <-> 64 < n)
  /\ (64 < n -> ReadUint64Bits fuel n w = Panic invalid_bits w)
  /\ (forall p w',
        ReadUint64Bits fuel n w = Panic p w' -> p <> invalid_bits ->
        exists e evs,
          p = PanicError e /\ extends w w' evs /\ source_error e evs)
  /\ ((exists w', ReadIntn fuel n w = Panic invalid_intn w') <-> n <= 0)
  /\ (n <= 0 -> ReadIntn fuel n w = Panic invalid_intn w)
  /\ (forall p w',
        ReadIntn fuel n w = Panic p w' -> p <> invalid_intn ->
        exists e evs,
          p = PanicError e /\ extends w w' evs /\ source_error e evs).
Proof.
  split; [|split; [|split; [|split; [|split]]]].
  - split.
    + intros [w' Hp]. apply ReadUint64Bits_Panic in Hp.
      destruct Hp as [(Hgt & _)|(_ & e & evs & Habs & _)];
        [exact Hgt|discriminate Habs].
    + intros Hgt. exists w. apply ReadUint64Bits_invalid. exact Hgt.
  - apply ReadUint64Bits_invalid.
  - intros p w' Hp Hne. apply ReadUint64Bits_Panic in Hp.
    destruct Hp as [(_ & Heq & _)|(_ & Hsrc)]; [contradiction|exact Hsrc].
  - split.
    + intros [w' Hp]. apply ReadIntn_Panic in Hp.
      destruct Hp as [(Hle & _)|(_ & e & evs & Habs & _)];
        [exact Hle|discriminate Habs].
    + intros Hle. exists w. apply ReadIntn_invalid. exact Hle.
  - apply ReadIntn_invalid.
  - intros p w' Hp Hne. apply ReadIntn_Panic in Hp.
    destruct Hp as [(_ & Heq & _)|(_ & Hsrc)]; [contradiction|exact Hsrc].
Qed.

(** TestUint64BitsSourceError and TestIntnPanics on an empty buffer *)
Example panics_on_empty_buffer :
  ReadUint64Bits 2 8 (start [])
  = Panic (PanicError EOF) (World [] [ReadEvent 1 [] (Some EOF)])
  /\ ReadUint64Bits 2 16 (start [x12])
     = Panic (PanicError ErrUnexpectedEOF)
         (World [] [ReadEvent 2 [x12] None; ReadEvent 1 [] (Some EOF)])
  /\ ReadUint64Bits 2 65 (start [x12]) = Panic invalid_bits (start [x12])
  /\ ReadIntn 2 0 (start [x12]) = Panic invalid_intn (start [x12])
  /\ ReadIntn 2 (-1) (start [x12]) = Panic invalid_intn (start [x12]).
Proof. repeat split. Qed.

(** C10. ReadIntn(src, 1) returns 0 for every source and any fuel, and
    leaves the source and its trace untouched: bits is 0, and ReadFull
    on the empty slice makes no [Read]. *)
Theorem ReadIntn_one {R : Type} `{Reader R} (fuel : nat) (w : world R) :
  intn_bits 1 = 0
  /\ bytes_needed 0 = 0%nat
  /\ ReadUint64Bits fuel 0 w = Ok 0 w
  /\ ReadIntn fuel 1 w = Ok 0 w.
Proof.
  assert (Hbits : ReadUint64Bits fuel 0 w = Ok 0 w).
  { unfold ReadUint64Bits. simpl. unfold bind.
    rewrite ReadFull_nil. reflexivity. }
  repeat split; try exact Hbits.
  unfold ReadIntn. simpl. unfold bind.
  change (intn_bits (wrap64 1)) with 0. rewrite Hbits. reflexivity.
Qed.

Example ReadIntn_one_empty_and_broken :
  ReadIntn 0 1 (start (@nil byte)) = Ok 0 (start [])
  /\ ReadIntn 0 1 (start Broken) = Ok 0 (start Broken)
  /\ ReadIntn 5 2 (start Broken)
     = Panic (PanicError (ErrSource "broken"))
         (World Broken [ReadEvent 1 [] (Some (ErrSource "broken"))]).
Proof. repeat split. Qed.

(** ** The Fisher-Yates steps of ReadPerm *)

Lemma insert_snoc_perm (l : list Z) j x y :
  l !! j = Some x -> <[j := y]> l ++ [x] ≡ₚ l ++ [y].
Proof.
  intros Hj. pose proof (lookup_lt_Some _ _ _ Hj) as Hlt.
  rewrite insert_take_drop by exact Hlt.
  rewrite <- (take_drop_middle l j x Hj) at 3.
  rewrite <- !app_assoc. apply Permutation_app_head. simpl.
  rewrite (Permutation_app_comm (drop (S j) l) [x]).
  rewrite (Permutation_app_comm (drop (S j) l) [y]).
  simpl. apply perm_swap.
Qed.

Lemma length_fy_step m i j : length (fy_step m i j) = length m.
Proof. unfold fy_step. rewrite !length_insert. reflexivity. Qed.

Lemma fy_step_perm (m : list Z) i j :
  0 <= j <= i -> (Z.to_nat i < length m)%nat ->
  take (Z.to_nat i) m ≡ₚ seqZ 0 i ->
  take (Z.to_nat (i + 1)) (fy_step m i j) ≡ₚ seqZ 0 (i + 1).
Proof.
  intros Hj Hi Hperm.
  rewrite seqZ_app by lia. change (seqZ (0 + i) 1) with [i].
  replace (Z.to_nat (i + 1)) with (S (Z.to_nat i)) by lia.
  unfold fy_step.
  destruct (Z.eq_dec j i) as [->|Hne].
  - rewrite list_insert_insert_eq.
    rewrite (take_S_r _ _ i) by (apply list_lookup_insert_eq; exact Hi).
    rewrite take_insert_ge by lia. rewrite Hperm. reflexivity.
  - assert (Hjl : (Z.to_nat j < Z.to_nat i)%nat) by lia.
    assert (Hx : m !! Z.to_nat j = Some (m !!! Z.to_nat j)).
    { apply list_lookup_lookup_total_lt. lia. }
    rewrite (take_S_r _ _ (m !!! Z.to_nat j)).
    + rewrite take_insert_lt by lia. rewrite take_insert_ge by lia.
      rewrite insert_snoc_perm.
      * rewrite Hperm. reflexivity.
      * rewrite lookup_take_lt by lia. exact Hx.
    + rewrite list_lookup_insert_ne by lia.
      apply list_lookup_insert_eq. exact Hi.
Qed.

Lemma fisher_yates_perm js :
  forall i (m : list Z),
    0 <= i -> draws_ok i js ->
    (Z.to_nat i + length js <= length m)%nat ->
    take (Z.to_nat i) m ≡ₚ seqZ 0 i ->
    length (fisher_yates i js m) = length m
    /\ take (Z.to_nat i + length js) (fisher_yates i js m)
       ≡ₚ seqZ 0 (i + Z.of_nat (length js)).
Proof.
  induction js as [|j js IH]; intros i m Hi Hok Hlen Hperm; simpl in *.
  - rewrite Nat.add_0_r, Z.add_0_r. split; [reflexivity|exact Hperm].
  - destruct Hok as [Hj Hok].
    destruct (IH (i + 1) (fy_step m i j)) as [Hl Hp].
    + lia.
    + exact Hok.
    + rewrite length_fy_step. lia.
    + apply fy_step_perm; [exact Hj|lia|exact Hperm].
    + rewrite length_fy_step in Hl. split; [exact Hl|].
      replace (Z.to_nat i + S (length js))%nat
        with (Z.to_nat (i + 1) + length js)%nat by lia.
      replace (i + Z.of_nat (S (length js)))
        with (i + 1 + Z.of_nat (length js)) by lia.
      exact Hp.
Qed.

(** ** ReadPerm *)

Lemma makeslice_refuses_true n :
  makeslice_refuses n = true <-> n < 0 \/ maxAlloc < int_size * n.
Proof.
  unfold makeslice_refuses.
  destruct (Z.ltb_spec n 0), (Z.ltb_spec maxAlloc (int_size * n));
    simpl; split; intros; try discriminate; try reflexivity; lia.
Qed.

Lemma makeslice_refuses_false n :
  makeslice_refuses n = false <-> 0 <= n /\ int_size * n <= maxAlloc.
Proof.
  unfold makeslice_refuses.
  destruct (Z.ltb_spec n 0), (Z.ltb_spec maxAlloc (int_size * n));
    simpl; split; intros; try discriminate; try reflexivity; lia.
Qed.

(** a size that makeslice accepts is far below the largest [int] *)
Lemma makeslice_accepted_small n :
  makeslice_refuses n = false -> 0 <= n < 2 ^ 63.
Proof.
  intros Hm. apply makeslice_refuses_false in Hm.
  unfold maxAlloc, int_size in Hm. lia.
Qed.

Section PermFacts.
Context {R : Type} `{Reader R}.

Lemma index_Ok (m : list Z) j (w : world R) v w' :
  index m j w = Ok v w' ->
  0 <= j < Z.of_nat (length m) /\ v = m !!! Z.to_nat j /\ w' = w.
Proof.
  unfold index.
  destruct (Z.ltb_spec j 0); [discriminate|].
  destruct (Z.leb_spec (Z.of_nat (length m)) j); [discriminate|].
  intros [= <- <-]. repeat split; lia.
Qed.

Lemma assign_Ok (m : list Z) i v (w : world R) m' w' :
  assign m i v w = Ok m' w' ->
  0 <= i < Z.of_nat (length m) /\ m' = <[Z.to_nat i := v]> m /\ w' = w.
Proof.
  unfold assign.
  destruct (Z.ltb_spec i 0); [discriminate|].
  destruct (Z.leb_spec (Z.of_nat (length m)) i); [discriminate|].
  intros [= <- <-]. repeat split; lia.
Qed.

Lemma ReadPerm_loop_eq fuel todo i n m :
  ReadPerm_loop fuel todo i n m =
  if i <? n then
    match todo with
    | O => timeout
    | S todo' =>
        let* j := ReadIntn fuel (int_succ i) in
        let* mj := index m j in
        let* m1 := assign m i mj in
        let* m2 := assign m1 j i in
        ReadPerm_loop fuel todo' (int_succ i) n m2
    end
  else ret m.
Proof. destruct todo; reflexivity. Qed.

Lemma ReadPerm_loop_Ok fuel todo :
  forall i n m (w : world R) m' w',
    0 <= i -> n < 2 ^ 63 ->
    ReadPerm_loop fuel todo i n m w = Ok m' w' ->
    exists js,
      draws fuel w i js w'
      /\ draws_ok i js
      /\ Z.of_nat (length js) = Z.max 0 (n - i)
      /\ m' = fisher_yates i js m.
Proof.
  induction todo as [|todo IH]; intros i n m w m' w' Hi Hn;
    rewrite ReadPerm_loop_eq; destruct (Z.ltb_spec i n) as [Hlt|Hge];
    try discriminate.
  - intros [= <- <-]. exists []. repeat split; [constructor|simpl; lia].
  - assert (Hsucc : int_succ i = i + 1).
    { unfold int_succ. apply to_int_small. lia. }
    rewrite Hsucc. intros Hb.
    apply bind_Ok in Hb. destruct Hb as (j & w1 & Hdraw & Hb).
    apply bind_Ok in Hb. destruct Hb as (mj & w2 & Hidx & Hb).
    apply bind_Ok in Hb. destruct Hb as (m1 & w3 & Has1 & Hb).
    apply bind_Ok in Hb. destruct Hb as (m2 & w4 & Has2 & Hb).
    apply index_Ok in Hidx. destruct Hidx as (_ & -> & ->).
    apply assign_Ok in Has1. destruct Has1 as (_ & -> & ->).
    apply assign_Ok in Has2. destruct Has2 as (_ & -> & ->).
    assert (Hj : 0 <= j < i + 1).
    { apply (ReadIntn_range fuel (i + 1) w j w1); [lia|exact Hdraw]. }
    apply IH in Hb; [|lia|exact Hn].
    destruct Hb as (js & Hds & Hok & Hlen & ->).
    exists (j :: js). split; [|split; [|split]].
    + econstructor; eassumption.
    + simpl. split; [lia|exact Hok].
    + simpl length. lia.
    + reflexivity.
  - intros [= <- <-]. exists []. repeat split; [constructor|simpl; lia].
Qed.

End PermFacts.

Lemma seqZ_bounds n x : x ∈ seqZ 0 n <-> 0 <= x < n.
Proof. rewrite elem_of_seqZ. lia. Qed.

(** what a returning ReadPerm did: n draws, n steps *)
Lemma ReadPerm_draws {R : Type} `{Reader R}
    (fuel : nat) (n : Z) (w w' : world R) (m : list Z) :
  0 <= n < 2 ^ 63 ->
  ReadPerm fuel n w = Ok m w' ->
  exists js,
    Z.of_nat (length js) = n
    /\ draws fuel w 0 js w'
    /\ draws_ok 0 js
    /\ m = fisher_yates 0 js (replicate (Z.to_nat n) 0).
Proof.
  intros Hn. unfold ReadPerm.
  destruct (makeslice_refuses n); [discriminate|].
  intros Hloop. apply ReadPerm_loop_Ok in Hloop; [|lia..].
  destruct Hloop as (js & Hds & Hok & Hlen & ->).
  rewrite Z.sub_0_r, Z.max_r in Hlen by lia.
  exists js. repeat split; assumption.
Qed.

Lemma ReadPerm_seqZ {R : Type} `{Reader R}
    (fuel : nat) (n : Z) (w w' : world R) (m : list Z) :
  0 <= n < 2 ^ 63 ->
  ReadPerm fuel n w = Ok m w' ->
  Z.of_nat (length m) = n /\ m ≡ₚ seqZ 0 n.
Proof.
  intros Hn Hrun.
  destruct (ReadPerm_draws fuel n w w' m Hn Hrun)
    as (js & Hlen & _ & Hok & ->).
  destruct (fisher_yates_perm js 0 (replicate (Z.to_nat n) 0))
    as [Hl Hp].
  - lia.
  - exact Hok.
  - rewrite length_replicate. lia.
  - reflexivity.
  - rewrite length_replicate in Hl.
    rewrite take_ge in Hp by lia.
    rewrite Z.add_0_l, Hlen in Hp.
    split; [lia|exact Hp].
Qed.

(** C6. For n >= 0 a slice returned by ReadPerm(src, n) has length n
    and holds every integer of [0, n) exactly once; it is what the steps
    [m[i] = m[j]; m[j] = i], i = 0 .. n-1, make of the zeroed slice,
    where j is the value of the i-th call, ReadIntn(src, i+1). *)
Theorem ReadPerm_permutation {R : Type} `{Reader R}
    (fuel : nat) (n : Z) (w w' : world R) (m : list Z) :
  is_int n -> 0 <= n ->
  ReadPerm fuel n w = Ok m w' ->
  Z.of_nat (length m) = n
  /\ m ≡ₚ seqZ 0 n
  /\ NoDup m
  /\ (forall x, x ∈ m <-> 0 <= x < n)
  /\ exists js,
      Z.of_nat (length js) = n
      /\ draws fuel w 0 js w'
      /\ draws_ok 0 js
      /\ m = fisher_yates 0 js (replicate (Z.to_nat n) 0).
Proof.
  intros [_ Hhi] Hn Hrun.
  destruct (ReadPerm_seqZ fuel n w w' m ltac:(lia) Hrun) as [Hlen Hp].
  split; [exact Hlen|]. split; [exact Hp|]. split; [|split].
  - rewrite Hp. apply NoDup_seqZ.
  - intros x. rewrite Hp. apply seqZ_bounds.
  - apply ReadPerm_draws; [lia|exact Hrun].
Qed.

Lemma ReadPerm_permutation_witness :
  ReadPerm 4 5 (start [xff; xc3; xc2; x05])
  = Ok [4; 1; 3; 0; 2]
      (World []
         [ReadEvent 1 [xff] None; ReadEvent 1 [xc3] None;
          ReadEvent 1 [xc2] None; ReadEvent 1 [x05] None])
  /\ [4; 1; 3; 0; 2] ≡ₚ seqZ 0 5.
Proof.
  assert (Hrun : ReadPerm 4 5 (start [xff; xc3; xc2; x05])
    = Ok [4; 1; 3; 0; 2]
        (World []
           [ReadEvent 1 [xff] None; ReadEvent 1 [xc3] None;
            ReadEvent 1 [xc2] None; ReadEvent 1 [x05] None]))
    by reflexivity.
  split; [exact Hrun|].
  assert (Hint : is_int 5) by (unfold is_int; lia).
  exact (proj1 (proj2 (ReadPerm_permutation 4 5 _ _ _ Hint ltac:(lia) Hrun))).
Defined.

(** ** ReadSample *)

Section SampleFacts.
Context {R : Type} `{Reader R}.

Lemma ReadIntn_Ok_pos fuel n (w : world R) v w' :
  ReadIntn fuel n w = Ok v w' -> 0 < n.
Proof.
  unfold ReadIntn. destruct (Z.leb_spec n 0); [discriminate|]. lia.
Qed.

Lemma slice_to_Ok (m : list Z) k (w : world R) s w' :
  slice_to m k w = Ok s w' ->
  0 <= k <= Z.of_nat (length m) /\ s = take (Z.to_nat k) m /\ w' = w.
Proof.
  unfold slice_to.
  destruct (Z.ltb_spec k 0); [discriminate|].
  destruct (Z.ltb_spec (Z.of_nat (length m)) k); [discriminate|].
  intros [= <- <-]. repeat split; lia.
Qed.

Lemma ReadSample_loop_eq fuel n k sample cache :
  ReadSample_loop fuel n k sample cache =
  if Z.of_nat (length sample) <? k then
    match fuel with
    | O => timeout
    | S fuel' =>
        let* r := ReadIntn fuel' n in
        if bool_decide (r ∈ cache)
        then ReadSample_loop fuel' n k sample cache
        else ReadSample_loop fuel' n k (sample ++ [r]) ({[r]} ∪ cache)
    end
  else ret sample.
Proof. destruct fuel; reflexivity. Qed.

Lemma sample_inv_snoc n k sample cache r :
  sample_inv n k sample cache ->
  r ∉ cache -> 0 <= r < n -> Z.of_nat (length sample) < k ->
  sample_inv n k (sample ++ [r]) ({[r]} ∪ cache).
Proof.
  intros (Hnd & Hcache & Hrng & Hle) Hnin Hr Hlt.
  split; [|split; [|split]].
  - apply NoDup_app. split; [exact Hnd|]. split; [|apply NoDup_singleton].
    intros x Hx Hx'. apply list_elem_of_singleton in Hx'. subst x.
    apply Hnin, Hcache, Hx.
  - intros x. rewrite elem_of_app, elem_of_union, list_elem_of_singleton,
      elem_of_singleton, Hcache. tauto.
  - intros x Hx. apply elem_of_app in Hx. destruct Hx as [Hx|Hx].
    + apply Hrng, Hx.
    + apply list_elem_of_singleton in Hx. subst x. exact Hr.
  - rewrite length_app. simpl. lia.
Qed.

Lemma sample_inv_done n k sample cache :
  sample_inv n k sample cache -> k <= Z.of_nat (length sample) ->
  NoDup sample
  /\ (forall x, x ∈ sample -> 0 <= x < n)
  /\ Z.of_nat (length sample) = k.
Proof.
  intros (Hnd & _ & Hrng & Hle) Hge.
  split; [exact Hnd|]. split; [exact Hrng|lia].
Qed.

Lemma ReadSample_loop_Ok fuel :
  forall n k sample cache (w : world R) s w',
    n < 2 ^ 63 ->
    sample_inv n k sample cache ->
    ReadSample_loop fuel n k sample cache w = Ok s w' ->
    NoDup s
    /\ (forall x, x ∈ s -> 0 <= x < n)
    /\ Z.of_nat (length s) = k.
Proof.
  induction fuel as [|fuel IH]; intros n k sample cache w s w' Hn Hinv;
    rewrite ReadSample_loop_eq;
    destruct (Z.ltb_spec (Z.of_nat (length sample)) k) as [Hlt|Hge];
    try discriminate.
  - intros [= <- <-]. apply (sample_inv_done n k sample cache); assumption.
  - intros Hb. apply bind_Ok in Hb. destruct Hb as (r & w1 & Hdraw & Hb).
    destruct (bool_decide_reflect (r ∈ cache)) as [Hin|Hnin].
    + apply IH in Hb; assumption.
    + apply IH in Hb; [exact Hb|exact Hn|].
      apply sample_inv_snoc; [exact Hinv|exact Hnin| |exact Hlt].
      pose proof (ReadIntn_Ok_pos _ _ _ _ _ Hdraw).
      apply (ReadIntn_range fuel n w r w1); [lia|exact Hdraw].
  - intros [= <- <-]. apply (sample_inv_done n k sample cache); assumption.
Qed.

End SampleFacts.

(** distinct values of [0, n), n of them, are all of [0, n) *)
Lemma full_sample (s : list Z) n :
  0 <= n -> NoDup s -> (forall x, x ∈ s -> 0 <= x < n) ->
  Z.of_nat (length s) = n -> s ≡ₚ seqZ 0 n.
Proof.
  intros Hn Hnd Hrng Hlen.
  apply submseteq_length_Permutation.
  - apply NoDup_submseteq; [exact Hnd|].
    intros x Hx. apply seqZ_bounds, Hrng, Hx.
  - rewrite length_seqZ. lia.
Qed.

(** the dense path returns what ReadPerm returns, cut to k elements;
    [k] is clamped to [n] first, so that the cut is never out of range *)
Lemma ReadSample_of_ReadPerm {R : Type} `{Reader R}
    (fuel : nat) (n k : Z) (w w1 : world R) (m : list Z) :
  0 <= n < 2 ^ 63 -> Z.quot n 2 < k ->
  ReadPerm fuel n w = Ok m w1 ->
  ReadSample fuel n k w = Ok (take (Z.to_nat k) m) w1.
Proof.
  intros Hn Hq Hperm.
  destruct (ReadPerm_seqZ fuel n w w1 m Hn Hperm) as [Hlen _].
  unfold ReadSample.
  assert (Hk' : (if n <? k then n else k) = Z.min k n).
  { destruct (Z.ltb_spec n k); lia. }
  rewrite Hk'. clear Hk'.
  rewrite Z.quot_div_nonneg in Hq |- * by lia.
  assert (Hk0 : 0 < k).
  { apply Z.le_lt_trans with (n / 2); [|exact Hq].
    apply Z.div_pos; lia. }
  destruct (Z.eq_dec n 0) as [->|Hn0].
  - assert (Hzero : ReadPerm fuel 0 w = Ok [] w) by reflexivity.
    rewrite Hzero in Hperm. injection Hperm as <- <-.
    rewrite Z.min_r by lia. rewrite take_nil.
    replace (0 / 2 <? 0) with false by reflexivity.
    replace (makeslice_refuses 0) with false by reflexivity.
    rewrite ReadSample_loop_eq. reflexivity.
  - assert (Hhalf : n / 2 < n) by (apply Z.div_lt; lia).
    destruct (Z.ltb_spec (n / 2) (Z.min k n)) as [_|Hge]; [|lia].
    unfold bind. rewrite Hperm. unfold slice_to.
    destruct (Z.ltb_spec (Z.min k n) 0); [lia|].
    destruct (Z.ltb_spec (Z.of_nat (length m)) (Z.min k n)); [lia|].
    simpl. unfold ret. f_equal.
    destruct (Z.le_gt_cases k n).
    + rewrite Z.min_l by lia. reflexivity.
    + rewrite Z.min_r by lia. rewrite !take_ge by lia. reflexivity.
Qed.

(** C7. For n >= 0 and k >= 0 a slice returned by ReadSample(src, n, k)
    holds exactly min(k, n) integers, pairwise distinct and each in
    [0, n); for k > n these are the n values of [0, n).  On the dense
    path (k > n/2) the call returns whenever ReadPerm(src, n) does, with
    the first k elements of that permutation, and for k > n with the
    whole of it: the clamp [k = n] keeps the cut [0:k] in range. *)
Theorem ReadSample_distinct {R : Type} `{Reader R}
    (fuel : nat) (n k : Z) (w w' : world R) (s : list Z) :
  is_int n -> is_int k -> 0 <= n -> 0 <= k ->
  (ReadSample fuel n k w = Ok s w' ->
   Z.of_nat (length s) = Z.min k n
   /\ NoDup s
   /\ (forall x, x ∈ s -> 0 <= x < n)
   /\ (n < k -> Z.of_nat (length s) = n /\ s ≡ₚ seqZ 0 n))
  /\ (Z.quot n 2 < k ->
      forall m w1, ReadPerm fuel n w = Ok m w1 ->
        ReadSample fuel n k w = Ok (take (Z.to_nat k) m) w1)
  /\ (n < k ->
      forall m w1, ReadPerm fuel n w = Ok m w1 ->
        ReadSample fuel n k w = Ok m w1).
Proof.
  intros [_ Hnhi] [_ Hkhi] Hn Hk. split; [|split].
  - intros Hrun.
    assert (Hmain : Z.of_nat (length s) = Z.min k n
                    /\ NoDup s /\ (forall x, x ∈ s -> 0 <= x < n)).
    { revert Hrun. unfold ReadSample.
      assert (Hk' : (if n <? k then n else k) = Z.min k n).
      { destruct (Z.ltb_spec n k); lia. }
      rewrite Hk'. clear Hk'.
      destruct (Z.quot n 2 <? Z.min k n).
      - intros Hb. apply bind_Ok in Hb.
        destruct Hb as (m & w1 & Hperm & Hb).
        apply slice_to_Ok in Hb. destruct Hb as (Hkm & -> & _).
        destruct (ReadPerm_seqZ fuel n w w1 m ltac:(lia) Hperm)
          as (Hlen & Hp).
        split; [|split].
        + rewrite length_take. lia.
        + eapply sublist_NoDup; [|apply sublist_take].
          rewrite Hp. apply NoDup_seqZ.
        + intros x Hx. apply seqZ_bounds. rewrite <- Hp.
          apply elem_of_take in Hx.
          destruct Hx as (i & Hi & _). eapply list_elem_of_lookup_2, Hi.
      - destruct (makeslice_refuses (Z.min k n)); [discriminate|].
        intros Hloop. apply ReadSample_loop_Ok in Hloop; [|exact Hnhi|].
        + destruct Hloop as (Hnd & Hrng & Hlen).
          split; [exact Hlen|]. split; assumption.
        + split; [apply NoDup_nil_2|]. split; [|split].
          * intros x. rewrite elem_of_nil, elem_of_empty. tauto.
          * intros x Hx. apply elem_of_nil in Hx. contradiction.
          * simpl. lia. }
    destruct Hmain as (Hlen & Hnd & Hrng).
    split; [exact Hlen|]. split; [exact Hnd|]. split; [exact Hrng|].
    intros Hgt. assert (Hl : Z.of_nat (length s) = n) by lia.
    split; [exact Hl|]. apply full_sample; assumption.
  - intros Hq m w1 Hperm.
    apply ReadSample_of_ReadPerm; [lia|exact Hq|exact Hperm].
  - intros Hgt m w1 Hperm.
    destruct (ReadPerm_seqZ fuel n w w1 m ltac:(lia) Hperm) as [Hlen _].
    assert (Hq : Z.quot n 2 < k).
    { rewrite Z.quot_div_nonneg by lia.
      apply Z.le_lt_trans with n; [|exact Hgt].
      apply Z.div_le_upper_bound; lia. }
    rewrite (ReadSample_of_ReadPerm fuel n k w w1 m ltac:(lia) Hq Hperm).
    rewrite take_ge by lia. reflexivity.
Qed.

(** the sparse path with a rejected duplicate, the dense path, and
    TestSample's Sample(2, 10), where k is clamped to n *)
Lemma ReadSample_distinct_witness :
  (ReadSample 9 10 3 (start [xff; x03; x03; x05; x01])
   = Ok [3; 5; 1]
       (World []
          [ReadEvent 1 [xff] None; ReadEvent 1 [x03] None;
           ReadEvent 1 [x03] None; ReadEvent 1 [x05] None;
           ReadEvent 1 [x01] None])
   /\ NoDup [3; 5; 1])
  /\ (ReadSample 9 5 3 (start [xff; xc3; xc2; x05])
      = Ok [4; 1; 3]
          (World []
             [ReadEvent 1 [xff] None; ReadEvent 1 [xc3] None;
              ReadEvent 1 [xc2] None; ReadEvent 1 [x05] None])
      /\ NoDup [4; 1; 3])
  /\ (ReadSample 9 2 10 (start [xff])
      = Ok [0; 1] (World [] [ReadEvent 1 [xff] None])
      /\ [0; 1] ≡ₚ seqZ 0 2).
Proof.
  assert (Hi10 : is_int 10) by (unfold is_int; lia).
  assert (Hi5 : is_int 5) by (unfold is_int; lia).
  assert (Hi3 : is_int 3) by (unfold is_int; lia).
  assert (Hi2 : is_int 2) by (unfold is_int; lia).
  split; [|split].
  - assert (Hrun : ReadSample 9 10 3 (start [xff; x03; x03; x05; x01])
      = Ok [3; 5; 1]
          (World []
             [ReadEvent 1 [xff] None; ReadEvent 1 [x03] None;
              ReadEvent 1 [x03] None; ReadEvent 1 [x05] None;
              ReadEvent 1 [x01] None])) by reflexivity.
    split; [exact Hrun|].
    exact (proj1 (proj2
      (proj1 (ReadSample_distinct 9 10 3 _ _ _
                Hi10 Hi3 ltac:(lia) ltac:(lia)) Hrun))).
  - assert (Hperm : ReadPerm 9 5 (start [xff; xc3; xc2; x05])
      = Ok [4; 1; 3; 0; 2]
          (World []
             [ReadEvent 1 [xff] None; ReadEvent 1 [xc3] None;
              ReadEvent 1 [xc2] None; ReadEvent 1 [x05] None]))
      by reflexivity.
    assert (Hq : Z.quot 5 2 < 3) by (vm_compute; reflexivity).
    pose proof (proj1 (proj2
      (ReadSample_distinct 9 5 3 (start [xff; xc3; xc2; x05])
         (start []) [] Hi5 Hi3 ltac:(lia) ltac:(lia))) Hq _ _ Hperm)
      as Hrun.
    change (take (Z.to_nat 3) [4; 1; 3; 0; 2]) with [4; 1; 3] in Hrun.
    split; [exact Hrun|].
    exact (proj1 (proj2
      (proj1 (ReadSample_distinct 9 5 3 _ _ _
                Hi5 Hi3 ltac:(lia) ltac:(lia)) Hrun))).
  - assert (Hperm : ReadPerm 9 2 (start [xff])
      = Ok [0; 1] (World [] [ReadEvent 1 [xff] None])) by reflexivity.
    pose proof (proj2 (proj2
      (ReadSample_distinct 9 2 10 (start [xff]) (start []) []
         Hi2 Hi10 ltac:(lia) ltac:(lia))) ltac:(lia) _ _ Hperm) as Hrun.
    split; [exact Hrun|].
    assert (Hgt : 2 < 10) by lia.
    exact (proj2 (proj2 (proj2 (proj2
      (proj1 (ReadSample_distinct 9 2 10 _ _ _
                Hi2 Hi10 ltac:(lia) ltac:(lia)) Hrun))) Hgt)).
Defined.

Example ReadSample_more_than_range :
  value (ReadSample 9 2 10 (start [xff])) = Some [0; 1]
  /\ value (ReadSample 9 5 3 (start [xff; xc3; xc2; x05])) = Some [4; 1; 3].
Proof. split; reflexivity. Qed.

(** ** ReadFloat64 *)

Lemma fexp_normal e :
  -1021 <= e -> fexp Float64.prec Float64.emax e = e - 53.
Proof.
  intros He. unfold fexp, emin, Float64.prec, Float64.emax. lia.
Qed.

Lemma digits2_pos_bounds p :
  2 ^ (Z.pos (digits2_pos p) - 1) <= Z.pos p < 2 ^ Z.pos (digits2_pos p).
Proof.
  induction p as [p IH|p IH|]; simpl digits2_pos;
    [| |simpl; lia];
    rewrite Pos2Z.inj_succ;
    replace (Z.succ (Z.pos (digits2_pos p)) - 1)
      with (Z.succ (Z.pos (digits2_pos p) - 1)) by lia;
    rewrite !Z.pow_succ_r by lia; lia.
Qed.

Lemma digits2_pos_le p k : Z.pos p < 2 ^ k -> Z.pos (digits2_pos p) <= k.
Proof.
  intros Hp.
  destruct (Z.le_gt_cases (Z.pos (digits2_pos p)) k) as [|Hgt];
    [assumption|exfalso].
  destruct (digits2_pos_bounds p) as [Hlo _].
  assert (0 <= k).
  { destruct (Z.le_gt_cases 0 k); [assumption|].
    rewrite Z.pow_neg_r in Hp by lia. lia. }
  assert (2 ^ k <= 2 ^ (Z.pos (digits2_pos p) - 1))
    by (apply Z.pow_le_mono_r; lia).
  lia.
Qed.

(** [k] zero bits appended to [p] *)
Lemma iter_xO_spec p k :
  Z.pos (Pos.iter xO p k) = Z.pos p * 2 ^ Z.pos k
  /\ digits2_pos (Pos.iter xO p k) = (digits2_pos p + k)%positive.
Proof.
  induction k as [|k [IHv IHd]] using Pos.peano_ind.
  - simpl. split; lia.
  - rewrite Pos.iter_succ. split.
    + rewrite Pos2Z.inj_xO, IHv, Pos2Z.inj_succ, Z.pow_succ_r by lia. lia.
    + simpl digits2_pos. rewrite IHd. lia.
Qed.

(** a 53-bit mantissa with an exponent in range needs no rounding *)
Lemma round_exact s m e :
  digits2_pos m = 53%positive -> -1074 <= e <= 971 ->
  binary_round_aux Float64.prec Float64.emax s (Z.pos m) e loc_Exact
  = S754_finite s m e.
Proof.
  intros Hd He. unfold binary_round_aux, shr_fexp.
  cbn [Zdigits2 shr_record_of_loc]. rewrite Hd.
  rewrite fexp_normal by lia.
  replace (53 + e - 53 - e) with 0 by lia.
  cbn [shr shr_m loc_of_shr_record round_nearest_even Zdigits2
       shr_record_of_loc].
  rewrite Hd, fexp_normal by lia.
  replace (53 + e - 53 - e) with 0 by lia.
  cbn [shr shr_m].
  replace (e <=? Float64.emax - Float64.prec) with true; [reflexivity|].
  symmetry. apply Z.leb_le. unfold Float64.emax, Float64.prec. lia.
Qed.

(** [float64(x)] is exact for 0 < x < 2^53: the mantissa is x shifted
    to 53 bits *)
Lemma of_uint64_exact p :
  Z.pos p < 2 ^ 53 ->
  exists m,
    Float64.of_uint64 (Z.pos p)
    = S754_finite false m (Z.pos (digits2_pos p) - 53)
    /\ digits2_pos m = 53%positive
    /\ Z.pos m = Z.pos p * 2 ^ (53 - Z.pos (digits2_pos p)).
Proof.
  intros Hp. pose proof (digits2_pos_le p 53 Hp) as Hd.
  unfold Float64.of_uint64, binary_normalize, binary_round.
  rewrite fexp_normal by lia. unfold shl_align.
  destruct (Z.eq_dec (Z.pos (digits2_pos p)) 53) as [Heq|Hne].
  - exists p. rewrite Heq. change (53 + 0 - 53 - 0) with 0. cbv beta iota.
    rewrite round_exact; [|congruence|lia].
    split; [reflexivity|]. split; [congruence|]. simpl. lia.
  - set (k := Z.to_pos (53 - Z.pos (digits2_pos p))).
    replace (Z.pos (digits2_pos p) + 0 - 53 - 0) with (Z.neg k)
      by (unfold k; lia).
    cbv beta iota.
    destruct (iter_xO_spec p k) as [Hv Hdig].
    assert (Hk : Z.pos k = 53 - Z.pos (digits2_pos p))
      by (unfold k; rewrite Z2Pos.id; lia).
    assert (Hd53 : digits2_pos (Pos.iter xO p k) = 53%positive) by lia.
    exists (Pos.iter xO p k).
    split; [|split; [exact Hd53|rewrite Hv, Hk; reflexivity]].
    match goal with
    | |- context [binary_round_aux _ _ _ (Z.pos ?q) _ _] =>
        change q with (Pos.iter xO p k)
    end.
    rewrite round_exact; [|exact Hd53|lia].
    f_equal; lia.
Qed.

Lemma div_eucl_shift m :
  Z.div_eucl (Z.shiftl (Z.pos m) 53) 4503599627370496 = (Z.pos m~0, 0).
Proof.
  assert (Hpair : forall a b, Z.div_eucl a b = (a / b, a mod b)).
  { intros a b. unfold Z.div, Z.modulo.
    destruct (Z.div_eucl a b); reflexivity. }
  rewrite Hpair, Z.shiftl_mul_pow2 by lia.
  replace (Z.pos m * 2 ^ 53) with (Z.pos m~0 * 4503599627370496) by lia.
  rewrite Z.div_mul, Z.mod_mul by lia. reflexivity.
Qed.

Lemma of_uint64_two53 :
  Float64.of_uint64 (Z.shiftl 1 53)
  = S754_finite false 4503599627370496 1.
Proof. reflexivity. Qed.

(** dividing a normal float by 2^53 lowers the exponent by 53 *)
Lemma div_two53_exact m ex :
  digits2_pos m = 53%positive -> -52 <= ex <= 0 ->
  Float64.div (S754_finite false m ex) (Float64.of_uint64 (Z.shiftl 1 53))
  = S754_finite false m (ex - 53).
Proof.
  intros Hd He. rewrite of_uint64_two53.
  unfold Float64.div, SFdiv, SFdiv_core_binary.
  cbn [Zdigits2]. rewrite Hd.
  change (Z.pos (digits2_pos 4503599627370496)) with 53.
  rewrite fexp_normal by lia.
  replace (Z.min (53 + ex - (53 + 1) - 53) (ex - 1)) with (ex - 54) by lia.
  replace (ex - 1 - (ex - 54)) with 53 by lia.
  cbv beta iota.
  match goal with
  | |- context [let '(q, r) := ?d in _] =>
      change d with (Z.div_eucl (Z.shiftl (Z.pos m) 53) 4503599627370496)
  end.
  rewrite div_eucl_shift.
  change (new_location 4503599627370496 0) with loc_Exact.
  cbv beta iota. unfold binary_round_aux, shr_fexp.
  cbn [Zdigits2 digits2_pos shr_record_of_loc xorb]. rewrite Hd.
  change (Z.pos (Pos.succ 53)) with 54.
  rewrite fexp_normal by lia.
  replace (54 + (ex - 54) - 53 - (ex - 54)) with 1 by lia.
  cbn [shr].
  change (SpecFloat.iter_pos shr_1 1
            {| shr_m := Z.pos m~0; shr_r := false; shr_s := false |})
    with {| shr_m := Z.pos m; shr_r := false; shr_s := false |}.
  cbn [shr_m loc_of_shr_record round_nearest_even Zdigits2].
  rewrite Hd, fexp_normal by lia.
  replace (53 + (ex - 54 + 1) - 53 - (ex - 54 + 1)) with 0 by lia.
  cbn [shr shr_m].
  replace (ex - 54 + 1 <=? Float64.emax - Float64.prec) with true.
  - f_equal; lia.
  - symmetry. apply Z.leb_le. unfold Float64.emax, Float64.prec. lia.
Qed.

Lemma below_one m e :
  e < -52 ->
  Float64.leb Float64.zero (S754_finite false m e) = true
  /\ Float64.ltb (S754_finite false m e) Float64.one = true.
Proof.
  intros He. split; [reflexivity|].
  unfold Float64.ltb, SFltb.
  change Float64.one with (S754_finite false 4503599627370496 (-52)).
  cbn [SFcompare].
  destruct (Z.compare_spec e (-52)); first [lia | reflexivity].
Qed.

Lemma to_Q_scaled m e r :
  e <= -53 -> Z.pos m = r * 2 ^ (- e - 53) ->
  (inject_Z (Z.pos m) * Qpower 2 e == inject_Z r / inject_Z (2 ^ 53))%Q.
Proof.
  intros He Hm.
  rewrite Hm, inject_Z_mult, Zpower_Qpower by lia.
  change (inject_Z 2) with 2%Q.
  rewrite <- Qmult_assoc, <- Qpower_plus by discriminate.
  replace (- e - 53 + e) with (- (53)) by lia.
  rewrite Qpower_opp. reflexivity.
Qed.

(** The quotient of ReadFloat64 for a 53-bit integer [r] is exact and
    lies in the unit interval. *)
Lemma div_two53_unit r :
  0 <= r < 2 ^ 53 ->
  let f := Float64.div (Float64.of_uint64 r)
                       (Float64.of_uint64 (Z.shiftl 1 53)) in
  (exists q, Float64.to_Q f = Some q
             /\ (q == inject_Z r / inject_Z (2 ^ 53))%Q)
  /\ Float64.leb Float64.zero f = true
  /\ Float64.ltb f Float64.one = true.
Proof.
  intros Hr f. subst f. destruct r as [|p|p]; [| |lia].
  - split; [|split; reflexivity].
    exists 0%Q. split; reflexivity.
  - destruct (of_uint64_exact p ltac:(lia)) as (m & -> & Hd & Hm).
    pose proof (digits2_pos_le p 53 ltac:(lia)) as Hle.
    rewrite div_two53_exact by (exact Hd || lia).
    split; [|apply below_one; lia].
    eexists. split; [reflexivity|].
    apply to_Q_scaled; [lia|].
    rewrite Hm. f_equal. f_equal. lia.
Qed.

(** C9. A value returned by ReadFloat64 is the 53-bit integer r drawn by
    ReadUint64Bits(src, 53), converted and divided by 2^53 in float64;
    this quotient is exactly r / 2^53, it is not below 0.0 and it is
    strictly below 1.0. *)
Theorem ReadFloat64_unit_interval {R : Type} `{Reader R}
    (fuel : nat) (w w' : world R) (f : spec_float) :
  ReadFloat64 fuel w = Ok f w' ->
  exists r,
    ReadUint64Bits fuel 53 w = Ok r w'
    /\ 0 <= r < 2 ^ 53
    /\ f = Float64.div (Float64.of_uint64 r) (Float64.of_uint64 (2 ^ 53))
    /\ (exists q, Float64.to_Q f = Some q
                  /\ (q == inject_Z r / inject_Z (2 ^ 53))%Q)
    /\ Float64.leb Float64.zero f = true
    /\ Float64.ltb f Float64.one = true.
Proof.
  unfold ReadFloat64. intros Hb.
  apply bind_Ok in Hb. destruct Hb as (r & w1 & Hdraw & Hret).
  injection Hret as <- <-.
  assert (Hr : 0 <= r < 2 ^ 53).
  { apply ReadUint64Bits_Ok in Hdraw.
    destruct Hdraw as (_ & buf & k & evs & _ & -> & _).
    apply masked_range. lia. }
  exists r. split; [exact Hdraw|]. split; [exact Hr|].
  split; [reflexivity|].
  apply div_two53_unit. exact Hr.
Qed.

(** seven bytes 0xff give r = 2^53 - 1, the largest float below 1.0 *)
Lemma ReadFloat64_unit_interval_witness :
  ReadFloat64 2 (start [xff; xff; xff; xff; xff; xff; xff])
  = Ok (S754_finite false 9007199254740991 (-53))
      (World [] [ReadEvent 7 [xff; xff; xff; xff; xff; xff; xff] None])
  /\ Float64.ltb (S754_finite false 9007199254740991 (-53)) Float64.one
     = true.
Proof.
  assert (Hrun :
    ReadFloat64 2 (start [xff; xff; xff; xff; xff; xff; xff])
    = Ok (S754_finite false 9007199254740991 (-53))
        (World [] [ReadEvent 7 [xff; xff; xff; xff; xff; xff; xff] None]))
    by (vm_compute; reflexivity).
  split; [exact Hrun|].
  destruct (ReadFloat64_unit_interval 2 _ _ _ Hrun)
    as (r & _ & _ & _ & _ & _ & Hlt).
  exact Hlt.
Defined.

(** * The repository's tests, replayed on the embedding *)

(** TestInt64Overflow *)
Example TestInt64Overflow :
  let N := 0x7fffffffffffffff in
  let bits := mul64 (minBytes (sub64 N 1)) 8 in
  let M := shl64 1 bits in
  M = 0
  /\ sub64 M N = 0x8000000000000001
  /\ intn_limit N bits = 2 * N
  /\ intn_limit N bits = sub64 M 2.
Proof. repeat split. Qed.

(** TestUint64BitsRead *)
Example TestUint64BitsRead :
  bits_of [] 0 = Some 0
  /\ bits_of [x12] 8 = Some 0x12
  /\ bits_of [x12; x34] 16 = Some 0x3412
  /\ bits_of [x12; x34; x56] 24 = Some 0x563412
  /\ bits_of [x12; x34; x56; x78] 32 = Some 0x78563412
  /\ bits_of [x12; x34; x56; x78; x9a] 40 = Some 0x9a78563412
  /\ bits_of [x12; x34; x56; x78; x9a; xbc] 48 = Some 0xbc9a78563412
  /\ bits_of [x12; x34; x56; x78; x9a; xbc; xde] 56
     = Some 0xdebc9a78563412
  /\ bits_of [x12; x34; x56; x78; x9a; xbc; xde; xf0] 64
     = Some 0xf0debc9a78563412.
Proof. repeat split. Qed.

(** TestUint64BitsMask *)
Example TestUint64BitsMask :
  let source := [xff; xff; xff; xff; xff; xff; xff; xff] in
  map (bits_of source) [0; 1; 2; 3; 4; 5; 6; 7; 8; 9; 60; 61; 62; 63; 64]
  = map Some
      [0x0; 0x1; 0x3; 0x7; 0xf; 0x1f; 0x3f; 0x7f; 0xff; 0x1ff;
       0x0fffffffffffffff; 0x1fffffffffffffff; 0x3fffffffffffffff;
       0x7fffffffffffffff; 0xffffffffffffffff].
Proof. reflexivity. Qed.

(** TestMinBytes *)
Example TestMinBytes :
  map minBytes
    [0; 0x1; 0xff; 0x100; 0xffff; 0x10000; 0xffffff; 0x1000000;
     0xffffffff; 0x100000000; 0xffffffffff; 0x10000000000;
     0xffffffffffff; 0x1000000000000; 0xffffffffffffff;
     0x100000000000000; 0x7fffffffffffffff; 0xffffffffffffffff]
  = [0; 1; 1; 2; 2; 3; 3; 4; 4; 5; 5; 6; 6; 7; 7; 8; 8; 8].
Proof. reflexivity. Qed.

(** * Fuel

    A run that finishes with some fuel finishes in the same way with
    any larger fuel: fuel only bounds how long the model waits. *)

Lemma bind_more_fuel {R A B} (m m' : M R A) (k k' : A -> M R B) w :
  (finished (m w) -> m' w = m w) ->
  (forall a w1, finished (k a w1) -> k' a w1 = k a w1) ->
  finished (bind m k w) -> bind m' k' w = bind m k w.
Proof.
  unfold bind, finished. intros Hm Hk Hfin.
  destruct (m w) as [a w1|p w1|] eqn:Hmw.
  - rewrite Hm by discriminate. apply Hk. exact Hfin.
  - rewrite Hm by discriminate. reflexivity.
  - contradiction.
Qed.

Section Fuel.
Context {R : Type} `{Reader R}.

Lemma ReadAtLeast_loop_more_fuel fuel :
  forall fuel' buf n min err (w : world R),
    (fuel <= fuel')%nat ->
    finished (ReadAtLeast_loop fuel buf n min err w) ->
    ReadAtLeast_loop fuel' buf n min err w
    = ReadAtLeast_loop fuel buf n min err w.
Proof.
  induction fuel as [|fuel IH]; intros fuel' buf n min err w Hle;
    rewrite (ReadAtLeast_loop_eq fuel'), ReadAtLeast_loop_eq;
    destruct ((n <? min)%nat && is_nil err); try reflexivity.
  - intros Hfin. exfalso. apply Hfin. reflexivity.
  - destruct fuel' as [|fuel']; [lia|].
    apply bind_more_fuel; [reflexivity|].
    intros [chunk e] w1. apply IH. lia.
Qed.

Lemma ReadFull_more_fuel fuel fuel' buf (w : world R) :
  (fuel <= fuel')%nat ->
  finished (ReadFull fuel buf w) ->
  ReadFull fuel' buf w = ReadFull fuel buf w.
Proof.
  intros Hle. unfold ReadFull, ReadAtLeast.
  destruct (length buf <? length buf)%nat; [reflexivity|].
  apply bind_more_fuel; [|reflexivity].
  apply ReadAtLeast_loop_more_fuel. exact Hle.
Qed.

Lemma ReadUint64Bits_more_fuel fuel fuel' n (w : world R) :
  (fuel <= fuel')%nat ->
  finished (ReadUint64Bits fuel n w) ->
  ReadUint64Bits fuel' n w = ReadUint64Bits fuel n w.
Proof.
  intros Hle. unfold ReadUint64Bits.
  destruct (64 <? n); [reflexivity|].
  apply bind_more_fuel; [|reflexivity].
  apply ReadFull_more_fuel. exact Hle.
Qed.

Lemma ReadIntn_loop_more_fuel fuel :
  forall fuel' bits N limit (w : world R),
    (fuel <= fuel')%nat ->
    finished (ReadIntn_loop fuel bits N limit w) ->
    ReadIntn_loop fuel' bits N limit w = ReadIntn_loop fuel bits N limit w.
Proof.
  induction fuel as [|fuel IH]; intros fuel' bits N limit w Hle; simpl.
  - intros Hfin. exfalso. apply Hfin. reflexivity.
  - destruct fuel' as [|fuel']; [lia|]. simpl.
    apply bind_more_fuel.
    + apply ReadUint64Bits_more_fuel. lia.
    + intros r w1. destruct (r <? limit); [reflexivity|].
      apply IH. lia.
Qed.

Lemma ReadIntn_more_fuel fuel fuel' n (w : world R) :
  (fuel <= fuel')%nat ->
  finished (ReadIntn fuel n w) ->
  ReadIntn fuel' n w = ReadIntn fuel n w.
Proof.
  intros Hle. unfold ReadIntn.
  destruct (n <=? 0); [reflexivity|].
  destruct (Z.land (wrap64 n) (sub64 (wrap64 n) 1) =? 0).
  - apply bind_more_fuel; [|reflexivity].
    apply ReadUint64Bits_more_fuel. exact Hle.
  - apply ReadIntn_loop_more_fuel. exact Hle.
Qed.

Lemma ReadPerm_more_fuel fuel fuel' n (w : world R) :
  (fuel <= fuel')%nat ->
  finished (ReadPerm fuel n w) ->
  ReadPerm fuel' n w = ReadPerm fuel n w.
Proof.
  intros Hle. unfold ReadPerm.
  destruct (makeslice_refuses n); [reflexivity|].
  generalize (replicate (Z.to_nat n) 0) as m. generalize 0 as i.
  revert w. induction (Z.to_nat n) as [|todo IH]; intros w i m;
    rewrite (ReadPerm_loop_eq fuel'), ReadPerm_loop_eq;
    destruct (i <? n); try reflexivity.
  apply bind_more_fuel; [apply ReadIntn_more_fuel; exact Hle|].
  intros j w1. apply bind_more_fuel; [reflexivity|].
  intros mj w2. apply bind_more_fuel; [reflexivity|].
  intros m1 w3. apply bind_more_fuel; [reflexivity|].
  intros m2 w4. apply IH.
Qed.

Lemma ReadSample_loop_more_fuel fuel :
  forall fuel' n k sample cache (w : world R),
    (fuel <= fuel')%nat ->
    finished (ReadSample_loop fuel n k sample cache w) ->
    ReadSample_loop fuel' n k sample cache w
    = ReadSample_loop fuel n k sample cache w.
Proof.
  induction fuel as [|fuel IH]; intros fuel' n k sample cache w Hle;
    rewrite (ReadSample_loop_eq fuel'), ReadSample_loop_eq;
    destruct (Z.of_nat (length sample) <? k); try reflexivity.
  - intros Hfin. exfalso. apply Hfin. reflexivity.
  - destruct fuel' as [|fuel']; [lia|].
    apply bind_more_fuel; [apply ReadIntn_more_fuel; lia|].
    intros r w1. destruct (bool_decide (r ∈ cache)); apply IH; lia.
Qed.

Lemma ReadSample_more_fuel fuel fuel' n k (w : world R) :
  (fuel <= fuel')%nat ->
  finished (ReadSample fuel n k w) ->
  ReadSample fuel' n k w = ReadSample fuel n k w.
Proof.
  intros Hle. unfold ReadSample.
  destruct (Z.quot n 2 <? (if n <? k then n else k)).
  - apply bind_more_fuel; [|reflexivity].
    apply ReadPerm_more_fuel. exact Hle.
  - destruct (makeslice_refuses (if n <? k then n else k));
      [reflexivity|].
    apply ReadSample_loop_more_fuel. exact Hle.
Qed.

(** The bound [todo] of the loop of ReadPerm is never what stops it:
    a run of ReadPerm that ran out of fuel did so inside ReadIntn. *)
Lemma ReadPerm_loop_todo fuel todo :
  forall i n m (w : world R),
    0 <= i -> n < 2 ^ 63 -> (Z.to_nat (n - i) <= todo)%nat ->
    ReadPerm_loop fuel todo i n m w = OutOfFuel ->
    exists j w1, ReadIntn fuel (j + 1) w1 = OutOfFuel.
Proof.
  induction todo as [|todo IH]; intros i n m w Hi Hn Htodo;
    rewrite ReadPerm_loop_eq; destruct (Z.ltb_spec i n) as [Hlt|Hge];
    try discriminate; [lia|].
  assert (Hsucc : int_succ i = i + 1).
  { unfold int_succ. apply to_int_small. lia. }
  rewrite Hsucc. unfold bind at 1.
  destruct (ReadIntn fuel (i + 1) w) as [j w1| |] eqn:Hdraw;
    [|discriminate|exists i, w; exact Hdraw].
  unfold bind at 1. unfold index.
  destruct ((j <? 0) || (Z.of_nat (length m) <=? j)); [discriminate|].
  unfold ret at 1. unfold bind at 1, assign at 1.
  destruct ((i <? 0) || (Z.of_nat (length m) <=? i)); [discriminate|].
  unfold ret at 1. unfold bind at 1, assign at 1.
  match goal with |- context [if ?c then _ else _] => destruct c end;
    [discriminate|].
  unfold ret at 1. apply IH; lia.
Qed.

End Fuel.

(** * Further properties of the code *)

(** ** The bit extractor reads little endian *)

Lemma lor_disjoint a x k :
  0 <= k -> 0 <= a < 2 ^ k -> Z.lor a (x * 2 ^ k) = a + x * 2 ^ k.
Proof.
  intros Hk Ha.
  assert (Hland : Z.land a (x * 2 ^ k) = 0).
  { apply Z.bits_inj'. intros i Hi.
    rewrite Z.land_spec, Z.bits_0.
    destruct (Z.lt_ge_cases i k) as [Hlt|Hge].
    - rewrite Z.mul_pow2_bits_low by lia. apply andb_false_r.
    - rewrite <- (Z.mod_small a (2 ^ k)) by lia.
      rewrite Z.mod_pow2_bits_high by lia. reflexivity. }
  rewrite <- Z.lxor_lor by exact Hland.
  symmetry. apply Z.add_nocarry_lxor. exact Hland.
Qed.

Lemma le_value_range bs :
  0 <= le_value bs < 2 ^ (8 * Z.of_nat (length bs)).
Proof.
  induction bs as [|b bs IH]; [simpl; lia|].
  cbn [le_value length]. pose proof (byte_to_Z_range b).
  replace (8 * Z.of_nat (S (length bs)))
    with (8 + 8 * Z.of_nat (length bs)) by lia.
  rewrite Z.pow_add_r by lia. change (2 ^ 8) with 256. lia.
Qed.

Lemma le_uint64_value b : length b = 8%nat -> le_uint64 b = le_value b.
Proof.
  intros Hlen.
  do 8 (destruct b as [|? b]; [discriminate Hlen|]).
  destruct b; [|discriminate Hlen].
  unfold le_uint64. cbn [lookup_total list_lookup_total le_value].
  repeat match goal with
         | |- context [byte_to_Z ?c] =>
             let x := fresh "x" in
             pose proof (byte_to_Z_range c);
             set (x := byte_to_Z c) in *; clearbody x
         end.
  unfold shl64. rewrite !Z.shiftl_mul_pow2 by lia.
  rewrite !wrap64_small by lia.
  repeat match goal with
         | |- context [Z.lor ?a (?x * 2 ^ ?k)] =>
             lazymatch a with
             | context [Z.lor] => fail
             | _ => rewrite (lor_disjoint a x k) by lia
             end
         end.
  lia.
Qed.

Lemma le_value_zeros k : le_value (replicate k x00) = 0.
Proof. induction k as [|k IH]; [reflexivity|]. simpl. rewrite IH. reflexivity. Qed.

Lemma le_value_app bs cs :
  le_value (bs ++ cs)
  = le_value bs + 2 ^ (8 * Z.of_nat (length bs)) * le_value cs.
Proof.
  induction bs as [|b bs IH]; [simpl; lia|].
  cbn [app le_value length]. rewrite IH.
  replace (8 * Z.of_nat (S (length bs)))
    with (8 + 8 * Z.of_nat (length bs)) by lia.
  rewrite Z.pow_add_r by lia. change (2 ^ 8) with 256. lia.
Qed.

Section ExtractorValue.
Context {R : Type} `{Reader R}.

Lemma take_store buf n chunk :
  (n + length chunk <= length buf)%nat ->
  take (n + length chunk) (store buf n chunk) = take n buf ++ chunk.
Proof.
  intros Hle. unfold store.
  rewrite (take_ge chunk) by lia.
  rewrite app_assoc, take_app_length'; [reflexivity|].
  rewrite length_app, length_take. lia.
Qed.

(** the loop of ReadAtLeast stores at [buf[n:]] the bytes it is given *)
Lemma ReadAtLeast_loop_stores fuel :
  forall buf n min err (w : world R) buf' n' err' w',
    (n <= length buf)%nat ->
    ReadAtLeast_loop fuel buf n min err w = Ok (buf', n', err') w' ->
    exists evs,
      extends w w' evs
      /\ n' = (n + length (bytes_read evs))%nat
      /\ take n' buf' = take n buf ++ bytes_read evs.
Proof.
  induction fuel as [|fuel IH]; intros buf n min err w buf' n' err' w' Hn;
    rewrite ReadAtLeast_loop_eq;
    destruct ((n <? min)%nat && is_nil err) eqn:Hc;
    try discriminate.
  - intros [= <- <- <- <-]. exists []. unfold bytes_read; simpl.
    rewrite app_nil_r. repeat split; [apply extends_refl|lia].
  - unfold bind, do_read.
    destruct (Read (src w) (length buf - n)) as [[chunk e] s'] eqn:HR.
    pose proof (Read_le (src w) (length buf - n)) as Hlen.
    rewrite HR in Hlen. simpl in Hlen.
    intros Hrec. apply IH in Hrec; [|rewrite length_store by lia; lia].
    destruct Hrec as (evs & Hext & Hn' & Htake).
    exists (ReadEvent (length buf - n) chunk e :: evs).
    split; [|split].
    + unfold extends in *. simpl in Hext. rewrite Hext, <- app_assoc.
      reflexivity.
    + unfold bytes_read in *. simpl. rewrite length_app. lia.
    + rewrite Htake, take_store by lia.
      unfold bytes_read. simpl. rewrite app_assoc. reflexivity.
  - intros [= <- <- <- <-]. exists []. unfold bytes_read; simpl.
    rewrite app_nil_r. repeat split; [apply extends_refl|lia].
Qed.

(** a ReadFull without error has filled the slice with the bytes read *)
Lemma ReadFull_filled fuel buf (w : world R) buf' k w' :
  ReadFull fuel buf w = Ok (buf', k, None) w' ->
  exists evs,
    extends w w' evs /\ buf' = bytes_read evs
    /\ length buf' = length buf.
Proof.
  intros Hfull.
  destruct (ReadFull_Ok _ _ _ _ _ _ _ Hfull) as (evs0 & Hext0 & Hlb & Hcnt).
  revert Hfull. unfold ReadFull, ReadAtLeast. rewrite Nat.ltb_irrefl.
  intros Hb. apply bind_Ok in Hb.
  destruct Hb as ([[b1 n1] e1] & w1 & Hloop & Hret).
  assert (Hb1 : b1 = buf' /\ w1 = w').
  { destruct (length buf <=? n1)%nat;
      [|destruct ((0 <? n1)%nat && is_EOF e1)];
      inversion Hret; subst; split; reflexivity. }
  destruct Hb1 as [-> ->].
  apply ReadAtLeast_loop_stores in Hloop; [|lia].
  destruct Hloop as (evs & Hext & Hn1 & Htake).
  assert (evs = evs0) as ->.
  { unfold extends in *. rewrite Hext0 in Hext.
    apply app_inv_head in Hext. symmetry. exact Hext. }
  exists evs0. split; [exact Hext0|]. split; [|exact Hlb].
  simpl in Hn1, Htake. rewrite Hn1, Hcnt, <- Hlb, firstn_all in Htake.
  exact Htake.
Qed.

End ExtractorValue.

Lemma bytes_needed_le n : 0 <= n <= 64 -> (bytes_needed n <= 8)%nat.
Proof.
  intros Hn. pose proof (bytes_needed_eq n Hn).
  assert ((n + 7) / 8 < 9) by (apply Z.div_lt_upper_bound; lia). lia.
Qed.

(** the masked value of the 8-byte buffer whose front holds [bs] *)
Lemma extracted_value bs n :
  0 <= n <= 64 -> length bs = bytes_needed n ->
  Z.land (le_uint64 (bs ++ drop (bytes_needed n) (replicate 8 x00)))
         (low_mask n)
  = le_value bs mod 2 ^ n.
Proof.
  intros Hn Hlen. pose proof (bytes_needed_le n Hn).
  rewrite low_mask_ones, Z.land_ones by lia. f_equal.
  rewrite le_uint64_value.
  - rewrite drop_replicate, le_value_app, le_value_zeros. lia.
  - rewrite length_app, length_drop, length_replicate. lia.
Qed.

(** X1. The value ReadUint64Bits returns is the little endian number
    made of the ceil(n/8) bytes it read from the source, reduced
    modulo 2^n. *)
Theorem ReadUint64Bits_little_endian {R : Type} `{Reader R}
    (fuel : nat) (n : Z) (w w' : world R) (r : Z) :
  0 <= n <= 64 ->
  ReadUint64Bits fuel n w = Ok r w' ->
  exists evs,
    extends w w' evs
    /\ Z.of_nat (length (bytes_read evs)) = (n + 7) / 8
    /\ r = le_value (bytes_read evs) mod 2 ^ n.
Proof.
  intros Hn Hok. apply ReadUint64Bits_Ok in Hok.
  destruct Hok as (_ & buf & k & evs0 & Hfull & -> & _ & _).
  apply ReadFull_filled in Hfull.
  destruct Hfull as (evs & Hext & -> & Hlen).
  pose proof (bytes_needed_le n Hn) as Hbytes.
  rewrite length_take, length_replicate in Hlen.
  exists evs. split; [exact Hext|]. split.
  - rewrite Hlen, <- bytes_needed_eq by exact Hn. lia.
  - apply extracted_value; [exact Hn|lia].
Qed.

Lemma ReadUint64Bits_little_endian_witness :
  ReadUint64Bits 1 9 (start [x12; x34; x56])
  = Ok 0x12 (World [x56] [ReadEvent 2 [x12; x34] None])
  /\ 0x12 = le_value [x12; x34] mod 2 ^ 9.
Proof.
  assert (Hrun : ReadUint64Bits 1 9 (start [x12; x34; x56])
                 = Ok 0x12 (World [x56] [ReadEvent 2 [x12; x34] None]))
    by reflexivity.
  split; [exact Hrun|].
  destruct (ReadUint64Bits_little_endian 1 9 _ _ _ ltac:(lia) Hrun)
    as (evs & Hext & _ & Hval).
  unfold extends in Hext. simpl in Hext. subst evs. exact Hval.
Defined.

(** ** Reading from a bytes.Buffer *)

Lemma ReadFull_buffer_enough fuel (buf s : list byte) t :
  (0 < length buf <= length s)%nat ->
  ReadFull (S fuel) buf (World s t)
  = Ok (take (length buf) s, length buf, None)
      (World (drop (length buf) s)
         (t ++ [ReadEvent (length buf) (take (length buf) s) None])).
Proof.
  intros Hlen. unfold ReadFull, ReadAtLeast. rewrite Nat.ltb_irrefl.
  unfold bind. rewrite ReadAtLeast_loop_eq.
  destruct (Nat.ltb_spec 0 (length buf)) as [_|]; [|lia].
  cbn [andb is_nil]. unfold bind, do_read. cbn [src trace Read buffer_reader].
  rewrite Nat.sub_0_r. unfold buffer_Read.
  destruct s as [|b s]; [simpl in Hlen; lia|].
  set (s0 := b :: s) in *.
  rewrite ReadAtLeast_loop_eq.
  assert (Hchunk : length (take (length buf) s0) = length buf)
    by (rewrite length_take; lia).
  rewrite Nat.add_0_l, Hchunk, Nat.ltb_irrefl. cbn [andb]. unfold ret.
  rewrite Nat.leb_refl. f_equal. f_equal. f_equal.
  unfold store. rewrite Hchunk, Nat.sub_0_r, Nat.add_0_l.
  rewrite take_0, drop_all, app_nil_r. cbn [app].
  apply take_ge. lia.
Qed.

Lemma ReadFull_buffer_empty fuel (buf : list byte) t :
  (0 < length buf)%nat ->
  ReadFull (S fuel) buf (World [] t)
  = Ok (buf, 0%nat, Some EOF)
      (World [] (t ++ [ReadEvent (length buf) [] (Some EOF)])).
Proof.
  intros Hlen. unfold ReadFull, ReadAtLeast. rewrite Nat.ltb_irrefl.
  unfold bind. rewrite ReadAtLeast_loop_eq.
  destruct (Nat.ltb_spec 0 (length buf)) as [_|]; [|lia].
  cbn [andb is_nil]. unfold bind, do_read. cbn [src trace Read buffer_reader].
  rewrite Nat.sub_0_r. unfold buffer_Read.
  destruct (Nat.eqb_spec (length buf) 0) as [|_]; [lia|].
  assert (Hst : store buf 0 [] = buf).
  { unfold store. rewrite take_0, take_nil. reflexivity. }
  rewrite Hst, ReadAtLeast_loop_eq. cbn [is_nil]. rewrite andb_false_r.
  unfold ret. cbn [length]. rewrite Nat.add_0_r.
  destruct (Nat.leb_spec (length buf) 0) as [|_]; [lia|].
  reflexivity.
Qed.

Lemma ReadFull_buffer_short fuel (buf s : list byte) t :
  (0 < length s < length buf)%nat ->
  ReadFull (S (S fuel)) buf (World s t)
  = Ok (s ++ drop (length s) buf, length s, Some ErrUnexpectedEOF)
      (World []
         (t ++ [ReadEvent (length buf) s None;
                ReadEvent (length buf - length s) [] (Some EOF)])).
Proof.
  intros Hlen. unfold ReadFull, ReadAtLeast. rewrite Nat.ltb_irrefl.
  unfold bind. rewrite ReadAtLeast_loop_eq.
  destruct (Nat.ltb_spec 0 (length buf)) as [_|]; [|lia].
  cbn [andb is_nil]. unfold bind, do_read. cbn [src trace Read buffer_reader].
  rewrite Nat.sub_0_r. unfold buffer_Read.
  destruct s as [|b s]; [simpl in Hlen; lia|].
  set (s0 := b :: s) in *.
  rewrite (take_ge s0), (drop_ge s0) by lia.
  assert (Hst : store buf 0 s0 = s0 ++ drop (length s0) buf).
  { unfold store. rewrite take_0, Nat.sub_0_r, Nat.add_0_l.
    rewrite take_ge by lia. reflexivity. }
  rewrite Hst, Nat.add_0_l.
  rewrite ReadAtLeast_loop_eq.
  destruct (Nat.ltb_spec (length s0) (length buf)) as [_|]; [|lia].
  cbn [andb is_nil]. unfold bind, do_read. cbn [src trace Read buffer_reader].
  assert (Hlb : length (s0 ++ drop (length s0) buf) = length buf).
  { rewrite length_app, length_drop. lia. }
  rewrite Hlb. unfold buffer_Read.
  destruct (Nat.eqb_spec (length buf - length s0) 0) as [|_]; [lia|].
  assert (Hst2 : store (s0 ++ drop (length s0) buf) (length s0) []
                 = s0 ++ drop (length s0) buf).
  { unfold store. rewrite take_nil. cbn [app length].
    rewrite Nat.add_0_r. apply take_drop. }
  rewrite Hst2, ReadAtLeast_loop_eq. cbn [is_nil]. rewrite andb_false_r.
  unfold ret. cbn [length]. rewrite Nat.add_0_r.
  destruct (Nat.leb_spec (length buf) (length s0)) as [|_]; [lia|].
  destruct (Nat.ltb_spec 0 (length s0)) as [_|]; [|lia].
  cbn [andb is_EOF]. rewrite <- app_assoc. reflexivity.
Qed.

Lemma bytes_needed_pos n : 0 < n <= 64 -> (0 < bytes_needed n)%nat.
Proof.
  intros Hn. pose proof (bytes_needed_eq n ltac:(lia)).
  assert (1 <= (n + 7) / 8) by (apply Z.div_le_lower_bound; lia). lia.
Qed.

Lemma ReadUint64Bits_zero_bits {R : Type} `{Reader R} fuel (w : world R) :
  ReadUint64Bits fuel 0 w = Ok 0 w.
Proof.
  unfold ReadUint64Bits. simpl. unfold bind.
  rewrite ReadFull_nil. reflexivity.
Qed.

Lemma ReadUint64Bits_buffer_enough fuel n (s : list byte) t :
  0 < n <= 64 -> (bytes_needed n <= length s)%nat ->
  ReadUint64Bits (S fuel) n (World s t)
  = Ok (le_value (take (bytes_needed n) s) mod 2 ^ n)
      (World (drop (bytes_needed n) s)
         (t ++ [ReadEvent (bytes_needed n) (take (bytes_needed n) s) None])).
Proof.
  intros Hn Hlen.
  pose proof (bytes_needed_le n ltac:(lia)) as Hle.
  pose proof (bytes_needed_pos n Hn) as Hpos.
  unfold ReadUint64Bits. destruct (Z.ltb_spec 64 n); [lia|].
  assert (Hbuf : length (take (bytes_needed n) (replicate 8 x00))
                 = bytes_needed n).
  { rewrite length_take, length_replicate. lia. }
  unfold bind. rewrite ReadFull_buffer_enough by (rewrite Hbuf; lia).
  rewrite Hbuf. unfold ret. f_equal.
  apply extracted_value; [lia|]. rewrite length_take. lia.
Qed.

Lemma ReadUint64Bits_buffer_short fuel n (s : list byte) t :
  0 < n <= 64 -> (length s < bytes_needed n)%nat ->
  exists t',
    ReadUint64Bits (S (S fuel)) n (World s t)
    = Panic (PanicError (match s with [] => EOF | _ => ErrUnexpectedEOF end))
        (World [] t').
Proof.
  intros Hn Hlen.
  pose proof (bytes_needed_le n ltac:(lia)) as Hle.
  unfold ReadUint64Bits. destruct (Z.ltb_spec 64 n); [lia|].
  assert (Hbuf : length (take (bytes_needed n) (replicate 8 x00))
                 = bytes_needed n).
  { rewrite length_take, length_replicate. lia. }
  unfold bind. destruct s as [|b s].
  - rewrite ReadFull_buffer_empty by (rewrite Hbuf; lia).
    eexists. reflexivity.
  - rewrite ReadFull_buffer_short by (rewrite Hbuf; simpl in *; lia).
    eexists. reflexivity.
Qed.

(** ** Encoding and reading back *)

Lemma byte_to_of_Z z : byte_to_Z (byte_of_Z z) = z mod 256.
Proof.
  unfold byte_to_Z, byte_of_Z.
  pose proof (Z.mod_pos_bound z 256 ltac:(lia)) as Hm.
  destruct (Byte.of_N (Z.to_N (z mod 256))) as [y|] eqn:Hy; simpl.
  - apply Byte.to_of_N in Hy. rewrite Hy. lia.
  - apply Byte.of_N_None_iff in Hy. lia.
Qed.

Lemma length_le_bytes k v : length (le_bytes k v) = k.
Proof.
  revert v. induction k as [|k IH]; intros v; simpl; [|rewrite IH];
    reflexivity.
Qed.

Lemma le_value_le_bytes k :
  forall v, le_value (le_bytes k v) = v mod 2 ^ (8 * Z.of_nat k).
Proof.
  induction k as [|k IH]; intros v.
  - simpl. rewrite Z.mod_1_r. reflexivity.
  - cbn [le_bytes le_value]. rewrite byte_to_of_Z, IH.
    replace (8 * Z.of_nat (S k)) with (8 + 8 * Z.of_nat k) by lia.
    rewrite Z.pow_add_r by lia. change (2 ^ 8) with 256.
    rewrite Z.rem_mul_r by lia. reflexivity.
Qed.

(** X2. Round trip: a bytes.Buffer that starts with the ceil(n/8)
    little endian bytes of a value v below 2^n gives back v when n bits
    are read from it, and is left holding what followed those bytes. *)
Theorem ReadUint64Bits_reads_back
    (fuel : nat) (n v : Z) (rest : list byte) (t : list read_event) :
  0 <= n <= 64 -> 0 <= v < 2 ^ n ->
  exists t',
    ReadUint64Bits (S fuel) n
      (World (le_bytes (bytes_needed n) v ++ rest) t)
    = Ok v (World rest t').
Proof.
  intros Hn Hv. destruct (Z.eq_dec n 0) as [->|Hne].
  - exists t. change (bytes_needed 0) with 0%nat. simpl le_bytes.
    rewrite ReadUint64Bits_zero_bits. f_equal. simpl in Hv. lia.
  - pose proof (bytes_needed_eq n Hn) as Hk.
    set (bs := le_bytes (bytes_needed n) v).
    assert (Hlb : length bs = bytes_needed n) by apply length_le_bytes.
    eexists. rewrite ReadUint64Bits_buffer_enough;
      [|lia|rewrite length_app; lia].
    rewrite <- Hlb, take_app_length, drop_app_length.
    f_equal. unfold bs. rewrite le_value_le_bytes.
    pose proof (Z.div_mod (n + 7) 8 ltac:(lia)).
    pose proof (Z.mod_pos_bound (n + 7) 8 ltac:(lia)).
    assert (Hpow : 2 ^ n <= 2 ^ (8 * Z.of_nat (bytes_needed n)))
      by (apply Z.pow_le_mono_r; lia).
    rewrite (Z.mod_small v (2 ^ (8 * _))) by lia.
    apply Z.mod_small. exact Hv.
Qed.

Lemma ReadUint64Bits_reads_back_witness :
  le_bytes 2 0xabc = [xbc; x0a]
  /\ exists t',
      ReadUint64Bits 1 12 (World (le_bytes (bytes_needed 12) 0xabc ++ [x01]) [])
      = Ok 0xabc (World [x01] t').
Proof.
  split; [reflexivity|].
  exact (ReadUint64Bits_reads_back 0 12 0xabc [x01] []
           ltac:(lia) ltac:(lia)).
Defined.

(** X3. A bytes.Buffer holding fewer than the ceil(n/8) bytes needed
    makes ReadUint64Bits panic with the source's error: io.EOF when the
    buffer is empty, io.ErrUnexpectedEOF when it held some bytes; the
    bytes it held are consumed. *)
Theorem ReadUint64Bits_short_buffer
    (fuel : nat) (n : Z) (s : list byte) (t : list read_event) :
  0 < n <= 64 ->
  Z.of_nat (length s) < (n + 7) / 8 ->
  exists t',
    ReadUint64Bits (S (S fuel)) n (World s t)
    = Panic (PanicError (if decide (s = []) then EOF else ErrUnexpectedEOF))
        (World [] t')
    /\ bytes_read t' = bytes_read t ++ s.
Proof.
  intros Hn Hlen.
  pose proof (bytes_needed_eq n ltac:(lia)) as Hk.
  pose proof (bytes_needed_le n ltac:(lia)) as Hle.
  unfold ReadUint64Bits. destruct (Z.ltb_spec 64 n); [lia|].
  assert (Hbuf : length (take (bytes_needed n) (replicate 8 x00))
                 = bytes_needed n).
  { rewrite length_take, length_replicate. lia. }
  unfold bind. destruct s as [|b s].
  - rewrite ReadFull_buffer_empty by (rewrite Hbuf; lia).
    eexists. split; [reflexivity|].
    rewrite bytes_read_app. reflexivity.
  - rewrite ReadFull_buffer_short by (rewrite Hbuf; simpl in *; lia).
    eexists. split; [reflexivity|].
    rewrite bytes_read_app. unfold bytes_read at 2. simpl.
    rewrite !app_nil_r. reflexivity.
Qed.

(** TestUint64BitsSourceError, and a buffer one byte short *)
Lemma ReadUint64Bits_short_buffer_witness :
  exists t',
    ReadUint64Bits 2 16 (World [x12] [])
    = Panic (PanicError ErrUnexpectedEOF) (World [] t')
    /\ bytes_read t' = [x12].
Proof.
  exact (ReadUint64Bits_short_buffer 0 16 [x12] []
           ltac:(lia) ltac:(reflexivity)).
Defined.

(** ** minBytes is the least byte count *)

Lemma minBytes_tight n :
  0 <= n < 2 ^ 64 -> n <> 0 -> 2 ^ (8 * (minBytes n - 1)) <= n.
Proof.
  intros Hn Hne. minBytes_cases; try lia;
    match goal with
    | |- ?p <= _ => let v := eval vm_compute in p in change p with v
    end; lia.
Qed.

(** X4. minBytes(n) is the least number k of bytes with n < 256^k, and
    minBytes is monotone. *)
Theorem minBytes_least (n m k : Z) :
  is_uint64 n -> is_uint64 m -> 0 <= k ->
  (n < 2 ^ (8 * k) <-> minBytes n <= k)
  /\ (n <= m -> minBytes n <= minBytes m).
Proof.
  intros Hn Hm Hk.
  assert (Hleast : forall x j, is_uint64 x -> 0 <= j ->
                     (x < 2 ^ (8 * j) <-> minBytes x <= j)).
  { intros x j Hx Hj. pose proof (minBytes_range x) as Hr.
    pose proof (minBytes_fits x Hx) as Hfit. split.
    - intros Hlt. destruct (Z.le_gt_cases (minBytes x) j) as [|Hgt];
        [assumption|exfalso].
      assert (x <> 0).
      { intros ->. unfold minBytes in Hgt. simpl in Hgt. lia. }
      pose proof (minBytes_tight x Hx ltac:(assumption)).
      assert (2 ^ (8 * j) <= 2 ^ (8 * (minBytes x - 1)))
        by (apply Z.pow_le_mono_r; lia).
      lia.
    - intros Hle.
      assert (2 ^ (8 * minBytes x) <= 2 ^ (8 * j))
        by (apply Z.pow_le_mono_r; lia).
      lia. }
  split; [apply Hleast; assumption|].
  intros Hnm. pose proof (minBytes_range m).
  apply Hleast; [assumption|lia|].
  pose proof (minBytes_fits m Hm). lia.
Qed.

Lemma minBytes_least_witness :
  (0x10000 < 2 ^ (8 * 3) <-> minBytes 0x10000 <= 3)
  /\ (0x10000 <= 0x1000000 -> minBytes 0x10000 <= minBytes 0x1000000).
Proof.
  assert (H1 : is_uint64 0x10000) by (unfold is_uint64; lia).
  assert (H2 : is_uint64 0x1000000) by (unfold is_uint64; lia).
  exact (minBytes_least 0x10000 0x1000000 3 H1 H2 ltac:(lia)).
Defined.

(** ** ReadIntn is free of modulo bias *)

Lemma intn_fits n :
  0 < n < 2 ^ 63 -> n <= 2 ^ (minBytes (n - 1) * 8) <= 2 ^ 64.
Proof.
  intros Hn. pose proof (minBytes_range (n - 1)).
  pose proof (minBytes_fits (n - 1) ltac:(lia)) as Hf.
  rewrite Z.mul_comm in Hf. split; [lia|].
  apply Z.pow_le_mono_r; lia.
Qed.

(** the limit of the rejection path, on the true 2^bits *)
Lemma intn_limit_general n :
  0 < n < 2 ^ 63 -> Z.land n (n - 1) <> 0 ->
  let T := 2 ^ (minBytes (n - 1) * 8) in
  intn_limit n (minBytes (n - 1) * 8) = T - T mod n.
Proof.
  intros Hn Hnp T. pose proof (intn_fits n Hn) as Hfit. fold T in Hfit.
  unfold intn_limit, shl64. rewrite Z.shiftl_1_l. fold T.
  apply limit_wrapped; [lia|lia|].
  intros HT Hz. apply Hnp. apply pow2_test; [lia|].
  apply (divide_pow2 64); [lia|lia|].
  rewrite <- HT. apply Z.mod_divide; [lia|exact Hz].
Qed.

(** the residues of the multiples-of-[n] range [0, q*n) *)
Lemma residue_class n q v r :
  0 < n -> 0 <= q -> 0 <= v < n ->
  (0 <= r < q * n /\ r mod n = v)
  <-> exists t, 0 <= t < q /\ r = v + n * t.
Proof.
  intros Hn Hq Hv. split.
  - intros [Hr Hmod]. exists (r / n).
    pose proof (Z.div_mod r n ltac:(lia)) as Hdm.
    assert (0 <= r / n) by (apply Z.div_pos; lia).
    assert (r / n < q) by (apply Z.div_lt_upper_bound; lia).
    lia.
  - intros (t & Ht & ->). split; [nia|].
    replace (v + n * t) with (v + t * n) by lia.
    rewrite Z_mod_plus_full. apply Z.mod_small. exact Hv.
Qed.

Lemma intn_decide_eq n r :
  0 < n < 2 ^ 63 ->
  intn_decide n r =
  if Z.land n (n - 1) =? 0 then Some (r mod n)
  else if r <? intn_accepted n then Some (r mod n) else None.
Proof.
  intros Hn. unfold intn_decide, intn_accepted, sub64.
  rewrite (wrap64_small n), (wrap64_small (n - 1)) by lia.
  destruct (Z.eqb_spec (Z.land n (n - 1)) 0) as [Hp|Hnp].
  - f_equal. pose proof (land_pred_range r n ltac:(lia) Hp).
    rewrite to_int_small by lia.
    destruct (land_pred_zero_pow2 n ltac:(lia) Hp) as (k & Hk & ->).
    replace (2 ^ k - 1) with (Z.ones k) by (rewrite Z.ones_equiv; lia).
    apply Z.land_ones. exact Hk.
  - destruct (r <? _); [|reflexivity].
    f_equal. apply to_int_small.
    pose proof (Z.mod_pos_bound r n ltac:(lia)). lia.
Qed.

Lemma intn_accepted_multiple n :
  0 < n < 2 ^ 63 ->
  let T := 2 ^ (minBytes (n - 1) * 8) in
  (n | intn_accepted n) /\ T < 2 * intn_accepted n /\ intn_accepted n <= T
  /\ (Z.land n (n - 1) = 0 -> intn_accepted n = T).
Proof.
  intros Hn T. pose proof (intn_fits n Hn) as Hfit. fold T in Hfit.
  unfold intn_accepted, sub64.
  rewrite (wrap64_small n), (wrap64_small (n - 1)) by lia.
  pose proof (intn_bits_eq n Hn) as Hb.
  rewrite (wrap64_small n) in Hb by lia. rewrite Hb. fold T.
  destruct (Z.eqb_spec (Z.land n (n - 1)) 0) as [Hp|Hnp].
  - split; [|split; [lia|split; [lia|reflexivity]]].
    destruct (land_pred_zero_pow2 n ltac:(lia) Hp) as (k & Hk & ->).
    assert (k <= minBytes (2 ^ k - 1) * 8).
    { apply (Z.pow_le_mono_r_iff 2); [lia| |lia].
      pose proof (minBytes_range (2 ^ k - 1)). lia. }
    exists (2 ^ (minBytes (2 ^ k - 1) * 8 - k)).
    unfold T. rewrite <- Z.pow_add_r by lia. f_equal. lia.
  - rewrite (intn_limit_general n Hn Hnp). fold T.
    destruct (largest_multiple T n ltac:(lia) ltac:(lia))
      as (Hdiv & Hub & _ & Hhalf).
    split; [exact Hdiv|]. split; [exact Hhalf|]. split; [exact Hub|].
    intros Habs. contradiction.
Qed.

(** what ReadIntn makes of its first draw: the value [intn_decide] gives
    it, returned at once, or a new start on the rest of the source *)
Lemma ReadIntn_first_draw {R : Type} `{Reader R}
    (fuel : nat) (n : Z) (w w1 : world R) (r : Z) :
  0 < n < 2 ^ 63 ->
  ReadUint64Bits fuel (minBytes (n - 1) * 8) w = Ok r w1 ->
  match intn_decide n r with
  | Some x => ReadIntn (S fuel) n w = Ok x w1
  | None => ReadIntn (S fuel) n w = ReadIntn fuel n w1
  end.
Proof.
  intros Hn Hdraw.
  rewrite (ReadIntn_eq (S fuel)), (ReadIntn_eq fuel) by exact Hn.
  unfold intn_decide, sub64.
  rewrite (wrap64_small n), (wrap64_small (n - 1)) by lia.
  pose proof (intn_bits_eq n Hn) as Hb.
  rewrite (wrap64_small n) in Hb by lia. rewrite Hb.
  destruct (Z.land n (n - 1) =? 0).
  - assert (Hmore : ReadUint64Bits (S fuel) (minBytes (n - 1) * 8) w
                    = Ok r w1).
    { rewrite <- Hdraw. apply ReadUint64Bits_more_fuel; [lia|].
      rewrite Hdraw. discriminate. }
    unfold bind. rewrite Hmore. reflexivity.
  - cbn [ReadIntn_loop]. unfold bind. rewrite Hdraw.
    destruct (r <? intn_limit n (minBytes (n - 1) * 8)); reflexivity.
Qed.

(** X5. ReadIntn is free of modulo bias.  A draw r of the 2^bits
    possible ones is turned by ReadIntn into the value [intn_decide n r]
    and returned at once, or, where that is [None], discarded for a new
    start on the rest of the source.  The draws turned into a value v of
    [0, n) are v, v+n, v+2n, ...: the same number of them, accepted/n,
    for every v; accepted is a multiple of n and more than half of
    2^bits (all of it when n is a power of two). *)
Theorem intn_decide_unbiased {R : Type} `{Reader R}
    (fuel : nat) (n v : Z) (w : world R) :
  0 < n < 2 ^ 63 -> 0 <= v < n ->
  let bits := minBytes (n - 1) * 8 in
  let T := 2 ^ bits in
  let K := intn_accepted n / n in
  (forall r w1,
     ReadUint64Bits fuel bits w = Ok r w1 ->
     0 <= r < T
     /\ match intn_decide n r with
        | Some x => ReadIntn (S fuel) n w = Ok x w1
        | None => ReadIntn (S fuel) n w = ReadIntn fuel n w1
        end)
  /\ (forall r, 0 <= r < T ->
        (intn_decide n r = Some v <-> exists t, 0 <= t < K /\ r = v + n * t))
  /\ Z.of_nat (length (filter (fun r => intn_decide n r = Some v)
                              (seqZ 0 T))) = K
  /\ intn_accepted n = K * n
  /\ T < 2 * intn_accepted n.
Proof.
  intros Hn Hv bits T K.
  destruct (intn_accepted_multiple n Hn) as (Hdiv & Hhalf & Hub & Hpow).
  fold bits in Hhalf, Hub, Hpow. fold T in Hhalf, Hub, Hpow.
  assert (HK : intn_accepted n = K * n).
  { destruct Hdiv as [q Hq]. unfold K. rewrite Hq, Z.div_mul by lia.
    reflexivity. }
  assert (HK0 : 0 <= K) by (unfold K; apply Z.div_pos; lia).
  assert (Hchar : forall r, 0 <= r < T ->
     (intn_decide n r = Some v <-> exists t, 0 <= t < K /\ r = v + n * t)).
  { intros r Hr. rewrite intn_decide_eq by exact Hn.
    rewrite <- (residue_class n K v r) by lia. rewrite <- HK.
    destruct (Z.eqb_spec (Z.land n (n - 1)) 0) as [Hp|Hnp].
    - rewrite (Hpow Hp). split.
      + intros [= Hm]. split; assumption.
      + intros [_ Hm]. rewrite Hm. reflexivity.
    - destruct (Z.ltb_spec r (intn_accepted n)); split.
      + intros [= Hm]. split; [lia|assumption].
      + intros [_ Hm]. rewrite Hm. reflexivity.
      + discriminate.
      + intros [Hlt _]. lia. }
  split; [|split; [exact Hchar|]].
  { intros r w1 Hdraw. split.
    - pose proof (minBytes_range (n - 1)) as Hmb.
      pose proof Hdraw as Hok. apply ReadUint64Bits_Ok in Hok.
      destruct Hok as (_ & buf & k & evs & _ & -> & _ & _).
      apply masked_range. unfold bits. lia.
    - apply ReadIntn_first_draw; assumption. }
  split; [|split; [exact HK|exact Hhalf]].
  assert (Hperm : filter (fun r => intn_decide n r = Some v) (seqZ 0 T)
                  ≡ₚ (fun t => v + n * t) <$> seqZ 0 K).
  { apply NoDup_Permutation.
    - apply NoDup_filter, NoDup_seqZ.
    - apply NoDup_fmap_2; [|apply NoDup_seqZ].
      intros a b Hab. nia.
    - intros r. rewrite list_elem_of_filter, list_elem_of_fmap.
      rewrite seqZ_bounds. split.
      + intros [Hd Hr]. apply Hchar in Hd; [|exact Hr].
        destruct Hd as (t & Ht & ->). exists t.
        split; [reflexivity|]. apply seqZ_bounds. exact Ht.
      + intros (t & -> & Ht). apply seqZ_bounds in Ht.
        assert (0 <= v + n * t < T) by nia.
        split; [|assumption]. apply Hchar; [assumption|].
        exists t. split; [exact Ht|reflexivity]. }
  rewrite Hperm, length_fmap, length_seqZ. lia.
Qed.

(** the example of the source comment: N = 65, M = 256, limit = 195;
    three draws (64, 129, 194) give 64: the byte 0xc2 = 194 is returned
    as 64, the byte 0xff is discarded *)
Lemma intn_decide_unbiased_witness :
  ReadIntn 3 65 (start [xc2; x07])
  = Ok 64 (World [x07] [ReadEvent 1 [xc2] None])
  /\ ReadIntn 3 65 (start [xff; xc2; x07])
     = ReadIntn 2 65 (World [xc2; x07] [ReadEvent 1 [xff] None])
  /\ intn_accepted 65 = 195
  /\ Z.of_nat (length (filter (fun r => intn_decide 65 r = Some 64)
                              (seqZ 0 (2 ^ (minBytes (65 - 1) * 8)))))
     = intn_accepted 65 / 65.
Proof.
  assert (Hn : 0 < 65 < 2 ^ 63) by lia.
  assert (Hv : 0 <= 64 < 65) by lia.
  split; [|split; [|split; [reflexivity|]]].
  - assert (Hdraw : ReadUint64Bits 2 (minBytes (65 - 1) * 8)
                      (start [xc2; x07])
                    = Ok 194 (World [x07] [ReadEvent 1 [xc2] None]))
      by reflexivity.
    exact (proj2 (proj1
      (intn_decide_unbiased 2 65 64 (start [xc2; x07]) Hn Hv) _ _ Hdraw)).
  - assert (Hdraw : ReadUint64Bits 2 (minBytes (65 - 1) * 8)
                      (start [xff; xc2; x07])
                    = Ok 255 (World [xc2; x07] [ReadEvent 1 [xff] None]))
      by reflexivity.
    exact (proj2 (proj1
      (intn_decide_unbiased 2 65 64 (start [xff; xc2; x07]) Hn Hv)
      _ _ Hdraw)).
  - exact (proj1 (proj2 (proj2
      (intn_decide_unbiased 2 65 64 (start [x07]) Hn Hv)))).
Defined.

(** ** The draws of ReadIntn *)

Section IntnRun.
Context {R : Type} `{Reader R}.

Lemma extractions_one fuel bits (w w' : world R) r :
  ReadUint64Bits fuel bits w = Ok r w' -> extractions bits w [r] w'.
Proof. intros Hr. econstructor; [exact Hr|constructor]. Qed.

Lemma ReadIntn_loop_run fuel :
  forall bits N limit (w : world R) v w',
    0 <= bits <= 64 ->
    ReadIntn_loop fuel bits N limit w = Ok v w' ->
    exists rs r evs,
      extractions bits w (rs ++ [r]) w'
      /\ Forall (fun x => limit <= x) rs
      /\ r < limit /\ v = to_int (r mod N)
      /\ extends w w' evs
      /\ Z.of_nat (length (bytes_read evs))
         = (Z.of_nat (length rs) + 1) * ((bits + 7) / 8).
Proof.
  induction fuel as [|fuel IH]; intros bits N limit w v w' Hbits; simpl;
    [discriminate|].
  intros Hb. apply bind_Ok in Hb. destruct Hb as (r & w1 & Hdraw & Hk).
  destruct (ReadUint64Bits_consumes fuel bits w r w1 ltac:(lia) Hdraw)
    as (evs1 & Hext1 & Hlen1).
  destruct (Z.ltb_spec r limit) as [Hlt|Hge].
  - injection Hk as <- <-. exists [], r, evs1.
    split; [apply (extractions_one fuel); exact Hdraw|].
    split; [constructor|]. repeat split; try assumption.
    simpl. lia.
  - apply IH in Hk; [|exact Hbits].
    destruct Hk as (rs & r' & evs & Hex & Hrej & Hacc & Hv & Hext & Hlen).
    exists (r :: rs), r', (evs1 ++ evs).
    split; [econstructor; eassumption|].
    split; [constructor; assumption|].
    split; [exact Hacc|]. split; [exact Hv|].
    split; [exact (extends_trans _ _ _ _ _ Hext1 Hext)|].
    rewrite bytes_read_app, length_app. cbn [length]. lia.
Qed.

Lemma extractions_range bits (w w' : world R) rs :
  0 <= bits <= 64 -> extractions bits w rs w' ->
  Forall (fun r => 0 <= r < 2 ^ bits) rs.
Proof.
  intros Hbits Hex. induction Hex as [|fuel w r w1 rs w' Hdraw _ IH];
    constructor; [|exact IH].
  apply ReadUint64Bits_Ok in Hdraw.
  destruct Hdraw as (_ & buf & k & evs & _ & -> & _ & _).
  apply masked_range. exact Hbits.
Qed.

End IntnRun.

(** X6. A run of ReadIntn that returns v made one or more draws of
    minBytes(n-1)*8 bits: every draw but the last was discarded, the
    last one was turned into v; the bytes read are minBytes(n-1) per
    draw. *)
Theorem ReadIntn_draws {R : Type} `{Reader R}
    (fuel : nat) (n : Z) (w w' : world R) (v : Z) :
  0 < n < 2 ^ 63 ->
  ReadIntn fuel n w = Ok v w' ->
  let bits := minBytes (n - 1) * 8 in
  exists rs r evs,
    extractions bits w (rs ++ [r]) w'
    /\ Forall (fun x => 0 <= x < 2 ^ bits) (rs ++ [r])
    /\ Forall (fun x => intn_decide n x = None) rs
    /\ intn_decide n r = Some v
    /\ extends w w' evs
    /\ Z.of_nat (length (bytes_read evs))
       = (Z.of_nat (length rs) + 1) * minBytes (n - 1).
Proof.
  intros Hn Hrun bits.
  pose proof (minBytes_range (n - 1)) as Hk.
  assert (Hbits : 0 <= bits <= 64) by (unfold bits; lia).
  assert (Hbytes : (bits + 7) / 8 = minBytes (n - 1)).
  { unfold bits. symmetry. apply Z.div_unique with (r := 7); lia. }
  assert (Hacc : intn_accepted n
                 = if Z.land n (n - 1) =? 0 then 2 ^ bits
                   else intn_limit n bits).
  { unfold intn_accepted, sub64.
    pose proof (intn_bits_eq n Hn) as Hb.
    rewrite (wrap64_small n) in Hb |- * by lia.
    rewrite (wrap64_small (n - 1)), Hb by lia. reflexivity. }
  rewrite ReadIntn_eq in Hrun by exact Hn. fold bits in Hrun.
  destruct (Z.eqb_spec (Z.land n (n - 1)) 0) as [Hp|Hnp].
  - apply bind_Ok in Hrun. destruct Hrun as (r & w1 & Hdraw & Hret).
    injection Hret as <- <-.
    destruct (ReadUint64Bits_consumes fuel bits w r w1 ltac:(lia) Hdraw)
      as (evs & Hext & Hlen).
    pose proof (extractions_one _ _ _ _ _ Hdraw) as Hex.
    exists [], r, evs. split; [exact Hex|].
    split; [exact (extractions_range _ _ _ _ Hbits Hex)|].
    split; [constructor|]. split; [|split; [exact Hext|simpl; lia]].
    rewrite intn_decide_eq by exact Hn.
    destruct (Z.eqb_spec (Z.land n (n - 1)) 0) as [_|]; [|contradiction].
    f_equal. pose proof (land_pred_range r n ltac:(lia) Hp).
    rewrite to_int_small by lia. symmetry.
    destruct (land_pred_zero_pow2 n ltac:(lia) Hp) as (k & Hk0 & ->).
    replace (2 ^ k - 1) with (Z.ones k) by (rewrite Z.ones_equiv; lia).
    apply Z.land_ones. exact Hk0.
  - apply ReadIntn_loop_run in Hrun; [|exact Hbits].
    destruct Hrun as (rs & r & evs & Hex & Hrej & Hlt & -> & Hext & Hlen).
    exists rs, r, evs. split; [exact Hex|].
    split; [exact (extractions_range _ _ _ _ Hbits Hex)|].
    assert (Hdec : forall x, intn_decide n x
                   = if x <? intn_limit n bits then Some (x mod n)
                     else None).
    { intros x. rewrite intn_decide_eq by exact Hn. rewrite Hacc.
      destruct (Z.eqb_spec (Z.land n (n - 1)) 0); [contradiction|].
      reflexivity. }
    split; [|split; [|split; [exact Hext|lia]]].
    + eapply Forall_impl; [exact Hrej|]. intros x Hx. simpl in Hx.
      rewrite Hdec. destruct (Z.ltb_spec x (intn_limit n bits)); [lia|].
      reflexivity.
    + rewrite Hdec. destruct (Z.ltb_spec r (intn_limit n bits)); [|lia].
      f_equal. symmetry. apply to_int_small.
      pose proof (Z.mod_pos_bound r n ltac:(lia)). lia.
Qed.

(** N = 65: 0xff and 0xc3 are discarded, 0xc2 = 194 gives 64 *)
Lemma ReadIntn_draws_witness :
  ReadIntn 4 65 (start [xff; xc3; xc2; x05])
  = Ok 64 (World [x05]
      [ReadEvent 1 [xff] None; ReadEvent 1 [xc3] None;
       ReadEvent 1 [xc2] None])
  /\ intn_decide 65 0xff = None /\ intn_decide 65 0xc3 = None
  /\ intn_decide 65 0xc2 = Some 64
  /\ exists rs r evs,
      extractions (minBytes (65 - 1) * 8) (start [xff; xc3; xc2; x05])
        (rs ++ [r])
        (World [x05]
           [ReadEvent 1 [xff] None; ReadEvent 1 [xc3] None;
            ReadEvent 1 [xc2] None])
      /\ Forall (fun x => intn_decide 65 x = None) rs
      /\ intn_decide 65 r = Some 64
      /\ Z.of_nat (length (bytes_read evs))
         = (Z.of_nat (length rs) + 1) * minBytes (65 - 1).
Proof.
  assert (Hrun : ReadIntn 4 65 (start [xff; xc3; xc2; x05])
                 = Ok 64 (World [x05]
                     [ReadEvent 1 [xff] None; ReadEvent 1 [xc3] None;
                      ReadEvent 1 [xc2] None])) by reflexivity.
  split; [exact Hrun|]. repeat (split; [reflexivity|]).
  destruct (ReadIntn_draws 4 65 _ _ 64 ltac:(lia) Hrun)
    as (rs & r & evs & Hex & _ & Hrej & Hacc & _ & Hlen).
  exists rs, r, evs. repeat split; assumption.
Defined.

(** ** Panics of ReadPerm and ReadSample *)

Lemma source_error_app e evs1 evs :
  source_error e evs -> source_error e (evs1 ++ evs).
Proof.
  intros (ev & Hlast & Hev). exists ev. split; [|exact Hev].
  rewrite last_app, Hlast. reflexivity.
Qed.

Section PanicFacts.
Context {R : Type} `{Reader R}.

Lemma source_panic_later (w w1 w' : world R) evs1 p :
  extends w w1 evs1 -> source_panic w1 w' p -> source_panic w w' p.
Proof.
  intros Hext (e & evs & -> & Hext' & Hsrc).
  exists e, (evs1 ++ evs). split; [reflexivity|].
  split; [exact (extends_trans _ _ _ _ _ Hext Hext')|].
  apply source_error_app. exact Hsrc.
Qed.

Lemma index_in_range (m : list Z) j (w : world R) :
  0 <= j < Z.of_nat (length m) -> index m j w = Ok (m !!! Z.to_nat j) w.
Proof.
  intros Hj. unfold index.
  destruct (Z.ltb_spec j 0); [lia|].
  destruct (Z.leb_spec (Z.of_nat (length m)) j); [lia|]. reflexivity.
Qed.

Lemma assign_in_range (m : list Z) i v (w : world R) :
  0 <= i < Z.of_nat (length m) ->
  assign m i v w = Ok (<[Z.to_nat i := v]> m) w.
Proof.
  intros Hi. unfold assign.
  destruct (Z.ltb_spec i 0); [lia|].
  destruct (Z.leb_spec (Z.of_nat (length m)) i); [lia|]. reflexivity.
Qed.

Lemma ReadIntn_extends fuel n (w : world R) v w' :
  ReadIntn fuel n w = Ok v w' -> exists evs, extends w w' evs.
Proof.
  unfold ReadIntn. destruct (n <=? 0); [discriminate|].
  pose proof (intn_bits_range (wrap64 n)) as Hbits.
  destruct (Z.land (wrap64 n) (sub64 (wrap64 n) 1) =? 0).
  - intros Hb. apply bind_Ok in Hb. destruct Hb as (r & w1 & Hdraw & Hret).
    injection Hret as _ <-.
    destruct (ReadUint64Bits_consumes fuel (intn_bits (wrap64 n)) w r w1
                ltac:(lia) Hdraw) as (evs & Hext & _).
    exists evs. exact Hext.
  - intros Hl. apply ReadIntn_loop_run in Hl; [|exact Hbits].
    destruct Hl as (rs & r & evs & _ & _ & _ & _ & Hext & _).
    exists evs. exact Hext.
Qed.

Lemma ReadIntn_source_panic fuel n (w : world R) p w' :
  0 < n -> ReadIntn fuel n w = Panic p w' -> source_panic w w' p.
Proof.
  intros Hn Hp. apply ReadIntn_Panic in Hp.
  destruct Hp as [(Hle & _)|(_ & Hsrc)]; [lia|exact Hsrc].
Qed.

Lemma ReadPerm_loop_Panic fuel todo :
  forall i n m (w : world R) p w',
    0 <= i -> n < 2 ^ 63 -> Z.of_nat (length m) = n ->
    ReadPerm_loop fuel todo i n m w = Panic p w' ->
    source_panic w w' p.
Proof.
  induction todo as [|todo IH]; intros i n m w p w' Hi Hn Hlen;
    rewrite ReadPerm_loop_eq; destruct (Z.ltb_spec i n) as [Hlt|Hge];
    try discriminate.
  assert (Hsucc : int_succ i = i + 1).
  { unfold int_succ. apply to_int_small. lia. }
  rewrite Hsucc. intros Hb.
  apply bind_Panic in Hb. destruct Hb as [Hb|(j & w1 & Hdraw & Hb)].
  { apply (ReadIntn_source_panic fuel (i + 1)); [lia|exact Hb]. }
  assert (Hj : 0 <= j < i + 1).
  { apply (ReadIntn_range fuel (i + 1) w j w1); [lia|exact Hdraw]. }
  destruct (ReadIntn_extends _ _ _ _ _ Hdraw) as (evs1 & Hext1).
  apply (source_panic_later w w1 w' evs1); [exact Hext1|].
  unfold bind in Hb.
  rewrite index_in_range in Hb by lia.
  rewrite assign_in_range in Hb by lia.
  rewrite assign_in_range in Hb by (rewrite length_insert; lia).
  apply IH in Hb; [exact Hb|lia|exact Hn|].
  rewrite !length_insert. exact Hlen.
Qed.

Lemma ReadSample_loop_Panic fuel :
  forall n k sample cache (w : world R) p w',
    k <= Z.quot n 2 -> 0 <= Z.of_nat (length sample) ->
    ReadSample_loop fuel n k sample cache w = Panic p w' ->
    source_panic w w' p.
Proof.
  induction fuel as [|fuel IH]; intros n k sample cache w p w' Hk Hs;
    rewrite ReadSample_loop_eq;
    destruct (Z.ltb_spec (Z.of_nat (length sample)) k) as [Hlt|Hge];
    try discriminate.
  assert (Hn : 0 < n).
  { destruct (Z.le_gt_cases n 0) as [Hle|]; [|assumption].
    pose proof (Z.quot_opp_l n 2 ltac:(lia)).
    assert (0 <= Z.quot (- n) 2) by (apply Z.quot_pos; lia). lia. }
  intros Hb. apply bind_Panic in Hb.
  destruct Hb as [Hb|(r & w1 & Hdraw & Hb)].
  { apply (ReadIntn_source_panic fuel n); assumption. }
  destruct (ReadIntn_extends _ _ _ _ _ Hdraw) as (evs1 & Hext1).
  apply (source_panic_later w w1 w' evs1); [exact Hext1|].
  destruct (bool_decide (r ∈ cache)); apply IH in Hb; try assumption; lia.
Qed.

End PanicFacts.

(** X7. With n >= 0 and k >= 0 a panic of ReadPerm or of ReadSample is
    one of two things.  Either [make] was refused its size, which happens
    before anything is read and exactly when the slice would take more
    than [maxAlloc] bytes: "len out of range" for the n elements of
    ReadPerm (also when ReadSample takes the dense path) and "cap out of
    range" for the k elements of the sparse path of ReadSample.  Or the
    source failed, and the panic carries the error of its last [Read].
    No index or slice bound goes out of range and ReadIntn is never given
    an invalid argument. *)
Theorem ReadPerm_ReadSample_panic_from_source {R : Type} `{Reader R}
    (fuel : nat) (n k : Z) (w w' : world R) (p : panic) :
  0 <= n -> 0 <= k ->
  (ReadPerm fuel n w = Panic p w' ->
   (maxAlloc < int_size * n
    /\ p = PanicRuntime "makeslice: len out of range" /\ w' = w)
   \/ (int_size * n <= maxAlloc /\ source_panic w w' p))
  /\ (ReadSample fuel n k w = Panic p w' ->
      (Z.quot n 2 < k /\ maxAlloc < int_size * n
       /\ p = PanicRuntime "makeslice: len out of range" /\ w' = w)
      \/ (k <= Z.quot n 2 /\ maxAlloc < int_size * k
          /\ p = PanicRuntime "makeslice: cap out of range" /\ w' = w)
      \/ source_panic w w' p)
  /\ (maxAlloc < int_size * n ->
      ReadPerm fuel n w
      = Panic (PanicRuntime "makeslice: len out of range") w
      /\ (Z.quot n 2 < k ->
          ReadSample fuel n k w
          = Panic (PanicRuntime "makeslice: len out of range") w))
  /\ (maxAlloc < int_size * k -> k <= Z.quot n 2 ->
      ReadSample fuel n k w
      = Panic (PanicRuntime "makeslice: cap out of range") w).
Proof.
  intros Hn Hk.
  assert (Hperm : forall q w1,
            ReadPerm fuel n w = Panic q w1 ->
            (maxAlloc < int_size * n
             /\ q = PanicRuntime "makeslice: len out of range" /\ w1 = w)
            \/ (int_size * n <= maxAlloc /\ source_panic w w1 q)).
  { intros q w1. unfold ReadPerm.
    destruct (makeslice_refuses n) eqn:Hm.
    - apply makeslice_refuses_true in Hm.
      intros [= <- <-]. left. split; [lia|]. split; reflexivity.
    - pose proof (makeslice_accepted_small n Hm) as Hsmall.
      apply makeslice_refuses_false in Hm.
      intros Hloop. right. split; [lia|].
      revert Hloop. apply ReadPerm_loop_Panic; [lia|lia|].
      rewrite length_replicate. lia. }
  assert (Hbig : maxAlloc < int_size * n ->
            ReadPerm fuel n w
            = Panic (PanicRuntime "makeslice: len out of range") w).
  { intros Hgt. unfold ReadPerm.
    assert (Hm : makeslice_refuses n = true)
      by (apply makeslice_refuses_true; right; exact Hgt).
    rewrite Hm. reflexivity. }
  assert (Hq0 : 0 <= Z.quot n 2) by (apply Z.quot_pos; lia).
  assert (Hhalf : 0 < n -> Z.quot n 2 < n).
  { intros Hpos. rewrite Z.quot_div_nonneg by lia. apply Z.div_lt; lia. }
  assert (Hk' : (if n <? k then n else k) = Z.min k n).
  { destruct (Z.ltb_spec n k); lia. }
  split; [apply Hperm|]. split; [|split].
  - unfold ReadSample. rewrite Hk'.
    destruct (Z.ltb_spec (Z.quot n 2) (Z.min k n)) as [Hdense|Hsparse].
    + intros Hb. apply bind_Panic in Hb.
      destruct Hb as [Hb|(m & w1 & Hrun & Hb)].
      * apply Hperm in Hb.
        destruct Hb as [(Hgt & -> & ->)|(_ & Hsrc)].
        -- left. split; [lia|]. split; [exact Hgt|]. split; reflexivity.
        -- right. right. exact Hsrc.
      * exfalso.
        assert (Hm : makeslice_refuses n = false).
        { destruct (makeslice_refuses n) eqn:Hm; [|reflexivity].
          apply makeslice_refuses_true in Hm.
          rewrite Hbig in Hrun by lia. discriminate Hrun. }
        pose proof (makeslice_accepted_small n Hm) as Hsmall.
        destruct (ReadPerm_seqZ fuel n w w1 m Hsmall Hrun) as [Hlen _].
        unfold slice_to in Hb.
        destruct (Z.ltb_spec (Z.min k n) 0); [lia|].
        destruct (Z.ltb_spec (Z.of_nat (length m)) (Z.min k n)); [lia|].
        discriminate Hb.
    + destruct (makeslice_refuses (Z.min k n)) eqn:Hm.
      * apply makeslice_refuses_true in Hm.
        assert (Hnpos : 0 < n).
        { destruct (Z.eq_dec n 0) as [->|]; [|lia].
          rewrite Z.min_r in Hm by lia.
          unfold maxAlloc, int_size in Hm. lia. }
        specialize (Hhalf Hnpos).
        rewrite Z.min_l in Hm, Hsparse by lia.
        intros [= <- <-]. right. left.
        split; [exact Hsparse|]. split; [lia|]. split; reflexivity.
      * intros Hloop. right. right. revert Hloop.
        apply ReadSample_loop_Panic; [exact Hsparse|simpl; lia].
  - intros Hgt. split; [exact (Hbig Hgt)|]. intros Hdense.
    assert (Hnpos : 0 < n) by (unfold maxAlloc, int_size in Hgt; lia).
    specialize (Hhalf Hnpos).
    unfold ReadSample. rewrite Hk'.
    destruct (Z.ltb_spec (Z.quot n 2) (Z.min k n)); [|lia].
    unfold bind. rewrite (Hbig Hgt). reflexivity.
  - intros Hgt Hsparse.
    assert (Hkn : k <= n).
    { destruct (Z.eq_dec n 0) as [->|]; [|specialize (Hhalf ltac:(lia)); lia].
      change (Z.quot 0 2) with 0 in Hsparse. lia. }
    unfold ReadSample. rewrite Hk'. rewrite Z.min_l by lia.
    destruct (Z.ltb_spec (Z.quot n 2) k); [lia|].
    assert (Hm : makeslice_refuses k = true)
      by (apply makeslice_refuses_true; right; exact Hgt).
    rewrite Hm. reflexivity.
Qed.

(** a buffer that runs dry in the last step of a permutation of 3, and a
    permutation of 2^61 elements, which [make] refuses *)
Lemma ReadPerm_ReadSample_panic_from_source_witness :
  (ReadPerm 4 3 (start [x01])
   = Panic (PanicError EOF)
       (World [] [ReadEvent 1 [x01] None; ReadEvent 1 [] (Some EOF)])
   /\ source_panic (start [x01])
        (World [] [ReadEvent 1 [x01] None; ReadEvent 1 [] (Some EOF)])
        (PanicError EOF))
  /\ ReadPerm 4 (2 ^ 61) (start [x01])
     = Panic (PanicRuntime "makeslice: len out of range") (start [x01])
  /\ ReadSample 4 (2 ^ 61) (2 ^ 61) (start [x01])
     = Panic (PanicRuntime "makeslice: len out of range") (start [x01])
  /\ ReadSample 4 (2 ^ 61) (2 ^ 46) (start [x01])
     = Panic (PanicRuntime "makeslice: cap out of range") (start [x01]).
Proof.
  assert (Hbig : maxAlloc < int_size * 2 ^ 61) by reflexivity.
  assert (Hcap : maxAlloc < int_size * 2 ^ 46) by reflexivity.
  assert (Hn : 0 <= 2 ^ 61) by lia.
  split; [|split; [|split]].
  - assert (Hrun : ReadPerm 4 3 (start [x01])
      = Panic (PanicError EOF)
          (World [] [ReadEvent 1 [x01] None; ReadEvent 1 [] (Some EOF)]))
      by reflexivity.
    split; [exact Hrun|].
    destruct (proj1 (ReadPerm_ReadSample_panic_from_source 4 3 0 _ _ _
                       ltac:(lia) ltac:(lia)) Hrun)
      as [(Hgt & _)|(_ & Hsrc)]; [|exact Hsrc].
    exfalso. revert Hgt. vm_compute. discriminate.
  - exact (proj1 (proj1 (proj2 (proj2
      (ReadPerm_ReadSample_panic_from_source 4 (2 ^ 61) (2 ^ 61)
         (start [x01]) (start [x01]) (PanicError EOF) Hn Hn))) Hbig)).
  - refine (proj2 (proj1 (proj2 (proj2
      (ReadPerm_ReadSample_panic_from_source 4 (2 ^ 61) (2 ^ 61)
         (start [x01]) (start [x01]) (PanicError EOF) Hn Hn))) Hbig) _).
    vm_compute. reflexivity.
  - refine (proj2 (proj2 (proj2
      (ReadPerm_ReadSample_panic_from_source 4 (2 ^ 61) (2 ^ 46)
         (start [x01]) (start [x01]) (PanicError EOF)
         Hn ltac:(lia)))) Hcap _).
    vm_compute. discriminate.
Defined.

(** X8. A negative n makes ReadPerm panic in [make], and a negative n
    or k makes ReadSample panic in [make], before anything is read from
    the source. *)
Theorem negative_size_panics {R : Type} `{Reader R}
    (fuel : nat) (n k : Z) (w : world R) :
  (n < 0 ->
   ReadPerm fuel n w = Panic (PanicRuntime "makeslice: len out of range") w)
  /\ (n < 0 \/ k < 0 ->
      ReadSample fuel n k w
      = Panic (PanicRuntime "makeslice: cap out of range") w).
Proof.
  split.
  - intros Hn. unfold ReadPerm.
    assert (Hm : makeslice_refuses n = true)
      by (apply makeslice_refuses_true; left; exact Hn).
    rewrite Hm. reflexivity.
  - intros Hneg. unfold ReadSample.
    assert (Hk' : (if n <? k then n else k) = Z.min k n).
    { destruct (Z.ltb_spec n k); lia. }
    rewrite Hk'. clear Hk'.
    assert (Hq : Z.min k n <= Z.quot n 2).
    { destruct (Z.le_gt_cases 0 n) as [Hpos|Hn].
      - assert (0 <= Z.quot n 2) by (apply Z.quot_pos; lia). lia.
      - pose proof (Z.quot_opp_l n 2 ltac:(lia)) as Hopp.
        assert (Z.quot (- n) 2 <= - n).
        { rewrite Z.quot_div_nonneg by lia.
          apply Z.div_le_upper_bound; lia. }
        lia. }
    destruct (Z.ltb_spec (Z.quot n 2) (Z.min k n)); [lia|].
    assert (Hm : makeslice_refuses (Z.min k n) = true)
      by (apply makeslice_refuses_true; left; lia).
    rewrite Hm. reflexivity.
Qed.

Lemma negative_size_panics_witness :
  ReadPerm 0 (-1) (start [x01])
  = Panic (PanicRuntime "makeslice: len out of range") (start [x01])
  /\ ReadSample 0 5 (-2) (start [x01])
     = Panic (PanicRuntime "makeslice: cap out of range") (start [x01]).
Proof.
  split.
  - apply (proj1 (negative_size_panics 0 (-1) 0 (start [x01]))). lia.
  - apply (proj2 (negative_size_panics 0 5 (-2) (start [x01]))). right. lia.
Defined.

(** ** ReadSample on top of ReadPerm; degenerate sizes *)

Section SampleCompose.
Context {R : Type} `{Reader R}.

Lemma ReadIntn_of_one fuel (w : world R) : ReadIntn fuel 1 w = Ok 0 w.
Proof.
  unfold ReadIntn. simpl. unfold bind.
  change (intn_bits (wrap64 1)) with 0.
  rewrite ReadUint64Bits_zero_bits. reflexivity.
Qed.

Lemma ReadPerm_of_zero fuel (w : world R) : ReadPerm fuel 0 w = Ok [] w.
Proof. reflexivity. Qed.

Lemma ReadPerm_of_one fuel (w : world R) : ReadPerm fuel 1 w = Ok [0] w.
Proof.
  unfold ReadPerm. simpl. unfold bind.
  change (int_succ 0) with 1. rewrite ReadIntn_of_one. reflexivity.
Qed.

Lemma ReadSample_loop_done fuel n k sample cache (w : world R) :
  k <= Z.of_nat (length sample) ->
  ReadSample_loop fuel n k sample cache w = Ok sample w.
Proof.
  intros Hk. rewrite ReadSample_loop_eq.
  destruct (Z.ltb_spec (Z.of_nat (length sample)) k); [lia|reflexivity].
Qed.

End SampleCompose.

(** X9. When more than half of the range is asked for (k > n/2),
    ReadSample is ReadPerm followed by a cut to k elements, outcome for
    outcome; when k >= n it is ReadPerm itself. *)
Theorem ReadSample_dense_is_ReadPerm {R : Type} `{Reader R}
    (fuel : nat) (n k : Z) (w : world R) :
  0 <= n < 2 ^ 63 -> 0 <= k -> Z.quot n 2 < k ->
  ReadSample fuel n k w
  = (let* m := ReadPerm fuel n in ret (take (Z.to_nat k) m)) w
  /\ (n <= k -> ReadSample fuel n k w = ReadPerm fuel n w).
Proof.
  intros Hn Hk Hdense.
  assert (Hcut : ReadSample fuel n k w
    = (let* m := ReadPerm fuel n in ret (take (Z.to_nat k) m)) w).
  { unfold ReadSample.
    assert (Hk' : (if n <? k then n else k) = Z.min k n).
    { destruct (Z.ltb_spec n k); lia. }
    rewrite Hk'. clear Hk'.
    destruct (Z.eq_dec n 0) as [->|Hn0].
    - rewrite Z.min_r by lia. unfold bind.
      rewrite ReadPerm_of_zero. simpl.
      rewrite ReadSample_loop_done by (simpl; lia).
      rewrite take_nil. reflexivity.
    - assert (Z.quot n 2 < n).
      { rewrite Z.quot_div_nonneg by lia.
        apply Z.div_lt_upper_bound; lia. }
      destruct (Z.ltb_spec (Z.quot n 2) (Z.min k n)); [|lia].
      unfold bind.
      destruct (ReadPerm fuel n w) as [m w1| |] eqn:Hrun; try reflexivity.
      destruct (ReadPerm_seqZ fuel n w w1 m Hn Hrun) as [Hlen _].
      unfold slice_to.
      destruct (Z.ltb_spec (Z.min k n) 0); [lia|].
      destruct (Z.ltb_spec (Z.of_nat (length m)) (Z.min k n)); [lia|].
      cbn [orb]. unfold ret. f_equal.
      destruct (Z.le_gt_cases k n).
      + rewrite Z.min_l by lia. reflexivity.
      + rewrite Z.min_r by lia. rewrite !take_ge by lia. reflexivity. }
  split; [exact Hcut|].
  intros Hge. rewrite Hcut. unfold bind.
  destruct (ReadPerm fuel n w) as [m w1| |] eqn:Hrun; try reflexivity.
  destruct (ReadPerm_seqZ fuel n w w1 m Hn Hrun) as [Hlen _].
  unfold ret. rewrite take_ge by lia. reflexivity.
Qed.

Lemma ReadSample_dense_is_ReadPerm_witness :
  ReadSample 4 5 7 (start [xff; xc3; xc2; x05])
  = ReadPerm 4 5 (start [xff; xc3; xc2; x05])
  /\ value (ReadSample 4 5 3 (start [xff; xc3; xc2; x05]))
     = Some [4; 1; 3].
Proof.
  split; [|reflexivity].
  apply (proj2 (ReadSample_dense_is_ReadPerm 4 5 7
                  (start [xff; xc3; xc2; x05])
                  ltac:(lia) ltac:(lia) ltac:(reflexivity))).
  lia.
Defined.

(** X10. Where the outcome needs no randomness nothing is read from the
    source, which may be empty or failing: ReadSample returns the empty
    slice for k = 0 or n = 0, ReadPerm returns [] for n = 0 and [0] for
    n = 1, and ReadSample from a range of one returns [0]. *)
Theorem no_entropy_needed {R : Type} `{Reader R}
    (fuel : nat) (n k : Z) (w : world R) :
  0 <= n < 2 ^ 63 -> 0 <= k ->
  (k = 0 \/ n = 0 -> ReadSample fuel n k w = Ok [] w)
  /\ (n = 1 -> 1 <= k -> ReadSample fuel n k w = Ok [0] w)
  /\ (n = 0 -> ReadPerm fuel n w = Ok [] w)
  /\ (n = 1 -> ReadPerm fuel n w = Ok [0] w).
Proof.
  intros Hn Hk. split; [|split; [|split]].
  - intros Hz. unfold ReadSample.
    assert (Hk' : (if n <? k then n else k) = 0).
    { destruct (Z.ltb_spec n k); lia. }
    rewrite Hk'.
    assert (0 <= Z.quot n 2) by (apply Z.quot_pos; lia).
    destruct (Z.ltb_spec (Z.quot n 2) 0); [lia|]. simpl.
    apply ReadSample_loop_done. simpl. lia.
  - intros -> Hk1. unfold ReadSample.
    assert (Hk' : (if 1 <? k then 1 else k) = 1).
    { destruct (Z.ltb_spec 1 k); lia. }
    rewrite Hk'. change (Z.quot 1 2 <? 1) with true. cbv iota.
    unfold bind. rewrite ReadPerm_of_one. reflexivity.
  - intros ->. apply ReadPerm_of_zero.
  - intros ->. apply ReadPerm_of_one.
Qed.

Lemma no_entropy_needed_witness :
  ReadSample 0 10 0 (start Broken) = Ok [] (start Broken)
  /\ ReadPerm 0 1 (start Broken) = Ok [0] (start Broken).
Proof.
  split.
  - apply (proj1 (no_entropy_needed 0 10 0 (start Broken)
                    ltac:(lia) ltac:(lia))). left. reflexivity.
  - reflexivity.
Defined.

(** ** The draws of ReadPerm can be read off the permutation *)

Lemma fisher_yates_snoc js :
  forall i m j,
    fisher_yates i (js ++ [j]) m
    = fy_step (fisher_yates i js m) (i + Z.of_nat (length js)) j.
Proof.
  induction js as [|j0 js IH]; intros i m j.
  - simpl. rewrite Z.add_0_r. reflexivity.
  - cbn [app fisher_yates length]. rewrite IH. f_equal. lia.
Qed.

Lemma draws_ok_snoc js :
  forall i j,
    draws_ok i (js ++ [j])
    <-> draws_ok i js /\ 0 <= j <= i + Z.of_nat (length js).
Proof.
  induction js as [|j0 js IH]; intros i j.
  - simpl. rewrite Z.add_0_r. tauto.
  - cbn [app draws_ok length]. rewrite IH.
    replace (i + 1 + Z.of_nat (length js))
      with (i + Z.of_nat (S (length js))) by lia.
    tauto.
Qed.

(** the steps leave the slots above them as they were *)
Lemma fisher_yates_above js :
  forall i (m : list Z) p,
    0 <= i -> draws_ok i js ->
    (Z.to_nat i + length js <= p)%nat ->
    fisher_yates i js m !! p = m !! p.
Proof.
  induction js as [|j js IH]; intros i m p Hi Hok Hp; [reflexivity|].
  cbn [fisher_yates length] in *. destruct Hok as [Hj Hok].
  rewrite IH by (exact Hok || lia). unfold fy_step.
  rewrite !list_lookup_insert_ne by lia. reflexivity.
Qed.

Lemma fy_step_undo (s1 s2 : list Z) l j1 j2 :
  length s1 = length s2 ->
  (Z.to_nat l < length s1)%nat ->
  0 <= j1 <= l -> 0 <= j2 <= l ->
  s1 !! Z.to_nat l = Some 0 -> s2 !! Z.to_nat l = Some 0 ->
  NoDup (take (S (Z.to_nat l)) (fy_step s1 l j1)) ->
  fy_step s1 l j1 = fy_step s2 l j2 ->
  j1 = j2 /\ s1 = s2.
Proof.
  intros Hlen Hl Hj1 Hj2 Hz1 Hz2 Hnd Heq.
  assert (Hat1 : fy_step s1 l j1 !! Z.to_nat j1 = Some l).
  { unfold fy_step. apply list_lookup_insert_eq.
    rewrite length_insert. lia. }
  assert (Hat2 : fy_step s1 l j1 !! Z.to_nat j2 = Some l).
  { rewrite Heq. unfold fy_step. apply list_lookup_insert_eq.
    rewrite length_insert. lia. }
  assert (Hj : j1 = j2).
  { assert (Z.to_nat j1 = Z.to_nat j2); [|lia].
    eapply NoDup_lookup; [exact Hnd| |];
      rewrite lookup_take_lt by lia; eassumption. }
  subst j2. split; [reflexivity|].
  apply list_eq. intros p.
  destruct (decide (p = Z.to_nat l)) as [->|Hpl]; [congruence|].
  destruct (decide (p = Z.to_nat j1)) as [->|Hpj].
  - assert (Hl1 : fy_step s1 l j1 !! Z.to_nat l
                  = Some (s1 !!! Z.to_nat j1)).
    { unfold fy_step. rewrite list_lookup_insert_ne by lia.
      apply list_lookup_insert_eq. lia. }
    assert (Hl2 : fy_step s2 l j1 !! Z.to_nat l
                  = Some (s2 !!! Z.to_nat j1)).
    { unfold fy_step. rewrite list_lookup_insert_ne by lia.
      apply list_lookup_insert_eq. lia. }
    rewrite Heq, Hl2 in Hl1. injection Hl1 as Hv.
    rewrite (list_lookup_lookup_total_lt s1), (list_lookup_lookup_total_lt s2)
      by lia.
    f_equal. symmetry. exact Hv.
  - assert (Hp1 : fy_step s1 l j1 !! p = s1 !! p).
    { unfold fy_step. rewrite !list_lookup_insert_ne by lia. reflexivity. }
    assert (Hp2 : fy_step s2 l j1 !! p = s2 !! p).
    { unfold fy_step. rewrite !list_lookup_insert_ne by lia. reflexivity. }
    rewrite <- Hp1, <- Hp2, Heq. reflexivity.
Qed.

(** X11. The slice ReadPerm builds determines the draws it was built
    from: two sequences of draws (the i-th in [0, i]) that lead to the
    same permutation of [0, n) are the same sequence.  Each of the n!
    possible sequences of draws thus gives its own permutation. *)
Theorem fisher_yates_injective (n : nat) (js1 js2 : list Z) :
  length js1 = n -> length js2 = n ->
  draws_ok 0 js1 -> draws_ok 0 js2 ->
  fisher_yates 0 js1 (replicate n 0) = fisher_yates 0 js2 (replicate n 0) ->
  js1 = js2.
Proof.
  set (m := replicate n 0).
  assert (Hgen : forall a b : list Z,
            length a = length b -> (length a <= n)%nat ->
            draws_ok 0 a -> draws_ok 0 b ->
            fisher_yates 0 a m = fisher_yates 0 b m -> a = b).
  { induction a as [|j1 a IH] using rev_ind; intros b Hlen Hle Ha Hb Heq.
    - destruct b; [reflexivity|discriminate Hlen].
    - destruct (exists_last (l := b)) as (b' & j2 & ->).
      { intros ->. rewrite length_app in Hlen. simpl in Hlen. lia. }
      rewrite !length_app in *. cbn [length] in *.
      apply draws_ok_snoc in Ha, Hb.
      destruct Ha as [Ha Hj1], Hb as [Hb Hj2].
      assert (Hab : length a = length b') by lia.
      rewrite !fisher_yates_snoc, <- Hab in Heq. rewrite <- Hab in Hj2.
      rewrite !Z.add_0_l in *.
      destruct (fisher_yates_perm a 0 m ltac:(lia) Ha) as [Hla _];
        [unfold m; rewrite length_replicate; simpl; lia|reflexivity|].
      destruct (fisher_yates_perm b' 0 m ltac:(lia) Hb) as [Hlb _];
        [unfold m; rewrite length_replicate; simpl; lia|reflexivity|].
      assert (Hm : length m = n) by apply length_replicate.
      destruct (fy_step_undo (fisher_yates 0 a m) (fisher_yates 0 b' m)
                  (Z.of_nat (length a)) j1 j2) as [-> Hs].
      + congruence.
      + lia.
      + exact Hj1.
      + exact Hj2.
      + rewrite Nat2Z.id, fisher_yates_above by (assumption || simpl; lia).
        apply lookup_replicate_2. lia.
      + rewrite Nat2Z.id, fisher_yates_above by (assumption || simpl; lia).
        apply lookup_replicate_2. lia.
      + rewrite <- fisher_yates_snoc.
        destruct (fisher_yates_perm (a ++ [j1]) 0 m ltac:(lia)) as [_ Hp].
        * apply draws_ok_snoc. rewrite Z.add_0_l. split; assumption.
        * rewrite length_app. simpl. lia.
        * reflexivity.
        * rewrite length_app in Hp. simpl in Hp.
          rewrite Nat2Z.id.
          replace (S (length a)) with (length a + 1)%nat by lia.
          rewrite Hp. apply NoDup_seqZ.
      + exact Heq.
      + f_equal. apply IH; try assumption; lia. }
  intros H1 H2 Hok1 Hok2 Heq. apply Hgen; try assumption; lia.
Qed.

Lemma fisher_yates_injective_witness :
  fisher_yates 0 [0; 1; 0] (replicate 3 0) = [2; 1; 0]
  /\ forall js, length js = 3%nat -> draws_ok 0 js ->
       fisher_yates 0 js (replicate 3 0) = [2; 1; 0] -> js = [0; 1; 0].
Proof.
  split; [reflexivity|].
  intros js Hlen Hok Heq.
  apply (fisher_yates_injective 3 js [0; 1; 0] Hlen eq_refl Hok);
    [simpl; lia|exact Heq].
Defined.

(** ** On a finite buffer every operation comes to an end *)

Lemma ReadUint64Bits_buffer_cases fuel n (s : list byte) t :
  0 < n <= 64 ->
  ((bytes_needed n <= length s)%nat
   /\ exists r t',
       ReadUint64Bits (S (S fuel)) n (World s t)
       = Ok r (World (drop (bytes_needed n) s) t'))
  \/ exists p w', ReadUint64Bits (S (S fuel)) n (World s t) = Panic p w'.
Proof.
  intros Hn. destruct (Nat.le_gt_cases (bytes_needed n) (length s)) as [Hle|Hgt].
  - left. split; [exact Hle|]. eexists _, _.
    apply ReadUint64Bits_buffer_enough; assumption.
  - right. destruct (ReadUint64Bits_buffer_short fuel n s t Hn Hgt) as [t' Hp].
    eexists _, _. exact Hp.
Qed.

Lemma ReadUint64Bits_buffer_Ok fuel n (s : list byte) t r w' :
  0 < n <= 64 ->
  ReadUint64Bits fuel n (World s t) = Ok r w' ->
  (0 < bytes_needed n <= length s)%nat
  /\ src w' = drop (bytes_needed n) s.
Proof.
  intros Hn Hok. pose proof (bytes_needed_pos n Hn) as Hpos.
  assert (Hmore : ReadUint64Bits (S (S fuel)) n (World s t) = Ok r w').
  { rewrite (ReadUint64Bits_more_fuel fuel) by (lia || (rewrite Hok; discriminate)).
    exact Hok. }
  destruct (ReadUint64Bits_buffer_cases fuel n s t Hn)
    as [(Hle & r0 & t' & Heq)|(p & w1 & Heq)];
    rewrite Heq in Hmore; [|discriminate].
  injection Hmore as _ <-. split; [lia|reflexivity].
Qed.

Lemma ReadUint64Bits_buffer_fuel fuel n (s : list byte) t :
  0 <= n <= 64 ->
  ReadUint64Bits fuel n (World s t) = OutOfFuel -> (fuel < 2)%nat.
Proof.
  intros Hn Hout. destruct fuel as [|[|fuel]]; [lia|lia|exfalso].
  destruct (Z.eq_dec n 0) as [->|Hne].
  - rewrite ReadUint64Bits_zero_bits in Hout. discriminate.
  - destruct (ReadUint64Bits_buffer_cases fuel n s t ltac:(lia))
      as [(_ & r0 & t' & Heq)|(p & w1 & Heq)];
      rewrite Heq in Hout; discriminate.
Qed.

Lemma ReadIntn_loop_buffer fuel :
  forall bits N limit (s : list byte) t,
    0 < bits <= 64 ->
    buffer_outcome true 3 fuel (length s)
      (ReadIntn_loop fuel bits N limit (World s t)).
Proof.
  induction fuel as [|fuel IH]; intros bits N limit s t Hbits; simpl;
    [lia|].
  unfold bind.
  destruct (ReadUint64Bits fuel bits (World s t)) as [r [s1 t1]| |] eqn:Hdraw.
  - apply ReadUint64Bits_buffer_Ok in Hdraw; [|exact Hbits].
    destruct Hdraw as [Hk Hsrc]. simpl in Hsrc. subst s1.
    destruct (r <? limit).
    + simpl. rewrite length_drop. lia.
    + specialize (IH bits N limit (drop (bytes_needed bits) s) t1 Hbits).
      rewrite length_drop in IH.
      destruct (ReadIntn_loop fuel bits N limit _) as [v w2| |];
        simpl in *; [lia|exact I|lia].
  - exact I.
  - apply ReadUint64Bits_buffer_fuel in Hdraw; [|lia]. simpl. lia.
Qed.

Lemma intn_bits_pos N :
  Z.land N (sub64 N 1) <> 0 -> 0 < intn_bits N <= 64.
Proof.
  intros Hnp. pose proof (intn_bits_range N) as Hr.
  split; [|lia]. unfold intn_bits, mul64 in *.
  pose proof (minBytes_range (sub64 N 1)) as Hm.
  rewrite wrap64_small by lia.
  assert (minBytes (sub64 N 1) <> 0); [|lia].
  unfold minBytes. destruct (Z.eqb_spec (sub64 N 1) 0) as [Hz|_].
  - rewrite Hz, Z.land_0_r in Hnp. contradiction.
  - repeat match goal with |- context [if ?c then _ else _] => destruct c end;
      lia.
Qed.

Lemma ReadIntn_buffer fuel n (s : list byte) t :
  buffer_outcome false 3 fuel (length s) (ReadIntn fuel n (World s t))
  /\ (2 <= n < 2 ^ 63 ->
      buffer_outcome true 3 fuel (length s) (ReadIntn fuel n (World s t))).
Proof.
  unfold ReadIntn. destruct (Z.leb_spec n 0) as [Hle|Hpos].
  { split; [exact I|]. intros. exact I. }
  pose proof (intn_bits_range (wrap64 n)) as Hbits.
  destruct (Z.eqb_spec (Z.land (wrap64 n) (sub64 (wrap64 n) 1)) 0)
    as [Hp|Hnp].
  - unfold bind.
    destruct (ReadUint64Bits fuel _ (World s t)) as [r [s1 t1]| |] eqn:Hdraw.
    + destruct (Z.eq_dec (intn_bits (wrap64 n)) 0) as [Hz|Hnz].
      * rewrite Hz, ReadUint64Bits_zero_bits in Hdraw.
        injection Hdraw as _ <- _. split; [simpl; lia|].
        intros Hn. exfalso.
        rewrite intn_bits_eq in Hz by lia.
        assert (minBytes (n - 1) <> 0); [|lia].
        unfold minBytes. destruct (Z.eqb_spec (n - 1) 0); [lia|].
        repeat match goal with
               | |- context [if ?c then _ else _] => destruct c
               end; lia.
      * apply ReadUint64Bits_buffer_Ok in Hdraw; [|lia].
        destruct Hdraw as [Hk Hsrc]. simpl in Hsrc. subst s1.
        simpl. rewrite length_drop. split; [lia|]. intros _. lia.
    + split; [exact I|]. intros. exact I.
    + apply ReadUint64Bits_buffer_fuel in Hdraw; [|lia].
      simpl. split; [lia|]. intros _. lia.
  - pose proof (ReadIntn_loop_buffer fuel (intn_bits (wrap64 n)) (wrap64 n)
                  (intn_limit (wrap64 n) (intn_bits (wrap64 n))) s t
                  (intn_bits_pos _ Hnp)) as Hloop.
    destruct (ReadIntn_loop fuel _ _ _ _) as [v w1| |]; simpl in *;
      (split; [lia || exact I|intros _; lia || exact I]).
Qed.

Lemma index_cases {R} (m : list Z) j (w : world R) :
  (exists v, index m j w = Ok v w) \/ (exists p, index m j w = Panic p w).
Proof.
  unfold index. destruct ((j <? 0) || (Z.of_nat (length m) <=? j));
    [right|left]; eexists; reflexivity.
Qed.

Lemma assign_cases {R} (m : list Z) i v (w : world R) :
  (exists m', assign m i v w = Ok m' w)
  \/ (exists p, assign m i v w = Panic p w).
Proof.
  unfold assign. destruct ((i <? 0) || (Z.of_nat (length m) <=? i));
    [right|left]; eexists; reflexivity.
Qed.

Lemma ReadPerm_loop_buffer fuel todo :
  forall i n m (s : list byte) t,
    0 <= i -> n < 2 ^ 63 -> (Z.to_nat (n - i) <= todo)%nat ->
    buffer_outcome false 3 fuel (length s)
      (ReadPerm_loop fuel todo i n m (World s t)).
Proof.
  induction todo as [|todo IH]; intros i n m s t Hi Hn Htodo;
    rewrite ReadPerm_loop_eq; destruct (Z.ltb_spec i n) as [Hlt|Hge];
    try (simpl; lia).
  assert (Hsucc : int_succ i = i + 1).
  { unfold int_succ. apply to_int_small. lia. }
  rewrite Hsucc. unfold bind.
  destruct (ReadIntn_buffer fuel (i + 1) s t) as [Hdraw _].
  destruct (ReadIntn fuel (i + 1) (World s t)) as [j [s1 t1]| |];
    [|exact I|exact Hdraw].
  simpl in Hdraw.
  destruct (index_cases m j (World s1 t1)) as [[mj ->]|[p ->]]; [|exact I].
  destruct (assign_cases m i mj (World s1 t1)) as [[m1 ->]|[p ->]];
    [|exact I].
  destruct (assign_cases m1 j i (World s1 t1)) as [[m2 ->]|[p ->]];
    [|exact I].
  specialize (IH (i + 1) n m2 s1 t1 ltac:(lia) Hn ltac:(lia)).
  destruct (ReadPerm_loop fuel todo (i + 1) n m2 (World s1 t1))
    as [m' w'| |]; simpl in *; [lia|exact I|lia].
Qed.

Lemma ReadPerm_buffer fuel n (s : list byte) t :
  n < 2 ^ 63 ->
  buffer_outcome false 3 fuel (length s) (ReadPerm fuel n (World s t)).
Proof.
  intros Hn. unfold ReadPerm.
  destruct (makeslice_refuses n); [exact I|].
  apply ReadPerm_loop_buffer; lia.
Qed.

Lemma ReadSample_loop_buffer fuel :
  forall n k sample cache (s : list byte) t,
    2 <= n < 2 ^ 63 ->
    buffer_outcome false 4 fuel (length s)
      (ReadSample_loop fuel n k sample cache (World s t)).
Proof.
  induction fuel as [|fuel IH]; intros n k sample cache s t Hn;
    rewrite ReadSample_loop_eq;
    destruct (Z.of_nat (length sample) <? k); try (simpl; lia).
  unfold bind.
  destruct (ReadIntn_buffer fuel n s t) as [_ Hdraw].
  specialize (Hdraw Hn).
  destruct (ReadIntn fuel n (World s t)) as [r [s1 t1]| |];
    [|exact I|simpl in *; lia].
  simpl in Hdraw.
  destruct (bool_decide (r ∈ cache)).
  - specialize (IH n k sample cache s1 t1 Hn).
    destruct (ReadSample_loop fuel n k sample cache (World s1 t1))
      as [m' w'| |]; simpl in *; [lia|exact I|lia].
  - specialize (IH n k (sample ++ [r]) ({[r]} ∪ cache) s1 t1 Hn).
    destruct (ReadSample_loop fuel n k (sample ++ [r]) _ (World s1 t1))
      as [m' w'| |]; simpl in *; [lia|exact I|lia].
Qed.

(** X12. Reading from a bytes.Buffer that holds len bytes, every
    operation comes to an end once the fuel is at least len + 4: it
    returns or it panics, the rejection loop of ReadIntn and the loop
    of ReadSample included, because every draw that is discarded has
    consumed at least one byte. *)
Theorem finite_buffer_finishes
    (fuel : nat) (b n k : Z) (s : list byte) (t : list read_event) :
  is_uint64 b -> is_int n -> is_int k -> (length s + 4 <= fuel)%nat ->
  finished (ReadUint64Bits fuel b (World s t))
  /\ finished (ReadIntn fuel n (World s t))
  /\ finished (ReadFloat64 fuel (World s t))
  /\ finished (ReadPerm fuel n (World s t))
  /\ finished (ReadSample fuel n k (World s t)).
Proof.
  intros [Hb0 _] [_ Hn] [_ Hk] Hfuel. unfold finished.
  assert (Hbits : forall c, 0 <= c ->
            ReadUint64Bits fuel c (World s t) <> OutOfFuel).
  { intros c Hc Hout. destruct (Z.ltb_spec 64 c) as [Hbig|Hsmall].
    - rewrite ReadUint64Bits_invalid in Hout by exact Hbig. discriminate.
    - apply ReadUint64Bits_buffer_fuel in Hout; lia. }
  split; [apply Hbits; exact Hb0|].
  split.
  { intros Hout. destruct (ReadIntn_buffer fuel n s t) as [Hb _].
    rewrite Hout in Hb. simpl in Hb. lia. }
  split.
  { unfold ReadFloat64, bind. intros Hout.
    destruct (ReadUint64Bits fuel 53 (World s t)) eqn:Hdraw;
      try discriminate.
    exact (Hbits 53 ltac:(lia) Hdraw). }
  split.
  { intros Hout. pose proof (ReadPerm_buffer fuel n s t Hn) as Hb.
    rewrite Hout in Hb. simpl in Hb. lia. }
  unfold ReadSample.
  set (k' := if n <? k then n else k).
  destruct (Z.ltb_spec (Z.quot n 2) k') as [Hdense|Hsparse].
  - unfold bind. pose proof (ReadPerm_buffer fuel n s t Hn) as Hb.
    destruct (ReadPerm fuel n (World s t)) as [m w1| |];
      [|discriminate|simpl in Hb; lia].
    unfold slice_to. destruct ((k' <? 0) || _); discriminate.
  - destruct (makeslice_refuses k'); [discriminate|].
    destruct (Z.le_gt_cases k' 0) as [Hk0|Hk1].
    + rewrite ReadSample_loop_done by (simpl; lia). discriminate.
    + assert (2 <= n).
      { destruct (Z.le_gt_cases 2 n) as [|Hsmall]; [assumption|exfalso].
        destruct (Z.le_gt_cases 0 n).
        - rewrite Z.quot_small in Hsparse by lia. lia.
        - pose proof (Z.quot_opp_l n 2 ltac:(lia)).
          assert (0 <= Z.quot (- n) 2) by (apply Z.quot_pos; lia). lia. }
      intros Hout.
      pose proof (ReadSample_loop_buffer fuel n k' [] ∅ s t ltac:(lia)) as Hb.
      rewrite Hout in Hb. simpl in Hb. lia.
Qed.

Lemma finite_buffer_finishes_witness :
  ReadIntn 5 3 (World [xff] [])
  = Panic (PanicError EOF)
      (World [] [ReadEvent 1 [xff] None; ReadEvent 1 [] (Some EOF)])
  /\ finished (ReadIntn 5 3 (World [xff] [])).
Proof.
  split; [reflexivity|].
  assert (Hb : is_uint64 0) by (unfold is_uint64; lia).
  assert (Hn : is_int 3) by (unfold is_int; lia).
  exact (proj1 (proj2 (finite_buffer_finishes 5 0 3 3 [xff] []
                         Hb Hn Hn ltac:(simpl; lia)))).
Defined.

(** ** The rejection loop has no cap *)

Lemma ReadFull_constant fuel (buf : list byte) c t :
  (0 < length buf)%nat ->
  ReadFull (S fuel) buf (World c t)
  = Ok (replicate (length buf) (const_byte c), length buf, None)
      (World c (t ++ [ReadEvent (length buf)
                        (replicate (length buf) (const_byte c)) None])).
Proof.
  intros Hlen. unfold ReadFull, ReadAtLeast. rewrite Nat.ltb_irrefl.
  unfold bind. rewrite ReadAtLeast_loop_eq.
  destruct (Nat.ltb_spec 0 (length buf)) as [_|]; [|lia].
  cbn [andb is_nil]. unfold bind, do_read.
  cbn [src trace Read constant_reader]. unfold constant_Read.
  rewrite Nat.sub_0_r, ReadAtLeast_loop_eq.
  rewrite Nat.add_0_l, length_replicate, Nat.ltb_irrefl. cbn [andb].
  unfold ret. rewrite Nat.leb_refl. f_equal. f_equal. f_equal.
  unfold store. rewrite length_replicate, Nat.sub_0_r, Nat.add_0_l.
  rewrite take_0, drop_all, app_nil_r. cbn [app].
  apply take_ge. rewrite length_replicate. lia.
Qed.

Lemma ReadUint64Bits_constant fuel n c t :
  0 < n <= 64 ->
  ReadUint64Bits (S fuel) n (World c t)
  = Ok (le_value (replicate (bytes_needed n) (const_byte c)) mod 2 ^ n)
      (World c
         (t ++ [ReadEvent (bytes_needed n)
                  (replicate (bytes_needed n) (const_byte c)) None])).
Proof.
  intros Hn.
  pose proof (bytes_needed_le n ltac:(lia)) as Hle.
  pose proof (bytes_needed_pos n Hn) as Hpos.
  unfold ReadUint64Bits. destruct (Z.ltb_spec 64 n); [lia|].
  assert (Hbuf : length (take (bytes_needed n) (replicate 8 x00))
                 = bytes_needed n).
  { rewrite length_take, length_replicate. lia. }
  unfold bind. rewrite ReadFull_constant by (rewrite Hbuf; lia).
  rewrite Hbuf. unfold ret. f_equal.
  apply extracted_value; [lia|]. apply length_replicate.
Qed.

Lemma ReadUint64Bits_no_fuel {R : Type} `{Reader R} n (w : world R) :
  0 < n <= 64 -> ReadUint64Bits 0 n w = OutOfFuel.
Proof.
  intros Hn.
  pose proof (bytes_needed_le n ltac:(lia)) as Hle.
  pose proof (bytes_needed_pos n Hn) as Hpos.
  unfold ReadUint64Bits. destruct (Z.ltb_spec 64 n); [lia|].
  unfold bind, ReadFull, ReadAtLeast. rewrite Nat.ltb_irrefl.
  unfold bind. rewrite ReadAtLeast_loop_eq.
  rewrite length_take, length_replicate.
  destruct (Nat.ltb_spec 0 (bytes_needed n `min` 8)); [reflexivity|lia].
Qed.

Lemma ReadIntn_loop_constant fuel :
  forall bits N limit c t,
    0 < bits <= 64 ->
    limit <= le_value (replicate (bytes_needed bits) (const_byte c))
               mod 2 ^ bits ->
    ReadIntn_loop fuel bits N limit (World c t) = OutOfFuel.
Proof.
  induction fuel as [|fuel IH]; intros bits N limit c t Hbits Hrej;
    [reflexivity|].
  simpl. unfold bind. destruct fuel as [|fuel].
  - rewrite ReadUint64Bits_no_fuel by exact Hbits. reflexivity.
  - rewrite ReadUint64Bits_constant by exact Hbits.
    destruct (Z.ltb_spec
                (le_value (replicate (bytes_needed bits) (const_byte c))
                   mod 2 ^ bits) limit); [lia|].
    apply IH; assumption.
Qed.

(** X13. The rejection loop of ReadIntn has no iteration cap: on a
    source that keeps delivering the same byte, if the draw made of
    those bytes is one ReadIntn discards, then ReadIntn never returns
    and never panics, whatever time it is given. *)
Theorem ReadIntn_no_iteration_cap
    (fuel : nat) (n : Z) (b : byte) (t : list read_event) :
  0 < n < 2 ^ 63 ->
  intn_decide n
    (le_value (replicate (Z.to_nat (minBytes (n - 1))) b)
       mod 2 ^ (minBytes (n - 1) * 8)) = None ->
  ReadIntn fuel n (World (Constant b) t) = OutOfFuel.
Proof.
  intros Hn Hdec.
  set (bits := minBytes (n - 1) * 8) in *.
  pose proof (minBytes_range (n - 1)) as Hk.
  rewrite intn_decide_eq in Hdec by exact Hn.
  rewrite ReadIntn_eq by exact Hn. fold bits.
  destruct (Z.eqb_spec (Z.land n (n - 1)) 0) as [Hp|Hnp]; [discriminate|].
  assert (Hacc : intn_accepted n = intn_limit n bits).
  { unfold intn_accepted, sub64.
    pose proof (intn_bits_eq n Hn) as Hb.
    rewrite (wrap64_small n) in Hb |- * by lia.
    rewrite (wrap64_small (n - 1)), Hb by lia.
    destruct (Z.eqb_spec (Z.land n (n - 1)) 0); [contradiction|].
    reflexivity. }
  rewrite Hacc in Hdec.
  assert (Hbits : 0 < bits <= 64).
  { pose proof (intn_bits_pos n) as Hpos. unfold sub64 in Hpos.
    rewrite (wrap64_small (n - 1)) in Hpos by lia.
    specialize (Hpos Hnp).
    pose proof (intn_bits_eq n Hn) as Hb.
    rewrite (wrap64_small n) in Hb by lia. unfold bits. lia. }
  assert (Hbytes : bytes_needed bits = Z.to_nat (minBytes (n - 1))).
  { pose proof (bytes_needed_eq bits ltac:(lia)) as Hbn.
    assert ((bits + 7) / 8 = minBytes (n - 1)).
    { unfold bits. symmetry. apply Z.div_unique with (r := 7); lia. }
    lia. }
  apply ReadIntn_loop_constant; [exact Hbits|].
  rewrite Hbytes. cbn [const_byte].
  destruct (Z.ltb_spec
              (le_value (replicate (Z.to_nat (minBytes (n - 1))) b)
                 mod 2 ^ bits) (intn_limit n bits));
    [discriminate|assumption].
Qed.

(** n = 3: limit = 255, and the byte 0xff is discarded every time *)
Lemma ReadIntn_no_iteration_cap_witness :
  intn_decide 3 0xff = None
  /\ ReadIntn 1000 3 (World (Constant xff) []) = OutOfFuel.
Proof.
  split; [reflexivity|].
  apply ReadIntn_no_iteration_cap; [lia|reflexivity].
Defined.

(** ** ReadFloat64: seven bytes, increasing in the draw *)

Lemma float_of_draw_pos p :
  Z.pos p < 2 ^ 53 ->
  exists m,
    float_of_draw (Z.pos p)
    = S754_finite false m (Z.pos (digits2_pos p) - 106)
    /\ Z.pos m = Z.pos p * 2 ^ (53 - Z.pos (digits2_pos p)).
Proof.
  intros Hp. unfold float_of_draw.
  destruct (of_uint64_exact p Hp) as (m & -> & Hd & Hm).
  pose proof (digits2_pos_le p 53 Hp) as Hle.
  rewrite div_two53_exact by (exact Hd || lia).
  exists m. split; [f_equal; lia|exact Hm].
Qed.

Lemma ltb_irrefl f : Float64.ltb f f = false.
Proof.
  unfold Float64.ltb, SFltb.
  destruct f as [s|s| |s m e]; cbn [SFcompare]; try reflexivity.
  - destruct s; reflexivity.
  - rewrite Z.compare_refl.
    match goal with
    | |- context [match (if s then CompOpp ?c else _) with _ => _ end] =>
        change c with (Pos.compare_cont Eq m m)
    | |- context [?c] =>
        lazymatch c with
        | context [m] => lazymatch type of c with
                         | comparison => change c with (Pos.compare_cont Eq m m)
                         end
        end
    end.
    rewrite Pos.compare_cont_refl. destruct s; reflexivity.
Qed.

(** X14. A value ReadFloat64 returns is made of exactly seven bytes of
    the source: it is the float of the draw r formed by the low 53 bits
    of their little endian number.  ReadFloat64 panics only when the
    source fails. *)
Theorem ReadFloat64_seven_bytes {R : Type} `{Reader R}
    (fuel : nat) (w w' : world R) :
  (forall f, ReadFloat64 fuel w = Ok f w' ->
     exists evs,
       extends w w' evs
       /\ length (bytes_read evs) = 7%nat
       /\ f = float_of_draw (le_value (bytes_read evs) mod 2 ^ 53))
  /\ (forall p, ReadFloat64 fuel w = Panic p w' -> source_panic w w' p).
Proof.
  split.
  - intros f Hrun. unfold ReadFloat64 in Hrun.
    apply bind_Ok in Hrun. destruct Hrun as (r & w1 & Hdraw & Hret).
    injection Hret as <- <-.
    apply ReadUint64Bits_Ok in Hdraw.
    destruct Hdraw as (_ & buf & k & evs0 & Hfull & -> & _ & _).
    apply ReadFull_filled in Hfull.
    destruct Hfull as (evs & Hext & -> & Hlen).
    change (bytes_needed 53) with 7%nat in *.
    exists evs. split; [exact Hext|]. split; [exact Hlen|].
    unfold float_of_draw. do 2 f_equal.
    apply (extracted_value (bytes_read evs) 53); [lia|exact Hlen].
  - intros p Hrun. unfold ReadFloat64 in Hrun.
    apply bind_Panic in Hrun.
    destruct Hrun as [Hp|(r & w1 & _ & Hret)]; [|discriminate].
    apply ReadUint64Bits_Panic in Hp.
    destruct Hp as [(Hbig & _)|(_ & Hsrc)]; [lia|exact Hsrc].
Qed.

(** X15. The float ReadFloat64 makes of a draw grows strictly with the
    draw: the 2^53 possible draws give 2^53 different floats, in the
    order of the draws. *)
Theorem float_of_draw_increasing (r1 r2 : Z) :
  0 <= r1 -> r1 < r2 -> r2 < 2 ^ 53 ->
  Float64.ltb (float_of_draw r1) (float_of_draw r2) = true
  /\ float_of_draw r1 <> float_of_draw r2.
Proof.
  intros H1 Hlt H2.
  assert (Hltb : Float64.ltb (float_of_draw r1) (float_of_draw r2) = true).
  { destruct r2 as [|p2|p2]; [lia| |lia].
    destruct (float_of_draw_pos p2 H2) as (m2 & -> & Hm2).
    destruct r1 as [|p1|p1]; [reflexivity| |lia].
    destruct (float_of_draw_pos p1 ltac:(lia)) as (m1 & -> & Hm1).
    destruct (digits2_pos_bounds p1) as [Hlo1 Hhi1].
    destruct (digits2_pos_bounds p2) as [Hlo2 Hhi2].
    pose proof (digits2_pos_le p1 53 ltac:(lia)) as Hd1.
    pose proof (digits2_pos_le p2 53 ltac:(lia)) as Hd2.
    assert (Hd : Z.pos (digits2_pos p1) <= Z.pos (digits2_pos p2)).
    { destruct (Z.le_gt_cases (Z.pos (digits2_pos p1))
                  (Z.pos (digits2_pos p2))) as [|Hgt]; [assumption|exfalso].
      assert (2 ^ Z.pos (digits2_pos p2)
              <= 2 ^ (Z.pos (digits2_pos p1) - 1))
        by (apply Z.pow_le_mono_r; lia).
      lia. }
    unfold Float64.ltb, SFltb. cbn [SFcompare].
    destruct (Z.compare_spec (Z.pos (digits2_pos p1) - 106)
                (Z.pos (digits2_pos p2) - 106)) as [Heq|Hl|Hg];
      [|reflexivity|lia].
    assert (Hm : (m1 < m2)%positive).
    { assert (Hdd : Z.pos (digits2_pos p1) = Z.pos (digits2_pos p2)) by lia.
      rewrite Hdd in Hm1.
      assert (0 < 2 ^ (53 - Z.pos (digits2_pos p2)))
        by (apply Z.pow_pos_nonneg; lia).
      assert (Z.pos m1 < Z.pos m2) by nia. lia. }
    apply Pos.compare_lt_iff in Hm.
    change (Pos.compare m1 m2 = Lt) with (Pos.compare_cont Eq m1 m2 = Lt) in Hm.
    match goal with
    | |- match ?c with _ => _ end = true =>
        change c with (Pos.compare_cont Eq m1 m2)
    end.
    rewrite Hm. reflexivity. }
  split; [exact Hltb|].
  intros Heq. rewrite Heq, ltb_irrefl in Hltb. discriminate Hltb.
Qed.

Lemma float_of_draw_increasing_witness :
  float_of_draw 1 = S754_finite false 4503599627370496 (-105)
  /\ Float64.ltb (float_of_draw 1) (float_of_draw 2) = true.
Proof.
  split; [reflexivity|].
  exact (proj1 (float_of_draw_increasing 1 2 ltac:(lia) ltac:(lia)
                  ltac:(lia))).
Defined.

Lemma ReadFloat64_seven_bytes_witness :
  ReadFloat64 2 (start [x01; x00; x00; x00; x00; x00; xe0; x55])
  = Ok (float_of_draw 1)
      (World [x55]
         [ReadEvent 7 [x01; x00; x00; x00; x00; x00; xe0] None])
  /\ exists evs,
      length (bytes_read evs) = 7%nat
      /\ float_of_draw 1 = float_of_draw (le_value (bytes_read evs) mod 2 ^ 53).
Proof.
  assert (Hrun :
    ReadFloat64 2 (start [x01; x00; x00; x00; x00; x00; xe0; x55])
    = Ok (float_of_draw 1)
        (World [x55]
           [ReadEvent 7 [x01; x00; x00; x00; x00; x00; xe0] None]))
    by (vm_compute; reflexivity).
  split; [exact Hrun|].
  destruct (proj1 (ReadFloat64_seven_bytes 2 _ _) _ Hrun)
    as (evs & _ & Hlen & Hf).
  exists evs. split; assumption.
Defined.

(** ** The order of a sparse sample *)

Lemma ReadSample_loop_order {R : Type} `{Reader R} fuel :
  forall n k sample cache (w : world R) s w',
    (forall x, x ∈ sample <-> x ∈ cache) ->
    ReadSample_loop fuel n k sample cache w = Ok s w' ->
    exists ds,
      intn_calls n w ds w'
      /\ s = foldl keep_new sample ds
      /\ (Z.of_nat (length sample) < k -> ds <> [])
      /\ (forall ds' d, ds = ds' ++ [d] -> d ∉ foldl keep_new sample ds').
Proof.
  induction fuel as [|fuel IH]; intros n k sample cache w s w' Hcache;
    rewrite ReadSample_loop_eq;
    destruct (Z.ltb_spec (Z.of_nat (length sample)) k) as [Hlt|Hge];
    try discriminate.
  - intros [= <- <-]. exists []. split; [constructor|].
    split; [reflexivity|]. split; [lia|].
    intros ds' d Habs. destruct ds'; discriminate Habs.
  - intros Hb. apply bind_Ok in Hb. destruct Hb as (r & w1 & Hdraw & Hb).
    destruct (bool_decide_reflect (r ∈ cache)) as [Hin|Hnin].
    + apply IH in Hb; [|exact Hcache].
      destruct Hb as (ds & Hcalls & -> & Hne & Hlast).
      assert (Hkeep : keep_new sample r = sample).
      { unfold keep_new. destruct (decide (r ∈ sample)) as [|Hn];
          [reflexivity|]. exfalso. apply Hn, Hcache, Hin. }
      exists (r :: ds). split; [econstructor; eassumption|].
      cbn [foldl]. rewrite Hkeep. split; [reflexivity|].
      split; [discriminate|].
      intros ds' d Heq. destruct ds' as [|d0 ds'].
      * exfalso. injection Heq as _ Hnil. apply (Hne Hlt). exact Hnil.
      * injection Heq as <- Heq. cbn [foldl]. rewrite Hkeep.
        apply Hlast. exact Heq.
    + assert (Hkeep : keep_new sample r = sample ++ [r]).
      { unfold keep_new. destruct (decide (r ∈ sample)) as [Hy|];
          [|reflexivity]. exfalso. apply Hnin, Hcache, Hy. }
      apply IH in Hb.
      * destruct Hb as (ds & Hcalls & -> & Hne & Hlast).
        exists (r :: ds). split; [econstructor; eassumption|].
        cbn [foldl]. rewrite Hkeep. split; [reflexivity|].
        split; [discriminate|].
        intros ds' d Heq. destruct ds' as [|d0 ds'].
        -- injection Heq as <- _. cbn [foldl].
           intros Hy. apply Hnin, Hcache, Hy.
        -- injection Heq as <- Heq. cbn [foldl]. rewrite Hkeep.
           apply Hlast. exact Heq.
      * intros x. rewrite elem_of_app, elem_of_union, list_elem_of_singleton,
          elem_of_singleton, Hcache. tauto.
  - intros [= <- <-]. exists []. split; [constructor|].
    split; [reflexivity|]. split; [lia|].
    intros ds' d Habs. destruct ds'; discriminate Habs.
Qed.

(** X16. When at most half of the range is asked for (k <= n/2), the
    slice ReadSample returns lists the values drawn by its calls
    ReadIntn(src, n) in the order in which each was first drawn,
    duplicates dropped; the last draw made is a value not drawn
    before. *)
Theorem ReadSample_sparse_order {R : Type} `{Reader R}
    (fuel : nat) (n k : Z) (w w' : world R) (s : list Z) :
  0 <= k -> k <= Z.quot n 2 -> k <= n ->
  ReadSample fuel n k w = Ok s w' ->
  exists ds,
    intn_calls n w ds w'
    /\ s = first_occurrences ds
    /\ (0 < k -> ds <> [])
    /\ (forall ds' d, ds = ds' ++ [d] -> d ∉ first_occurrences ds').
Proof.
  intros Hk Hsparse Hkn. unfold ReadSample.
  assert (Hk' : (if n <? k then n else k) = k).
  { destruct (Z.ltb_spec n k); lia. }
  rewrite Hk'. clear Hk'.
  destruct (Z.ltb_spec (Z.quot n 2) k); [lia|].
  destruct (makeslice_refuses k); [discriminate|].
  intros Hloop. apply ReadSample_loop_order in Hloop.
  - destruct Hloop as (ds & Hcalls & Hs & Hne & Hlast).
    exists ds. split; [exact Hcalls|]. split; [exact Hs|].
    split; [|exact Hlast]. intros Hpos. apply Hne. simpl. lia.
  - intros x. rewrite elem_of_nil, elem_of_empty. tauto.
Qed.

(** of the draws 3, 5, 5, 1 from a range of 10 the sample keeps 3, 5, 1 *)
Lemma ReadSample_sparse_order_witness :
  ReadSample 9 10 3 (start [x03; x05; x05; x01; x07])
  = Ok [3; 5; 1]
      (World [x07]
         [ReadEvent 1 [x03] None; ReadEvent 1 [x05] None;
          ReadEvent 1 [x05] None; ReadEvent 1 [x01] None])
  /\ first_occurrences [3; 5; 5; 1] = [3; 5; 1]
  /\ exists ds, [3; 5; 1] = first_occurrences ds /\ ds <> [].
Proof.
  assert (Hrun : ReadSample 9 10 3 (start [x03; x05; x05; x01; x07])
    = Ok [3; 5; 1]
        (World [x07]
           [ReadEvent 1 [x03] None; ReadEvent 1 [x05] None;
            ReadEvent 1 [x05] None; ReadEvent 1 [x01] None]))
    by reflexivity.
  split; [exact Hrun|]. split; [reflexivity|].
  destruct (ReadSample_sparse_order 9 10 3
              (start [x03; x05; x05; x01; x07]) _ _
              ltac:(lia) ltac:(vm_compute; discriminate) ltac:(lia) Hrun)
    as (ds & _ & Hs & Hne & _).
  exists ds. split; [exact Hs|]. apply Hne. lia.
Defined.
